(** * simple-solutions: conversion helpers, text-block parser, unique paths

    A shallow embedding of the pure core of the application:
    - [src/utils.py]: [seconds_to_formatted_time], [formatted_time_to_seconds],
      [bytes_to_formatted_size], [formatted_size_to_bytes];
    - [src/file_utils.py]: [get_unique_file_name],
      [parse_text_block_into_song], [get_audio_files],
      [select_random_files] (the names it draws from), [read_text_blocks]
      and [write_first_lines_to_file] (on the text read and written);
    - [src/frames/song_library.py]: the file name and the size text that
      [process_data] computes.

    Python values are modelled as follows.  An [int] is a [Z]: unbounded.
    Its conversions to and from decimal text are those of CPython with the
    default limit of 4300 digits ([sys.int_info.default_max_str_digits]):
    formatting an [int] with more digits, or reading a literal with more
    digits, raises [ValueError].  A [str] is a list of characters;
    characters are the code points below 256, with the whitespace set of
    [str.strip] on that range, and the narrower one that [int] and [float]
    skip around a literal.  An exception is a value of [exn]; a call that
    may raise returns a [result].  A [float] is a
    binary64 number kept exactly, as a whole number of the least positive
    float, with the rounding of every operation written out.  A [while]
    loop takes fuel and returns [None] when it runs out; the theorems show
    how much fuel is enough. *)

From Stdlib Require Import ZArith Ascii String List Bool Arith Lia FinFun.
Import ListNotations.

Local Open Scope Z_scope.

(** ** Python values *)

Definition str := list ascii.

(** String literals of the source. *)
Definition lit (x : string) : str := list_ascii_of_string x.

Inductive exn : Type :=
| ValueError
| IndexError
| OverflowError.

Inductive result (A : Type) : Type :=
| Ok (a : A)
| Raise (e : exn).

Arguments Ok {A} a.
Arguments Raise {A} e.

Definition bind {A B : Type} (r : result A) (k : A -> result B) : result B :=
  match r with
  | Ok a => k a
  | Raise e => Raise e
  end.

Notation "x <- r ;; k" := (bind r (fun x => k))
  (at level 61, r at next level, right associativity).

(** [map(f, xs)] consumed to the end: the first exception wins. *)
Fixpoint map_result {A B : Type} (f : A -> result B) (xs : list A)
  : result (list B) :=
  match xs with
  | [] => Ok []
  | x :: xs' => y <- f x ;; ys <- map_result f xs' ;; Ok (y :: ys)
  end.

(** ** [str] methods *)

(** [c.isspace()] for a code point below 256: TAB..CR, FS..US, space,
    NEL (0x85) and NBSP (0xA0). *)
Definition isspace (c : ascii) : bool :=
  let n := N_of_ascii c in
  (((9 <=? n) && (n <=? 13)) || ((28 <=? n) && (n <=? 32))
   || (n =? 133) || (n =? 160))%N.

Fixpoint lstrip (s : str) : str :=
  match s with
  | [] => []
  | c :: t => if isspace c then lstrip t else s
  end.

Definition rstrip (s : str) : str := rev (lstrip (rev s)).

(** [s.strip()] *)
Definition strip (s : str) : str := rstrip (lstrip s).

(** [s.startswith(p)] *)
Fixpoint startswith (p s : str) : bool :=
  match p, s with
  | [], _ => true
  | _ :: _, [] => false
  | a :: p', b :: s' => Ascii.eqb a b && startswith p' s'
  end.

(** [s.partition(sep)], [None] when [sep] does not occur: the text before
    the leftmost occurrence of [sep] and the text after it. *)
Fixpoint cut (sep s : str) : option (str * str) :=
  if startswith sep s then Some ([], skipn (length sep) s)
  else match s with
       | [] => None
       | c :: t =>
           match cut sep t with
           | Some (a, b) => Some (c :: a, b)
           | None => None
           end
       end.

(** [s.split(sep)] for a non-empty [sep] (every separator of the source is
    a non-empty literal): leftmost occurrences, left to right, all of
    them.  The fuel bounds the number of pieces. *)
Fixpoint split_fuel (fuel : nat) (sep s : str) : list str :=
  match fuel with
  | O => [s]
  | S fuel' =>
      match cut sep s with
      | None => [s]
      | Some (a, b) => a :: split_fuel fuel' sep b
      end
  end.

Definition split (sep s : str) : list str :=
  split_fuel (S (length s)) sep s.

(** [s.split()]: maximal runs of non-whitespace characters.  [cur] is the
    run being read, most recent character first. *)
Fixpoint split_ws_from (cur : str) (s : str) : list str :=
  match s with
  | [] => match cur with [] => [] | _ => [rev cur] end
  | c :: t =>
      if isspace c then
        match cur with
        | [] => split_ws_from [] t
        | _ => rev cur :: split_ws_from [] t
        end
      else split_ws_from (c :: cur) t
  end.

Definition split_ws (s : str) : list str := split_ws_from [] s.

(** [xs[i]] for [i >= 0] *)
Definition index_list {A : Type} (xs : list A) (i : nat) : result A :=
  match nth_error xs i with
  | Some x => Ok x
  | None => Raise IndexError
  end.

(** [xs[i:j]] for [0 <= i <= j] *)
Definition slice {A : Type} (xs : list A) (i j : nat) : list A :=
  firstn (j - i) (skipn i xs).

Definition str_eqb (a b : str) : bool :=
  if list_eq_dec ascii_dec a b then true else false.

(** [xs.index(x)] *)
Fixpoint list_index (x : str) (xs : list str) : result nat :=
  match xs with
  | [] => Raise ValueError
  | y :: ys => if str_eqb x y then Ok O else i <- list_index x ys ;; Ok (S i)
  end.

(** ** Integers and text *)

Definition digit_char (d : Z) : ascii := ascii_of_N (48 + Z.to_N d).

Definition is_digit (c : ascii) : bool :=
  let n := N_of_ascii c in ((48 <=? n) && (n <=? 57))%N.

Definition digit_val (c : ascii) : Z := Z.of_N (N_of_ascii c) - 48.

(** Decimal digits of [n >= 0], most significant first, in front of [acc]. *)
Fixpoint digits_fuel (fuel : nat) (n : Z) (acc : str) : str :=
  match fuel with
  | O => acc
  | S fuel' =>
      let acc' := digit_char (n mod 10) :: acc in
      if n <? 10 then acc' else digits_fuel fuel' (n / 10) acc'
  end.

Definition digits (n : Z) : str :=
  digits_fuel (S (Z.to_nat (Z.log2 n))) n [].

(** The text of [str(n)].  It is used for the counter of a file name, which
    takes one more existing file for each step: the digit limit is out of
    reach there and is not modelled. *)
Definition py_str (n : Z) : str :=
  if n <? 0 then "-"%char :: digits (- n) else digits n.

Definition zfill (width : nat) (s : str) : str :=
  repeat "0"%char (width - length s) ++ s.

(** The text of [f"{n:02}"]: sign first, then the digits zero-padded so
    that the whole field has at least two characters. *)
Definition pad_02 (n : Z) : str :=
  if n <? 0 then "-"%char :: zfill 1 (digits (- n)) else zfill 2 (digits n).

(** The most digits an [int] may have when it is converted to decimal text,
    or a literal when it is read by [int]: the interpreter's default. *)
Definition max_str_digits : nat := 4300.

(** Whether [n] has more decimal digits than the limit; the sign does not
    count. *)
Definition exceeds_max_str_digits (n : Z) : bool :=
  (max_str_digits <? length (digits (Z.abs n)))%nat.

(** [f"{n:02}"] for an [int]: [ValueError] beyond the digit limit. *)
Definition format_02 (n : Z) : result str :=
  if exceeds_max_str_digits n then Raise ValueError else Ok (pad_02 n).

(** The digit part of a numeric literal: digits, with single underscores
    allowed between two digits.  [prev] tells whether the previous
    character was a digit. *)
Fixpoint parse_digits (acc : Z) (prev : bool) (s : str) : option Z :=
  match s with
  | [] => if prev then Some acc else None
  | c :: t =>
      if is_digit c then parse_digits (acc * 10 + digit_val c) true t
      else if Ascii.eqb c "_" && prev then parse_digits acc false t
      else None
  end.

(** An optional sign in front of a literal: whether it is a minus, and the
    rest. *)
Definition signed (s : str) : bool * str :=
  match s with
  | "-"%char :: r => (true, r)
  | "+"%char :: r => (false, r)
  | _ => (false, s)
  end.

(** The whitespace that [int] and [float] skip around a literal: TAB..CR
    and space, and NEL (0x85) and NBSP (0xA0), which are turned into spaces
    before the literal is read; FS..US are not skipped, although
    [str.strip] removes them. *)
Definition literal_space (c : ascii) : bool :=
  let n := N_of_ascii c in
  (((9 <=? n) && (n <=? 13)) || (n =? 32) || (n =? 133) || (n =? 160))%N.

Fixpoint literal_lstrip (s : str) : str :=
  match s with
  | [] => []
  | c :: t => if literal_space c then literal_lstrip t else s
  end.

Definition literal_strip (s : str) : str :=
  rev (literal_lstrip (rev (literal_lstrip s))).

(** [int(s)] for a string: surrounding whitespace, an optional sign, the
    digit part, which may hold [max_str_digits] digits at most (leading
    zeros count, underscores do not). *)
Definition py_int (s : str) : result Z :=
  let '(neg, body) := signed (literal_strip s) in
  match parse_digits 0 false body with
  | Some n =>
      if (max_str_digits <? length (filter is_digit body))%nat
      then Raise ValueError
      else Ok (if neg then - n else n)
  | None => Raise ValueError
  end.

(** ** utils.py: durations *)

(** For an [int] number of seconds; the three fields of the f-string are
    formatted from left to right. *)
Definition seconds_to_formatted_time (seconds : Z) : result str :=
  let hours := seconds / 3600 in
  let minutes := (seconds mod 3600) / 60 in
  let seconds := seconds mod 60 in
  hh <- format_02 hours ;;
  mm <- format_02 minutes ;;
  ss <- format_02 seconds ;;
  Ok (hh ++ lit ":" ++ mm ++ lit ":" ++ ss).

(** The three-name unpacking raises [ValueError] unless [map] yields
    exactly three values; every exception of this function is a
    [ValueError], so the order in which they arise is not kept. *)
Definition formatted_time_to_seconds (formatted_time : str) : result Z :=
  fields <- map_result py_int (split (lit ":") formatted_time) ;;
  match fields with
  | [hours; minutes; seconds] =>
      let total_seconds := hours * 3600 + minutes * 60 + seconds in
      Ok total_seconds
  | _ => Raise ValueError
  end.

(** ** binary64 floats

    Every finite binary64 number is a whole multiple of the least positive
    one, [2^-1074]; [Finite N] is the number [N / 2^1074], kept exactly.
    Rounding is to nearest, ties to even, with 53 significant bits, gradual
    underflow and overflow to infinity, as in IEEE 754.  The sign of a zero
    is not kept: no function below depends on it. *)

Definition quanta : Z := 2 ^ 1074.

Inductive float : Type :=
| Finite (N : Z)
| Inf (negative : bool)
| NaN.

(** The integer nearest to [n / d], ties to even ([d > 0]). *)
Definition round_half_even (n d : Z) : Z :=
  let q := n / d in
  let r := n mod d in
  if 2 * r <? d then q
  else if d <? 2 * r then q + 1
  else if Z.even q then q else q + 1.

(** [n / d > 0] rounded to 53 significant bits, in quanta.  The exact
    number is [a / d] quanta; the spacing of the floats around it is [2^u]
    quanta, which leaves 53 significant bits, and is one quantum at the
    bottom of the range. *)
Definition round_quanta (n d : Z) : Z :=
  let a := n * quanta in
  let u := Z.max (Z.log2 (a / d) - 52) 0 in
  round_half_even a (d * 2 ^ u) * 2 ^ u.

(** [n / d > 0] rounded to binary64: too large a result is an infinity. *)
Definition round_pos (n d : Z) : float :=
  let N := round_quanta n d in
  if N <? 2 ^ 1024 * quanta then Finite N else Inf false.

Definition fneg (x : float) : float :=
  match x with
  | Finite N => Finite (- N)
  | Inf s => Inf (negb s)
  | NaN => NaN
  end.

(** [n / d] rounded to binary64 ([d > 0]). *)
Definition round_ratio (n d : Z) : float :=
  if n =? 0 then Finite 0
  else if n <? 0 then fneg (round_pos (- n) d)
  else round_pos n d.

(** [a / b] on two [int]s, [b > 0]: the correctly rounded quotient, or
    [OverflowError] when it is too large for a float. *)
Definition int_truediv (a b : Z) : result float :=
  match round_ratio a b with
  | Finite N => Ok (Finite N)
  | _ => Raise OverflowError
  end.

(** [float(z)] for an [int] *)
Definition float_of_int (z : Z) : result float := int_truediv z 1.

(** [x / b] for a float [x] and an [int] [b > 0] that is exactly a float. *)
Definition float_truediv (x : float) (b : Z) : float :=
  match x with
  | Finite N => round_ratio N (b * quanta)
  | _ => x
  end.

(** [x * z] for a float [x] and an [int] [z > 0] that is exactly a float. *)
Definition float_mul (x : float) (z : Z) : float :=
  match x with
  | Finite N => round_ratio (N * z) quanta
  | _ => x
  end.

(** [x >= z] for a float [x] and an [int] [z]; the comparison is exact. *)
Definition float_ge (x : float) (z : Z) : bool :=
  match x with
  | Finite N => z * quanta <=? N
  | Inf s => negb s
  | NaN => false
  end.

(** [int(x)]: truncation toward zero. *)
Definition int_of_float (x : float) : result Z :=
  match x with
  | Finite N => Ok (Z.quot N quanta)
  | Inf _ => Raise OverflowError
  | NaN => Raise ValueError
  end.

(** [f"{x:.2f}"] for a float: the exact value rounded to hundredths, ties
    to even. *)
Definition format_2f (x : float) : str :=
  match x with
  | Finite N =>
      let h := round_half_even (Z.abs N * 100) quanta in
      (if N <? 0 then lit "-" else []) ++
      digits (h / 100) ++ lit "." ++ zfill 2 (digits (h mod 100))
  | Inf s => if s then lit "-inf" else lit "inf"
  | NaN => lit "nan"
  end.

(** A number held by a variable that starts as an [int] and may become a
    [float]. *)
Inductive num : Type :=
| Int (z : Z)
| Float (x : float).

Definition num_ge (v : num) (z : Z) : bool :=
  match v with
  | Int a => z <=? a
  | Float x => float_ge x z
  end.

Definition num_truediv (v : num) (b : Z) : result num :=
  match v with
  | Int a => x <- int_truediv a b ;; Ok (Float x)
  | Float x => Ok (Float (float_truediv x b))
  end.

Definition num_format_2f (v : num) : result str :=
  match v with
  | Int a => x <- float_of_int a ;; Ok (format_2f x)
  | Float x => Ok (format_2f x)
  end.

(** *** [float(s)] for a string *)

Definition lower (c : ascii) : ascii :=
  let n := N_of_ascii c in
  if ((65 <=? n) && (n <=? 90))%N then ascii_of_N (n + 32) else c.

(** The text before the first character satisfying [p], and the text from
    that character on, if there is one. *)
Fixpoint break_at (p : ascii -> bool) (s : str) : str * option str :=
  match s with
  | [] => ([], None)
  | c :: t =>
      if p c then ([], Some s)
      else let '(a, r) := break_at p t in (c :: a, r)
  end.

(** An optional digit part: its value and its number of digits. *)
Definition digit_part (s : str) : option (Z * Z) :=
  match parse_digits 0 false s with
  | Some n => Some (n, Z.of_nat (length (filter is_digit s)))
  | None => None
  end.

Definition opt_digit_part (s : str) : option (Z * Z) :=
  match s with
  | [] => Some (0, 0)
  | _ => digit_part s
  end.

(** A decimal literal [digits [. digits] [e [sign] digits]] (one of the two
    digit parts of the mantissa may be missing): the pair [(M, E)] with
    value [M * 10^E]. *)
Definition decimal_literal (s : str) : option (Z * Z) :=
  let '(mant, ex) := break_at (fun c => Ascii.eqb (lower c) "e") s in
  let '(ip, fr) := break_at (fun c => Ascii.eqb c ".") mant in
  let fp := match fr with Some (_ :: r) => r | _ => [] end in
  match ip, fp with
  | [], [] => None
  | _, _ =>
      match opt_digit_part ip, opt_digit_part fp with
      | Some (ni, _), Some (nf, lf) =>
          let M := ni * 10 ^ lf + nf in
          match ex with
          | None => Some (M, - lf)
          | Some ex' =>
              let '(neg, body) := signed (tl ex') in
              match digit_part body with
              | Some (x, _) => Some (M, (if neg then - x else x) - lf)
              | None => None
              end
          end
      | _, _ => None
      end
  end.

Definition py_float (s : str) : result float :=
  let '(neg, body) := signed (literal_strip s) in
  let name := map lower body in
  let sgn (x : float) := if neg then fneg x else x in
  if str_eqb name (lit "inf") || str_eqb name (lit "infinity")
  then Ok (Inf neg)
  else if str_eqb name (lit "nan") then Ok NaN
  else match decimal_literal body with
       | Some (M, E) =>
           let '(n, d) := if 0 <=? E then (M * 10 ^ E, 1) else (M, 10 ^ (- E)) in
           Ok (sgn (round_ratio n d))
       | None => Raise ValueError
       end.

(** ** utils.py: file sizes *)

Definition units : list str := [lit "B"; lit "KB"; lit "MB"; lit "GB"; lit "TB"].

(** The [while] loop of [bytes_to_formatted_size]; [None] when the fuel
    runs out before the loop ends. *)
Fixpoint size_loop (fuel : nat) (file_size_bytes : num) (unit_index : nat)
  : option (result (num * nat)) :=
  if num_ge file_size_bytes 1024 && (unit_index <? length units - 1)%nat then
    match fuel with
    | O => None
    | S fuel' =>
        match num_truediv file_size_bytes 1024 with
        | Ok v => size_loop fuel' v (unit_index + 1)
        | Raise e => Some (Raise e)
        end
    end
  else Some (Ok (file_size_bytes, unit_index)).

Definition bytes_to_formatted_size_fuel (fuel : nat) (file_size_bytes : Z)
  : option (result str) :=
  let unit_index := O in
  match size_loop fuel (Int file_size_bytes) unit_index with
  | None => None
  | Some r =>
      Some (st <- r ;;
            text <- num_format_2f (fst st) ;;
            unit <- index_list units (snd st) ;;
            Ok (text ++ lit " " ++ unit))
  end.

(** The loop runs at most [len(units) - 1] times. *)
Definition bytes_to_formatted_size (file_size_bytes : Z) : option (result str) :=
  bytes_to_formatted_size_fuel (length units) file_size_bytes.

Definition formatted_size_to_bytes (formatted_size : str) : result Z :=
  match split_ws formatted_size with
  | [size; unit] =>
      size <- py_float size ;;
      unit_index <- list_index unit units ;;
      let bytes_size := float_mul size (1024 ^ Z.of_nat unit_index) in
      int_of_float bytes_size
  | _ => Raise ValueError
  end.

(** ** file_utils.py: unique file names *)

(** [s.rfind(c)] for a one-character [c]: the index of its last occurrence,
    [-1] when there is none.  [i] is the index of the head of [s] and
    [last] the result so far. *)
Fixpoint rfind_from (i last : Z) (c : ascii) (s : str) : Z :=
  match s with
  | [] => last
  | x :: t => rfind_from (i + 1) (if Ascii.eqb x c then i else last) c t
  end.

Definition rfind (c : ascii) (s : str) : Z := rfind_from 0 (-1) c s.

(** [genericpath._splitext(p, sep, altsep, extsep)].  Its inner loop looks
    for a character other than [extsep] in [p[sepIndex + 1 : dotIndex]]. *)
Definition _splitext (p : str) (sep : ascii) (altsep : option ascii)
  (extsep : ascii) : str * str :=
  let sepIndex := rfind sep p in
  let sepIndex :=
    match altsep with
    | Some a => Z.max sepIndex (rfind a p)
    | None => sepIndex
    end in
  let dotIndex := rfind extsep p in
  if (sepIndex <? dotIndex)
     && existsb (fun c => negb (Ascii.eqb c extsep))
          (slice p (Z.to_nat (sepIndex + 1)) (Z.to_nat dotIndex))
  then (firstn (Z.to_nat dotIndex) p, skipn (Z.to_nat dotIndex) p)
  else (p, []).

(** [os.path.splitext] of [posixpath]. *)
Definition splitext (p : str) : str * str := _splitext p "/" None ".".

Section UniqueFileName.

(** [os.path.exists], the state of the file system during the call. *)
Variable path_exists : str -> bool.

(** The candidate built for a counter: [f"{base_name} ({counter}){extension}"]. *)
Definition numbered (base_name extension : str) (counter : Z) : str :=
  base_name ++ lit " (" ++ py_str counter ++ lit ")" ++ extension.

(** The [while] loop; [None] when the fuel runs out before it ends. *)
Fixpoint unique_loop (fuel : nat) (base_name extension unique_path : str)
  (counter : Z) : option str :=
  match fuel with
  | O => None
  | S fuel' =>
      if path_exists unique_path then
        unique_loop fuel' base_name extension
          (numbered base_name extension counter) (counter + 1)
      else Some unique_path
  end.

Definition get_unique_file_name (fuel : nat) (file_path : str) : option str :=
  let '(base_name, extension) := splitext file_path in
  let unique_path := file_path in
  let counter := 1 in
  unique_loop fuel base_name extension unique_path counter.

End UniqueFileName.

(** ** file_utils.py: the text-block parser *)

Definition newline : str := ["010"%char].

Record SongMetadata : Type := {
  song_name : str;
  artist_name : str;
  artist_link : str;
  licenses : list str
}.

Definition parse_text_block_into_song (text : str) : result SongMetadata :=
  let lines := split newline (strip text) in
  line0 <- index_list lines 0 ;;
  let song_info := split (lit " by ") line0 in
  name <- index_list song_info 0 ;;
  let song_name := strip name in
  info <- index_list song_info 1 ;;
  let artist_info := split (lit " | ") info in
  artist <- index_list artist_info 0 ;;
  link <- index_list artist_info 1 ;;
  let licenses := map strip (slice lines 1 4) in
  Ok {| song_name := song_name;
        artist_name := strip artist;
        artist_link := strip link;
        licenses := licenses |}.

(** ** Vocabulary of the statements *)

(** [sep] occurs in [s]. *)
Definition occurs (sep s : str) : Prop :=
  exists a b, s = a ++ sep ++ b.

(** [a] is the text before the first occurrence of [sep] in [s] and [b] the
    text after it. *)
Definition first_cut (sep s a b : str) : Prop :=
  s = a ++ sep ++ b /\
  forall a' b', s = a' ++ sep ++ b' -> (length a <= length a')%nat.

(** [p] is the text of [s] up to its first [sep], all of [s] when [sep] does
    not occur. *)
Definition head_piece (sep s p : str) : Prop :=
  (~ occurs sep s /\ p = s) \/ (exists b, first_cut sep s p b).

(** [p] is the text between the first occurrence of [sep] in [s] and the
    next one (or the end of [s]). *)
Definition second_piece (sep s p : str) : Prop :=
  exists a rest, first_cut sep s a rest /\ head_piece sep rest p.

Definition all_space (w : str) : Prop := Forall (fun c => isspace c = true) w.

Definition all_digits (w : str) : Prop := Forall (fun c => is_digit c = true) w.

(** The header of a block: line 0 of the trimmed block. *)
Definition header (text : str) : str := hd [] (split newline (strip text)).

(** A block given by its lines, each ended by a line break. *)
Definition block (lines : list string) : str :=
  concat (map (fun l => lit l ++ newline) lines).

(** A file system holding exactly the listed paths. *)
Definition holds (paths : list string) (p : str) : bool :=
  existsb (fun x => str_eqb (lit x) p) paths.

(** A number of quanta with at most 53 significant bits, whose lowest set
    bit is at position [u] or above. *)
Definition representable_from (u N : Z) : Prop :=
  exists m v, N = m * 2 ^ v /\ u <= v /\ 0 <= v /\ Z.abs m < 2 ^ 53.

(** A number of quanta that a binary64 can hold. *)
Definition representable (N : Z) : Prop := representable_from 0 N.

(** The number a digit string denotes, read after the prefix value [acc]. *)
Definition digits_value (acc : Z) (l : str) : Z :=
  fold_left (fun a c => a * 10 + digit_val c) l acc.

(** The least [int] whose quotient by 1024 rounds to [2^1024], which no
    float holds. *)
Definition size_limit : Z := 2 ^ 1034 - 2 ^ 980.

(** The least [int] with more than [max_str_digits] decimal digits. *)
Definition digit_limit : Z := 10 ^ Z.of_nat max_str_digits.

(** The least number of seconds whose hours have more than [max_str_digits]
    digits. *)
Definition duration_limit : Z := 3600 * digit_limit.

(** Only finitely many paths exist. *)
Definition finitely_many (path_exists : str -> bool) : Prop :=
  exists l : list str, forall p, path_exists p = true -> In p l.

(** The header parsed the way the specification words it: split once on
    the first [" by "], then split the remainder once on the first
    [" | "]. *)
Definition parse_song_block_once (text : str) : result SongMetadata :=
  let lines := split newline (strip text) in
  match cut (lit " by ") (header text) with
  | None => Raise IndexError
  | Some (song, remainder) =>
      match cut (lit " | ") remainder with
      | None => Raise IndexError
      | Some (artist, link) =>
          Ok {| song_name := strip song;
                artist_name := strip artist;
                artist_link := strip link;
                licenses := map strip (slice lines 1 4) |}
      end
  end.

(** Base and extension the way the specification words them: split at the
    last ['.'] of the file name (the text after the last ['/']). *)
Definition split_at_last_dot (p : str) : str * str :=
  let dotIndex := rfind "." p in
  if rfind "/" p <? dotIndex
  then (firstn (Z.to_nat dotIndex) p, skipn (Z.to_nat dotIndex) p)
  else (p, []).

(** ** file_utils.py: audio files, text blocks *)

(** [s.endswith(suffix)] *)
Definition endswith (s suffix : str) : bool := startswith (rev suffix) (rev s).

(** [s.endswith((a, b, ...))] *)
Definition endswith_any (s : str) (suffixes : list str) : bool :=
  existsb (endswith s) suffixes.

(** [get_audio_files], on the listing that [os.listdir(directory)] returns. *)
Definition get_audio_files (listing : list str) : list str :=
  filter (fun f => endswith_any f [lit ".mp3"; lit ".wav"]) listing.

(** The population of [select_random_files], on the same listing. *)
Definition select_random_files_population (listing : list str) : list str :=
  filter (fun f => endswith f (lit ".mp3") || endswith f (lit ".wav")) listing.

Definition blank_line : str := newline ++ newline.

(** [read_text_blocks], on the text that [file.read()] returns. *)
Definition read_text_blocks (content : str) : list str :=
  let text_blocks := split blank_line content in
  text_blocks.

(** [write_first_lines_to_file]: the text written to the output file, which
    is opened for writing, so holds nothing else. *)
Fixpoint write_first_lines_to_file (text_blocks : list str) : str :=
  match text_blocks with
  | [] => []
  | text_block :: rest =>
      let lines := split newline text_block in
      let first_line := strip (hd [] lines) in
      match first_line with
      | [] => write_first_lines_to_file rest
      | _ => (first_line ++ newline) ++ write_first_lines_to_file rest
      end
  end.

(** ** frames/song_library.py: the fields [process_data] computes *)

(** [filename = song_name + ".mp3"] *)
Definition process_data_filename (song_name : str) : str :=
  song_name ++ lit ".mp3".

(** [file_size = f"{audio_info[0] / (1024 * 1024):.2f} MB"], for the total
    size in bytes [audio_info[0]], an [int]. *)
Definition process_data_file_size (total_size : Z) : result str :=
  x <- int_truediv total_size (1024 * 1024) ;;
  Ok (format_2f x ++ lit " MB").

(** ** More vocabulary *)

(** [sep.join(pieces)] *)
Fixpoint join (sep : str) (pieces : list str) : str :=
  match pieces with
  | [] => []
  | [p] => p
  | p :: rest => p ++ sep ++ join sep rest
  end.

(** A text with no whitespace at either end. *)
Definition trimmed (s : str) : Prop := strip s = s.

(** The sign of a rendered number. *)
Definition sign_text (b : Z) : str := if b <? 0 then lit "-" else [].

(** A number of hundredths written with two decimal digits. *)
Definition hundredths_text (h : Z) : str :=
  digits (h / 100) ++ lit "." ++ zfill 2 (digits (h mod 100)).

(** * Proofs *)

(** Closed facts are settled by evaluating the embedding. *)
Ltac by_evaluation :=
  repeat apply conj;
  ((vm_compute; reflexivity) || (vm_compute; discriminate)).

(** * Facts about the string primitives *)

Lemma startswith_app (p s : str) :
  startswith p s = true <-> exists b, s = p ++ b.
Proof.
  revert s; induction p as [|a p IH]; intros s; simpl.
  - split; eauto.
  - destruct s as [|c s]; [split; [discriminate | intros [b Hb]; discriminate]|].
    rewrite andb_true_iff, Ascii.eqb_eq, IH. split.
    + intros [-> [b ->]]. now exists b.
    + intros [b Hb]. injection Hb as -> ->. eauto.
Qed.

Lemma skipn_length_app {A : Type} (p b : list A) : skipn (length p) (p ++ b) = b.
Proof. induction p; simpl; auto. Qed.

Lemma startswith_skipn (p s : str) :
  startswith p s = true -> s = p ++ skipn (length p) s.
Proof.
  intros H. apply startswith_app in H as [b ->].
  now rewrite skipn_length_app.
Qed.

Lemma startswith_first_cut (sep s : str) :
  startswith sep s = true -> first_cut sep s [] (skipn (length sep) s).
Proof.
  intros H. split; [now apply startswith_skipn | intros; simpl; lia].
Qed.

Lemma cut_sound (sep s a b : str) :
  cut sep s = Some (a, b) -> first_cut sep s a b.
Proof.
  revert a b; induction s as [|c t IH]; intros a b; simpl.
  - destruct (startswith sep []) eqn:E; [|discriminate].
    intros [= <- <-]. now apply startswith_first_cut.
  - destruct (startswith sep (c :: t)) eqn:E.
    + intros [= <- <-]. now apply startswith_first_cut.
    + destruct (cut sep t) as [[a0 b0]|] eqn:C; [|discriminate].
      intros [= <- <-]. destruct (IH _ _ eq_refl) as [Ht Hmin].
      split; [simpl; now f_equal|].
      intros a' b' H'. destruct a' as [|c' a'].
      * simpl in H'. assert (startswith sep (c :: t) = true)
          by (apply startswith_app; eauto). congruence.
      * simpl in H'. injection H' as _ H'. simpl.
        specialize (Hmin _ _ H'). lia.
Qed.

Lemma cut_eq (sep s : str) :
  cut sep s =
  if startswith sep s then Some ([], skipn (length sep) s)
  else match s with
       | [] => None
       | c :: t =>
           match cut sep t with
           | Some (a, b) => Some (c :: a, b)
           | None => None
           end
       end.
Proof. destruct s; reflexivity. Qed.

Lemma cut_complete (sep s : str) :
  occurs sep s -> exists a b, cut sep s = Some (a, b).
Proof.
  intros (a & b & ->). induction a as [|c a IH]; rewrite cut_eq.
  - assert (E : startswith sep ([] ++ sep ++ b) = true).
    { apply startswith_app. exists b. reflexivity. }
    rewrite E. eauto.
  - destruct (startswith sep _); [eauto|].
    simpl. destruct IH as (a0 & b0 & ->). eauto.
Qed.

Lemma cut_none (sep s : str) : cut sep s = None <-> ~ occurs sep s.
Proof.
  split.
  - intros H Ho. apply cut_complete in Ho as (a & b & E). congruence.
  - intros H. destruct (cut sep s) as [[a b]|] eqn:E; [|reflexivity].
    exfalso. apply H. apply cut_sound in E as [E _]. now exists a, b.
Qed.

Lemma app_eq_length {A : Type} (a a' b b' : list A) :
  a ++ b = a' ++ b' -> length a = length a' -> a = a' /\ b = b'.
Proof.
  revert a'; induction a as [|x a IH]; intros [|x' a']; simpl; try discriminate; auto.
  intros [= -> H] [= L]. destruct (IH _ H L) as [-> ->]. auto.
Qed.

Lemma first_cut_unique (sep s a b a' b' : str) :
  first_cut sep s a b -> first_cut sep s a' b' -> a = a' /\ b = b'.
Proof.
  intros [E1 M1] [E2 M2].
  assert (L : length a = length a') by (specialize (M1 _ _ E2); specialize (M2 _ _ E1); lia).
  rewrite E1 in E2. destruct (app_eq_length _ _ _ _ E2 L) as [-> E3].
  apply app_inv_head in E3. auto.
Qed.

Lemma cut_iff (sep s a b : str) :
  cut sep s = Some (a, b) <-> first_cut sep s a b.
Proof.
  split; [apply cut_sound|].
  intros H. destruct (cut_complete sep s) as (a0 & b0 & E).
  - destruct H as [-> _]. now exists a, b.
  - apply cut_sound in E as H0.
    destruct (first_cut_unique _ _ _ _ _ _ H H0) as [-> ->]. exact E.
Qed.

(** *** Splitting on a non-empty separator *)

Section Split.

Variable sep : str.
Hypothesis sep_nonempty : sep <> [].

Lemma first_cut_shorter (s a b : str) :
  first_cut sep s a b -> (length b < length s)%nat.
Proof.
  intros [-> _]. rewrite !length_app. destruct sep; [congruence|simpl; lia].
Qed.

Lemma split_fuel_enough (f g : nat) (s : str) :
  (length s < f)%nat -> (length s < g)%nat ->
  split_fuel f sep s = split_fuel g sep s.
Proof.
  revert g s. induction f as [|f IH]; intros g s Lf Lg; [lia|].
  destruct g as [|g]; [lia|].
  simpl. destruct (cut sep s) as [[a b]|] eqn:C; [|reflexivity].
  apply cut_sound, first_cut_shorter in C.
  f_equal. apply IH; lia.
Qed.

Lemma split_fuel_S (f : nat) (s : str) :
  split_fuel (S f) sep s =
  match cut sep s with
  | None => [s]
  | Some (a, b) => a :: split_fuel f sep b
  end.
Proof. reflexivity. Qed.

(** The fuel of [split] is enough: one piece, then the split of the rest. *)
Lemma split_eq (s : str) :
  split sep s =
  match cut sep s with
  | None => [s]
  | Some (a, b) => a :: split sep b
  end.
Proof.
  unfold split. rewrite split_fuel_S.
  destruct (cut sep s) as [[a b]|] eqn:C; [|reflexivity].
  apply cut_sound, first_cut_shorter in C.
  f_equal. apply split_fuel_enough; lia.
Qed.

Lemma split_cut (s a b : str) :
  first_cut sep s a b -> split sep s = a :: split sep b.
Proof. intros H. apply cut_iff in H. now rewrite split_eq, H. Qed.

Lemma split_none (s : str) : ~ occurs sep s -> split sep s = [s].
Proof. intros H. apply cut_none in H. now rewrite split_eq, H. Qed.

Lemma split_head (s : str) :
  exists p rest, split sep s = p :: rest /\ head_piece sep s p.
Proof.
  rewrite split_eq.
  destruct (cut sep s) as [[a b]|] eqn:C.
  - exists a, (split sep b). split; [reflexivity|]. right. exists b. now apply cut_iff.
  - exists s, []. split; [reflexivity|]. left. split; [now apply cut_none | reflexivity].
Qed.

Lemma head_piece_unique (s p q : str) :
  head_piece sep s p -> head_piece sep s q -> p = q.
Proof.
  intros [[N ->]|[b H]] [[N' ->]|[b' H']]; auto.
  - exfalso. apply N. destruct H' as [-> _]. now exists q, b'.
  - exfalso. apply N'. destruct H as [-> _]. now exists p, b.
  - now destruct (first_cut_unique _ _ _ _ _ _ H H').
Qed.

(** The second element of [split sep s] exists exactly when [sep] occurs,
    and is the text up to the next occurrence. *)
Lemma split_second (s p : str) :
  nth_error (split sep s) 1 = Some p <-> second_piece sep s p.
Proof.
  rewrite split_eq. split.
  - destruct (cut sep s) as [[a b]|] eqn:C; [|discriminate].
    simpl. destruct (split_head b) as (q & rest & -> & Hq).
    intros [= <-]. exists a, b. split; [now apply cut_iff | assumption].
  - intros (a & rest & Hc & Hp). apply cut_iff in Hc. rewrite Hc. simpl.
    destruct (split_head rest) as (q & r & -> & Hq). simpl.
    f_equal. eapply head_piece_unique; eauto.
Qed.

Lemma split_second_none (s : str) :
  nth_error (split sep s) 1 = None <-> ~ occurs sep s.
Proof.
  rewrite split_eq. rewrite <- cut_none.
  destruct (cut sep s) as [[a b]|] eqn:C.
  - simpl. destruct (split_head b) as (q & rest & -> & Hq).
    split; discriminate.
  - split; reflexivity.
Qed.

(** [split] never returns an empty list: element 0 is always there. *)
Lemma index_list_0 (s : str) :
  index_list (split sep s) 0 = Ok (hd [] (split sep s)).
Proof. now destruct (split_head s) as (p & rest & -> & _). Qed.

End Split.

(** ** Trimming *)

Lemma lstrip_decomp (s : str) : exists l, s = l ++ lstrip s /\ all_space l.
Proof.
  induction s as [|c t (l & E & A)]; simpl.
  - exists []. split; [reflexivity | constructor].
  - destruct (isspace c) eqn:W.
    + exists (c :: l). split; [simpl; now f_equal | now constructor].
    + exists []. split; [reflexivity | constructor].
Qed.

Lemma all_space_rev (w : str) : all_space w -> all_space (rev w).
Proof. apply Forall_rev. Qed.

Lemma rstrip_decomp (s : str) : exists r, s = rstrip s ++ r /\ all_space r.
Proof.
  destruct (lstrip_decomp (rev s)) as (l & E & A).
  exists (rev l). split; [|now apply all_space_rev].
  unfold rstrip. rewrite <- rev_app_distr, <- E. now rewrite rev_involutive.
Qed.

Lemma strip_decomp (s : str) :
  exists l r, s = l ++ strip s ++ r /\ all_space l /\ all_space r.
Proof.
  destruct (lstrip_decomp s) as (l & E & A).
  destruct (rstrip_decomp (lstrip s)) as (r & E' & A').
  exists l, r. unfold strip. rewrite <- E'. auto.
Qed.

Lemma lstrip_space_app (w y : str) : all_space w -> lstrip (w ++ y) = lstrip y.
Proof. induction 1 as [|c w Hc _ IH]; simpl; [reflexivity | now rewrite Hc]. Qed.

Lemma lstrip_all_space (w : str) : all_space w -> lstrip w = [].
Proof. intros H. rewrite <- (app_nil_r w). now rewrite lstrip_space_app. Qed.

Lemma lstrip_app (s w : str) :
  lstrip (s ++ w) = match lstrip s with [] => lstrip w | _ => lstrip s ++ w end.
Proof.
  induction s as [|c t IH]; simpl; [reflexivity|].
  destruct (isspace c); [exact IH | reflexivity].
Qed.

Lemma rstrip_app_space (s w : str) : all_space w -> rstrip (s ++ w) = rstrip s.
Proof.
  intros H. unfold rstrip. rewrite rev_app_distr.
  now rewrite lstrip_space_app by now apply all_space_rev.
Qed.

(** Whitespace appended to a text is trimmed away. *)
Lemma strip_app_space (s w : str) : all_space w -> strip (s ++ w) = strip s.
Proof.
  intros H. unfold strip. rewrite lstrip_app.
  destruct (lstrip s) eqn:E.
  - now rewrite (lstrip_all_space w H).
  - now apply rstrip_app_space.
Qed.

Lemma lstrip_head (c : ascii) (t : str) : isspace c = false -> lstrip (c :: t) = c :: t.
Proof. intros H. simpl. now rewrite H. Qed.

Lemma rstrip_last (t : str) (c : ascii) : isspace c = false -> rstrip (t ++ [c]) = t ++ [c].
Proof.
  intros H. unfold rstrip. rewrite rev_app_distr. simpl. rewrite H.
  simpl. now rewrite rev_involutive.
Qed.

(** A text that neither starts nor ends with whitespace is its own trim. *)
Lemma strip_id (s : str) :
  Forall (fun c => isspace c = false) s -> strip s = s.
Proof.
  intros H. unfold strip. destruct s as [|c t]; [reflexivity|].
  inversion H as [|? ? Hc Ht]; subst. rewrite (lstrip_head _ _ Hc).
  destruct (exists_last (l := c :: t)) as (t' & c' & E); [discriminate|].
  rewrite E. apply rstrip_last.
  rewrite E in H. apply Forall_app in H as [_ H]. now inversion H.
Qed.

(** *** The whitespace around a numeric literal *)

Lemma literal_space_isspace (c : ascii) : literal_space c = true -> isspace c = true.
Proof.
  unfold literal_space, isspace. cbv zeta.
  rewrite !orb_true_iff, !andb_true_iff, !N.leb_le, !N.eqb_eq. lia.
Qed.

Lemma not_space_not_literal_space (c : ascii) :
  isspace c = false -> literal_space c = false.
Proof.
  intros H. destruct (literal_space c) eqn:E; [|reflexivity].
  apply literal_space_isspace in E. congruence.
Qed.

Lemma literal_lstrip_decomp (s : str) :
  exists l, s = l ++ literal_lstrip s /\ all_space l.
Proof.
  induction s as [|c t (l & E & A)]; simpl.
  - exists []. split; [reflexivity | constructor].
  - destruct (literal_space c) eqn:W.
    + exists (c :: l). split; [simpl; now f_equal|].
      constructor; [now apply literal_space_isspace | assumption].
    + exists []. split; [reflexivity | constructor].
Qed.

(** What [int] and [float] skip around a literal is whitespace. *)
Lemma literal_strip_decomp (s : str) :
  exists l r, s = l ++ literal_strip s ++ r /\ all_space l /\ all_space r.
Proof.
  destruct (literal_lstrip_decomp s) as (l & E & A).
  destruct (literal_lstrip_decomp (rev (literal_lstrip s))) as (r & E' & A').
  exists l, (rev r). split; [|split; [assumption | now apply all_space_rev]].
  unfold literal_strip. rewrite <- rev_app_distr, <- E'.
  now rewrite rev_involutive.
Qed.

(** A text that neither starts nor ends with whitespace is read as it is. *)
Lemma literal_strip_id (s : str) :
  Forall (fun c => isspace c = false) s -> literal_strip s = s.
Proof.
  intros H. unfold literal_strip. destruct s as [|c t]; [reflexivity|].
  inversion H as [|? ? Hc Ht]; subst.
  assert (L : literal_lstrip (c :: t) = c :: t)
    by (simpl; now rewrite (not_space_not_literal_space _ Hc)).
  rewrite L.
  destruct (exists_last (l := c :: t)) as (t' & c' & E); [discriminate|].
  rewrite E in *. apply Forall_app in H as [_ H]. inversion H as [|? ? Hc' _]; subst.
  rewrite rev_app_distr. simpl.
  rewrite (not_space_not_literal_space _ Hc'). simpl. now rewrite rev_involutive.
Qed.

(** ** Decimal digits *)

Lemma is_digit_digit_char (d : Z) : 0 <= d < 10 -> is_digit (digit_char d) = true.
Proof.
  intros H. assert (C : d = 0 \/ d = 1 \/ d = 2 \/ d = 3 \/ d = 4 \/ d = 5 \/ d = 6
                        \/ d = 7 \/ d = 8 \/ d = 9) by lia.
  repeat (destruct C as [->|C]; [reflexivity|]). now subst.
Qed.

Lemma digit_val_digit_char (d : Z) : 0 <= d < 10 -> digit_val (digit_char d) = d.
Proof.
  intros H. assert (C : d = 0 \/ d = 1 \/ d = 2 \/ d = 3 \/ d = 4 \/ d = 5 \/ d = 6
                        \/ d = 7 \/ d = 8 \/ d = 9) by lia.
  repeat (destruct C as [->|C]; [reflexivity|]). now subst.
Qed.

Lemma is_digit_not_space (c : ascii) : is_digit c = true -> isspace c = false.
Proof.
  unfold is_digit, isspace. intros H.
  apply andb_true_iff in H as [H1 H2].
  apply N.leb_le in H1, H2.
  repeat rewrite orb_false_iff. repeat rewrite andb_false_iff.
  rewrite !N.leb_gt, !N.eqb_neq. lia.
Qed.

Lemma digits_fuel_app (f : nat) (n : Z) (acc : str) :
  digits_fuel f n acc = digits_fuel f n [] ++ acc.
Proof.
  revert n acc. induction f as [|f IH]; intros n acc; simpl; [reflexivity|].
  destruct (n <? 10); [reflexivity|].
  rewrite IH, (IH _ [_]). now rewrite <- app_assoc.
Qed.

Lemma digits_fuel_snoc (f : nat) (n : Z) :
  digits_fuel (S f) n [] =
  if n <? 10 then [digit_char (n mod 10)]
  else digits_fuel f (n / 10) [] ++ [digit_char (n mod 10)].
Proof. simpl. destruct (n <? 10); [reflexivity | apply digits_fuel_app]. Qed.

Lemma digits_fuel_all_digits (f : nat) (n : Z) : all_digits (digits_fuel f n []).
Proof.
  revert n. induction f as [|f IH]; intros n; [constructor|].
  rewrite digits_fuel_snoc.
  assert (D : is_digit (digit_char (n mod 10)) = true)
    by (apply is_digit_digit_char, Z.mod_pos_bound; lia).
  destruct (n <? 10).
  - now constructor.
  - apply Forall_app. split; [apply IH | now constructor].
Qed.

Lemma digits_fuel_nonempty (f : nat) (n : Z) : digits_fuel (S f) n [] <> [].
Proof.
  rewrite digits_fuel_snoc. destruct (n <? 10); [discriminate|].
  intros H. apply app_eq_nil in H as [_ H]. discriminate.
Qed.

Lemma digits_fuel_value (f : nat) (n : Z) :
  0 <= n < 10 ^ Z.of_nat f -> digits_value 0 (digits_fuel f n []) = n.
Proof.
  revert n. induction f as [|f IH]; intros n H.
  - simpl in *. lia.
  - rewrite digits_fuel_snoc. destruct (n <? 10) eqn:E.
    + apply Z.ltb_lt in E. unfold digits_value. simpl.
      rewrite Z.mod_small by lia. apply digit_val_digit_char. lia.
    + unfold digits_value in *. rewrite fold_left_app. simpl.
      rewrite IH.
      * rewrite digit_val_digit_char by (apply Z.mod_pos_bound; lia).
        pose proof (Z.div_mod n 10). lia.
      * rewrite Nat2Z.inj_succ, Z.pow_succ_r in H by lia.
        split; [apply Z.div_pos; lia|].
        apply Z.div_lt_upper_bound; lia.
Qed.

Lemma log2_fuel (n : Z) : 0 <= n -> n < 10 ^ Z.of_nat (S (Z.to_nat (Z.log2 n))).
Proof.
  intros H. rewrite Nat2Z.inj_succ, Z2Nat.id by apply Z.log2_nonneg.
  destruct (Z.eq_dec n 0) as [->|N]; [reflexivity|].
  assert (L := Z.log2_spec n ltac:(lia)).
  assert (P := Z.log2_nonneg n).
  assert (2 ^ Z.succ (Z.log2 n) <= 10 ^ Z.succ (Z.log2 n))
    by (apply Z.pow_le_mono_l; lia).
  lia.
Qed.

Lemma digits_all_digits (n : Z) : all_digits (digits n).
Proof. apply digits_fuel_all_digits. Qed.

Lemma digits_nonempty (n : Z) : digits n <> [].
Proof. apply digits_fuel_nonempty. Qed.

Lemma digits_value_digits (n : Z) : 0 <= n -> digits_value 0 (digits n) = n.
Proof. intros H. apply digits_fuel_value. split; [lia | now apply log2_fuel]. Qed.

Lemma parse_all_digits (l : str) (acc : Z) (prev : bool) :
  all_digits l -> l <> [] \/ prev = true ->
  parse_digits acc prev l = Some (digits_value acc l).
Proof.
  intros H. revert acc prev. induction H as [|c l Hc _ IH]; intros acc prev N; simpl.
  - destruct N as [N| ->]; [congruence | reflexivity].
  - rewrite Hc. apply IH. now right.
Qed.

Lemma digits_value_zeros (k : nat) (l : str) :
  digits_value 0 (repeat "0"%char k ++ l) = digits_value 0 l.
Proof. induction k as [|k IH]; [reflexivity | exact IH]. Qed.

Lemma all_digits_zfill (w : nat) (l : str) : all_digits l -> all_digits (zfill w l).
Proof.
  intros H. apply Forall_app. split; [|assumption].
  apply Forall_forall. intros c Hc. apply repeat_spec in Hc. now subst.
Qed.

Lemma all_digits_no_space (l : str) :
  all_digits l -> Forall (fun c => isspace c = false) l.
Proof. apply Forall_impl. apply is_digit_not_space. Qed.

Lemma signed_digit (l : str) : all_digits l -> signed l = (false, l).
Proof.
  intros [|c t Hc _]; [reflexivity|].
  destruct c as [[] [] [] [] [] [] [] []]; try reflexivity; discriminate.
Qed.

Lemma filter_all_digits (l : str) : all_digits l -> filter is_digit l = l.
Proof. induction 1 as [|c l Hc _ IH]; [reflexivity|]. simpl. now rewrite Hc, IH. Qed.

(** [int] reads back a zero-padded rendering of a natural number, within
    the digit limit. *)
Lemma py_int_zfill (w : nat) (n : Z) :
  0 <= n -> (length (zfill w (digits n)) <= max_str_digits)%nat ->
  py_int (zfill w (digits n)) = Ok n.
Proof.
  intros H Hlen. unfold py_int.
  assert (A : all_digits (zfill w (digits n))) by apply all_digits_zfill, digits_all_digits.
  rewrite literal_strip_id by now apply all_digits_no_space.
  assert (NE : zfill w (digits n) <> []).
  { unfold zfill. intros E. apply app_eq_nil in E as [_ E]. now apply digits_nonempty in E. }
  rewrite signed_digit by assumption.
  rewrite parse_all_digits by auto.
  rewrite filter_all_digits by assumption.
  replace (max_str_digits <? length (zfill w (digits n)))%nat with false
    by (symmetry; apply Nat.ltb_ge; lia).
  unfold zfill. now rewrite digits_value_zeros, digits_value_digits.
Qed.

(** *** The number of digits *)

Lemma digits_fuel_length (f k : nat) (n : Z) :
  0 <= n < 10 ^ Z.of_nat (S k) -> (length (digits_fuel f n []) <= S k)%nat.
Proof.
  revert k n. induction f as [|f IH]; intros k n H; [simpl; lia|].
  rewrite digits_fuel_snoc. destruct (n <? 10) eqn:E; [simpl; lia|].
  apply Z.ltb_ge in E. rewrite length_app. simpl.
  destruct k as [|k]; [change (10 ^ Z.of_nat 1) with 10 in H; lia|].
  specialize (IH k (n / 10)).
  rewrite (Nat2Z.inj_succ (S k)), Z.pow_succ_r in H by lia.
  assert (0 <= n / 10 < 10 ^ Z.of_nat (S k)).
  { split; [apply Z.div_pos; lia | apply Z.div_lt_upper_bound; lia]. }
  specialize (IH ltac:(assumption)). lia.
Qed.

(** A number below [10^k] has at most [k] digits. *)
Lemma digits_length_le (n : Z) (k : nat) :
  (1 <= k)%nat -> 0 <= n < 10 ^ Z.of_nat k -> (length (digits n) <= k)%nat.
Proof.
  intros Hk H. destruct k as [|k]; [lia|]. now apply digits_fuel_length.
Qed.

Lemma digit_val_bound (c : ascii) : is_digit c = true -> 0 <= digit_val c <= 9.
Proof.
  unfold is_digit, digit_val. cbv zeta.
  rewrite andb_true_iff, !N.leb_le. lia.
Qed.

Lemma digits_value_bound (l : str) :
  all_digits l -> forall acc : Z,
  digits_value acc l < (acc + 1) * 10 ^ Z.of_nat (length l).
Proof.
  unfold digits_value.
  induction 1 as [|c l Hc _ IH]; intros acc; [simpl; lia|].
  cbn [fold_left length]. rewrite Nat2Z.inj_succ, Z.pow_succ_r by lia.
  specialize (IH (acc * 10 + digit_val c)).
  pose proof (digit_val_bound c Hc).
  assert (0 < 10 ^ Z.of_nat (length l)) by (apply Z.pow_pos_nonneg; lia).
  nia.
Qed.

(** A number from [10^k] on has more than [k] digits. *)
Lemma digits_length_gt (n : Z) (k : nat) :
  10 ^ Z.of_nat k <= n -> (k < length (digits n))%nat.
Proof.
  intros H.
  assert (P : 0 < 10 ^ Z.of_nat k) by (apply Z.pow_pos_nonneg; lia).
  pose proof (digits_value_bound _ (digits_all_digits n) 0) as B.
  rewrite digits_value_digits in B by lia.
  destruct (Nat.lt_ge_cases k (length (digits n))) as [|L]; [assumption|].
  assert (10 ^ Z.of_nat (length (digits n)) <= 10 ^ Z.of_nat k)
    by (apply Z.pow_le_mono_r; lia).
  lia.
Qed.

Lemma max_str_digits_Z : Z.of_nat max_str_digits = 4300.
Proof. reflexivity. Qed.

Lemma digit_limit_100 : 100 <= digit_limit.
Proof.
  unfold digit_limit. rewrite max_str_digits_Z.
  change 100 with (10 ^ 2). apply Z.pow_le_mono_r; lia.
Qed.

Lemma exceeds_small (n : Z) :
  Z.abs n < digit_limit -> exceeds_max_str_digits n = false.
Proof.
  intros H. unfold exceeds_max_str_digits. apply Nat.ltb_ge.
  apply digits_length_le; [unfold max_str_digits; lia|].
  split; [lia | exact H].
Qed.

Lemma exceeds_large (n : Z) :
  digit_limit <= Z.abs n -> exceeds_max_str_digits n = true.
Proof.
  intros H. unfold exceeds_max_str_digits. apply Nat.ltb_lt.
  now apply digits_length_gt.
Qed.

Lemma format_02_small (n : Z) : Z.abs n < digit_limit -> format_02 n = Ok (pad_02 n).
Proof. intros H. unfold format_02. now rewrite exceeds_small. Qed.

Lemma format_02_large (n : Z) : digit_limit <= Z.abs n -> format_02 n = Raise ValueError.
Proof. intros H. unfold format_02. now rewrite exceeds_large. Qed.

(** ** Splitting on one character *)

Lemma first_cut_char (c : ascii) (a b : str) :
  ~ In c a -> first_cut [c] (a ++ [c] ++ b) a b.
Proof.
  intros N. split; [reflexivity|].
  induction a as [|x a IH]; intros a' b' E; simpl; [lia|].
  destruct a' as [|x' a']; simpl in E.
  - injection E as -> _. exfalso. apply N. now left.
  - injection E as _ E. simpl. apply IH in E; [lia|].
    intros H. apply N. now right.
Qed.

Lemma not_occurs_char (c : ascii) (s : str) : ~ In c s -> ~ occurs [c] s.
Proof.
  intros N (a & b & ->). apply N, in_or_app. right. now left.
Qed.

Lemma split_three (c : ascii) (x y z : str) :
  ~ In c x -> ~ In c y -> ~ In c z ->
  split [c] (x ++ [c] ++ y ++ [c] ++ z) = [x; y; z].
Proof.
  intros Hx Hy Hz. assert (Hc : [c] <> []) by discriminate.
  rewrite (split_cut [c] Hc _ x (y ++ [c] ++ z)) by now apply first_cut_char.
  rewrite (split_cut [c] Hc _ y z) by now apply first_cut_char.
  now rewrite (split_none [c] Hc) by now apply not_occurs_char.
Qed.

(** ** Characters of integer literals *)

Lemma all_space_no_colon (l : str) : all_space l -> ~ In ":"%char l.
Proof.
  intros H Hin. eapply Forall_forall in H; [|exact Hin]. discriminate.
Qed.

Lemma parse_digits_no_colon (l : str) (acc : Z) (prev : bool) (n : Z) :
  parse_digits acc prev l = Some n -> ~ In ":"%char l.
Proof.
  revert acc prev. induction l as [|c t IH]; intros acc prev; simpl; [auto|].
  destruct (is_digit c) eqn:D.
  - intros H [->|Hin]; [discriminate|]. eapply IH; eauto.
  - destruct (Ascii.eqb c "_") eqn:U; [|discriminate].
    destruct prev; [|discriminate]. simpl.
    apply Ascii.eqb_eq in U. subst c.
    intros H [E|Hin]; [discriminate|]. eapply IH; eauto.
Qed.

Lemma signed_no_colon (l : str) :
  ~ In ":"%char (snd (signed l)) -> ~ In ":"%char l.
Proof.
  destruct l as [|c t]; [auto|].
  destruct c as [[] [] [] [] [] [] [] []]; simpl; auto;
    intros N [E|H]; auto; discriminate.
Qed.

(** A literal accepted by [int] holds no colon. *)
Lemma py_int_no_colon (s : str) (z : Z) : py_int s = Ok z -> ~ In ":"%char s.
Proof.
  unfold py_int. destruct (signed (literal_strip s)) as [neg body] eqn:E.
  destruct (parse_digits 0 false body) as [n|] eqn:P; [|discriminate].
  intros _. apply parse_digits_no_colon in P.
  assert (N : ~ In ":"%char (literal_strip s)).
  { apply signed_no_colon. now rewrite E. }
  destruct (literal_strip_decomp s) as (l & r & Es & Al & Ar).
  rewrite Es. intros H. apply in_app_or in H as [H|H].
  - now apply all_space_no_colon in Al.
  - apply in_app_or in H as [H|H]; [auto|]. now apply all_space_no_colon in Ar.
Qed.

(** ** Field widths *)

Lemma pad_02_nonneg (n : Z) : 0 <= n -> pad_02 n = zfill 2 (py_str n).
Proof.
  intros H. unfold pad_02, py_str.
  now replace (n <? 0) with false by (symmetry; apply Z.ltb_ge; lia).
Qed.

Lemma digits_lt10 (n : Z) : 0 <= n < 10 -> digits n = [digit_char n].
Proof.
  intros H. unfold digits. rewrite digits_fuel_snoc.
  replace (n <? 10) with true by (symmetry; apply Z.ltb_lt; lia).
  now rewrite Z.mod_small by lia.
Qed.

Lemma log2_ge (n k : Z) : 0 <= k -> 2 ^ k <= n -> (Z.to_nat k <= Z.to_nat (Z.log2 n))%nat.
Proof.
  intros Hk H. apply Z2Nat.inj_le; [lia | apply Z.log2_nonneg|].
  rewrite <- (Z.log2_pow2 k Hk). apply Z.log2_le_mono. lia.
Qed.

Lemma digits_lt100 (n : Z) :
  10 <= n < 100 -> digits n = [digit_char (n / 10); digit_char (n mod 10)].
Proof.
  intros H. unfold digits.
  assert (L : (Z.to_nat 3 <= Z.to_nat (Z.log2 n))%nat)
    by (apply log2_ge; [lia | change (2 ^ 3) with 8; lia]).
  destruct (Z.to_nat (Z.log2 n)) as [|f]; [lia|].
  rewrite digits_fuel_snoc.
  replace (n <? 10) with false by (symmetry; apply Z.ltb_ge; lia).
  rewrite digits_fuel_snoc.
  assert (n / 10 < 10) by (apply Z.div_lt_upper_bound; lia).
  replace (n / 10 <? 10) with true by (symmetry; apply Z.ltb_lt; lia).
  rewrite (Z.mod_small (n / 10)); [reflexivity|].
  split; [apply Z.div_pos; lia | lia].
Qed.

Lemma digits_ge100 (n : Z) : 100 <= n -> (3 <= length (digits n))%nat.
Proof.
  intros H. unfold digits.
  assert (L : (Z.to_nat 6 <= Z.to_nat (Z.log2 n))%nat)
    by (apply log2_ge; [lia | change (2 ^ 6) with 64; lia]).
  destruct (Z.to_nat (Z.log2 n)) as [|[|f]]; try lia.
  rewrite digits_fuel_snoc.
  replace (n <? 10) with false by (symmetry; apply Z.ltb_ge; lia).
  rewrite digits_fuel_snoc.
  assert (10 <= n / 10) by (apply Z.div_le_lower_bound; lia).
  replace (n / 10 <? 10) with false by (symmetry; apply Z.ltb_ge; lia).
  pose proof (digits_fuel_nonempty f (n / 10 / 10)).
  destruct (digits_fuel (S f) (n / 10 / 10) []); [congruence|].
  rewrite !length_app. simpl. lia.
Qed.

Lemma zfill_length_small (n : Z) : 0 <= n < 100 -> length (zfill 2 (digits n)) = 2%nat.
Proof.
  intros H. destruct (Z.lt_ge_cases n 10).
  - now rewrite digits_lt10 by lia.
  - now rewrite digits_lt100 by lia.
Qed.

Lemma zfill_length_ge (w : nat) (l : str) : (w <= length (zfill w l))%nat.
Proof. unfold zfill. rewrite length_app, repeat_length. lia. Qed.

Lemma zfill_wide (w : nat) (l : str) : (w <= length l)%nat -> zfill w l = l.
Proof. intros H. unfold zfill. now replace (w - length l)%nat with O by lia. Qed.

Lemma duration_fields (s : Z) :
  0 <= s ->
  0 <= s / 3600 /\ 0 <= (s mod 3600) / 60 < 60 /\ 0 <= s mod 60 < 60 /\
  s / 3600 * 3600 + (s mod 3600) / 60 * 60 + s mod 60 = s.
Proof. intros H. Z.to_euclidean_division_equations. lia. Qed.

Lemma duration_limit_fields (s : Z) :
  0 <= s < duration_limit ->
  Z.abs (s / 3600) < digit_limit
  /\ Z.abs ((s mod 3600) / 60) < digit_limit
  /\ Z.abs (s mod 60) < digit_limit.
Proof.
  intros H. pose proof digit_limit_100 as L. unfold duration_limit in H.
  destruct (duration_fields s ltac:(lia)) as (Hh & Hm & Hs & _).
  assert (s / 3600 < digit_limit) by (apply Z.div_lt_upper_bound; lia).
  lia.
Qed.

(** Within the digit limit the three fields are formatted. *)
Lemma seconds_to_formatted_time_small (s : Z) :
  0 <= s < duration_limit ->
  seconds_to_formatted_time s =
  Ok (pad_02 (s / 3600) ++ lit ":" ++ pad_02 ((s mod 3600) / 60)
      ++ lit ":" ++ pad_02 (s mod 60)).
Proof.
  intros H. destruct (duration_limit_fields s H) as (Hh & Hm & Hs).
  unfold seconds_to_formatted_time. cbv zeta.
  now rewrite !format_02_small by assumption.
Qed.

(** Beyond it the hours are refused. *)
Lemma seconds_to_formatted_time_large (s : Z) :
  duration_limit <= s -> seconds_to_formatted_time s = Raise ValueError.
Proof.
  intros H. pose proof digit_limit_100 as L. unfold duration_limit in H.
  unfold seconds_to_formatted_time. cbv zeta.
  rewrite format_02_large; [reflexivity|].
  assert (digit_limit <= s / 3600) by (apply Z.div_le_lower_bound; lia).
  lia.
Qed.

Lemma duration_limit_value : duration_limit = 3600 * 10 ^ 4300.
Proof. reflexivity. Qed.

(** A one followed by 4300 zeros has 4301 digits. *)
Lemma digits_at_limit : length (digits (10 ^ 4300)) = 4301%nat.
Proof.
  apply Nat.le_antisymm.
  - apply digits_length_le; [lia|].
    split; [apply Z.pow_nonneg; lia|].
    change (Z.of_nat 4301) with 4301. apply Z.pow_lt_mono_r; lia.
  - apply (digits_length_gt (10 ^ 4300) 4300).
    change (Z.of_nat 4300) with 4300. apply Z.le_refl.
Qed.

(** The digit limit is met at [3600 * 10^4300] seconds, whose hours are a
    one followed by 4300 zeros. *)
Lemma seconds_to_formatted_time_digit_limit :
  3600 * 10 ^ 4300 / 3600 = 10 ^ 4300
  /\ length (digits (10 ^ 4300)) = 4301%nat
  /\ seconds_to_formatted_time (3600 * 10 ^ 4300) = Raise ValueError
  /\ (forall text : str, seconds_to_formatted_time (3600 * 10 ^ 4300) <> Ok text).
Proof.
  assert (E : seconds_to_formatted_time (3600 * 10 ^ 4300) = Raise ValueError).
  { apply seconds_to_formatted_time_large. rewrite duration_limit_value.
    apply Z.le_refl. }
  split; [rewrite Z.mul_comm; apply Z.div_mul; discriminate|].
  split; [exact digits_at_limit|].
  split; [exact E|]. intros text. rewrite E. discriminate.
Qed.

(** C7, with the bound the interpreter sets: for every number of seconds
    from 0 up to [3600 * 10^4300] (excluded) the result is [HH:MM:SS] with
    hours = seconds div 3600, minutes = (seconds mod 3600) div 60 and secs =
    seconds mod 60, each the decimal rendering padded with zeros to at least
    two digits: minutes and seconds take exactly two characters, hours at
    least two and are not padded from 100 on; 0 gives 00:00:00, 3661 gives
    01:01:01 and 442800 gives 123:00:00.  From [3600 * 10^4300] seconds on
    the hours have more than 4300 digits and the call raises
    [ValueError]. *)
Theorem seconds_to_formatted_time_fields :
  (forall seconds : Z, 0 <= seconds < duration_limit ->
     let hours := seconds / 3600 in
     let minutes := (seconds mod 3600) / 60 in
     let secs := seconds mod 60 in
     seconds_to_formatted_time seconds =
       Ok (zfill 2 (py_str hours) ++ lit ":" ++ zfill 2 (py_str minutes)
           ++ lit ":" ++ zfill 2 (py_str secs))
     /\ (2 <= length (zfill 2 (py_str hours)))%nat
     /\ length (zfill 2 (py_str minutes)) = 2%nat
     /\ length (zfill 2 (py_str secs)) = 2%nat
     /\ (100 <= hours -> zfill 2 (py_str hours) = py_str hours))
  /\ (forall seconds : Z, duration_limit <= seconds ->
        seconds_to_formatted_time seconds = Raise ValueError)
  /\ duration_limit = 3600 * 10 ^ 4300
  /\ seconds_to_formatted_time 0 = Ok (lit "00:00:00")
  /\ seconds_to_formatted_time 3661 = Ok (lit "01:01:01")
  /\ seconds_to_formatted_time 442800 = Ok (lit "123:00:00").
Proof.
  split; [|split; [exact seconds_to_formatted_time_large|
                   split; [exact duration_limit_value | by_evaluation]]].
  intros seconds H hours minutes secs.
  destruct (duration_fields seconds ltac:(lia)) as (Hh & Hm & Hs & _).
  fold hours minutes secs in Hh, Hm, Hs.
  rewrite seconds_to_formatted_time_small by assumption. fold hours minutes secs.
  rewrite !pad_02_nonneg by lia.
  split; [reflexivity|]. split; [apply zfill_length_ge|].
  unfold py_str.
  replace (minutes <? 0) with false by (symmetry; apply Z.ltb_ge; lia).
  replace (secs <? 0) with false by (symmetry; apply Z.ltb_ge; lia).
  replace (hours <? 0) with false by (symmetry; apply Z.ltb_ge; lia).
  repeat split; try (apply zfill_length_small; lia).
  intros Hw. apply zfill_wide. apply digits_ge100 in Hw. lia.
Qed.

Lemma seconds_to_formatted_time_fields_witness :
  seconds_to_formatted_time 5940 =
    Ok (zfill 2 (py_str 1) ++ lit ":" ++ zfill 2 (py_str 39) ++ lit ":"
        ++ zfill 2 (py_str 0)).
Proof.
  apply (proj1 seconds_to_formatted_time_fields 5940).
  pose proof digit_limit_100. unfold duration_limit. lia.
Defined.

Lemma zfill_length_le (w : nat) (l : str) (k : nat) :
  (w <= k)%nat -> (length l <= k)%nat -> (length (zfill w l) <= k)%nat.
Proof. intros Hw Hl. unfold zfill. rewrite length_app, repeat_length. lia. Qed.

Lemma py_int_field (n : Z) : 0 <= n < digit_limit -> py_int (pad_02 n) = Ok n.
Proof.
  intros H. rewrite pad_02_nonneg by lia. unfold py_str.
  replace (n <? 0) with false by (symmetry; apply Z.ltb_ge; lia).
  apply py_int_zfill; [lia|].
  apply zfill_length_le; [unfold max_str_digits; lia|].
  apply digits_length_le; [unfold max_str_digits; lia | exact H].
Qed.

Lemma pad_02_no_colon (n : Z) : 0 <= n < digit_limit -> ~ In ":"%char (pad_02 n).
Proof. intros H. eapply py_int_no_colon. now apply py_int_field. Qed.

(** Formatting then parsing, below the limit. *)
Lemma duration_round_trip_small (s : Z) :
  0 <= s < duration_limit ->
  exists text, seconds_to_formatted_time s = Ok text
               /\ formatted_time_to_seconds text = Ok s.
Proof.
  intros H. destruct (duration_fields s ltac:(lia)) as (Hh & Hm & Hs & E).
  destruct (duration_limit_fields s H) as (Lh & Lm & Ls).
  eexists. split; [now apply seconds_to_formatted_time_small|].
  unfold formatted_time_to_seconds.
  change (lit ":") with [":"%char].
  rewrite split_three by (apply pad_02_no_colon; lia).
  simpl. rewrite !py_int_field by lia. simpl. now rewrite E.
Qed.

(** A duration that cannot be formatted is not read back: at
    [3600 * 10^4300 + 59] seconds the hours have 4301 digits. *)
Lemma duration_round_trip_digit_limit :
  seconds_to_formatted_time (3600 * 10 ^ 4300 + 59) = Raise ValueError
  /\ (text <- seconds_to_formatted_time (3600 * 10 ^ 4300 + 59) ;;
      formatted_time_to_seconds text) <> Ok (3600 * 10 ^ 4300 + 59).
Proof.
  assert (E : seconds_to_formatted_time (3600 * 10 ^ 4300 + 59) = Raise ValueError).
  { apply seconds_to_formatted_time_large. rewrite duration_limit_value.
    generalize (3600 * 10 ^ 4300). intros x. lia. }
  split; [exact E|]. rewrite E. discriminate.
Qed.

(** C1, with the bound the interpreter sets: for every integer s from 0 up
    to [3600 * 10^4300] (excluded), the duration is formatted and parsing
    the text returns s; from [3600 * 10^4300] on, formatting raises
    [ValueError], so there is nothing to parse. *)
Theorem duration_round_trip :
  (forall s : Z, 0 <= s < duration_limit ->
     exists text, seconds_to_formatted_time s = Ok text
                  /\ formatted_time_to_seconds text = Ok s)
  /\ (forall s : Z, duration_limit <= s ->
        (text <- seconds_to_formatted_time s ;; formatted_time_to_seconds text)
        = Raise ValueError)
  /\ duration_limit = 3600 * 10 ^ 4300.
Proof.
  split; [exact duration_round_trip_small|split; [|exact duration_limit_value]].
  intros s H. now rewrite seconds_to_formatted_time_large.
Qed.

Lemma duration_round_trip_witness :
  exists text, seconds_to_formatted_time 3661 = Ok text
               /\ formatted_time_to_seconds text = Ok 3661.
Proof.
  apply (proj1 duration_round_trip 3661).
  pose proof digit_limit_100. unfold duration_limit. lia.
Defined.

(** A digit string within the limit is read; a longer one is refused. *)
Lemma py_int_all_digits (l : str) :
  all_digits l -> l <> [] -> (length l <= max_str_digits)%nat ->
  py_int l = Ok (digits_value 0 l).
Proof.
  intros A N L. unfold py_int.
  rewrite literal_strip_id by now apply all_digits_no_space.
  rewrite signed_digit, parse_all_digits, filter_all_digits by auto.
  now replace (max_str_digits <? length l)%nat with false
    by (symmetry; apply Nat.ltb_ge; lia).
Qed.

Lemma py_int_too_many_digits (l : str) :
  all_digits l -> (max_str_digits < length l)%nat -> py_int l = Raise ValueError.
Proof.
  intros A L. unfold py_int.
  assert (N : l <> []) by (intros ->; simpl in L; lia).
  rewrite literal_strip_id by now apply all_digits_no_space.
  rewrite signed_digit, parse_all_digits, filter_all_digits by auto.
  now replace (max_str_digits <? length l)%nat with true
    by (symmetry; apply Nat.ltb_lt; lia).
Qed.

Lemma all_digits_repeat (c : ascii) (k : nat) :
  is_digit c = true -> all_digits (repeat c k).
Proof. intros H. apply Forall_forall. intros x Hx. apply repeat_spec in Hx. now subst. Qed.

Lemma all_digits_no_colon (l : str) : all_digits l -> ~ In ":"%char l.
Proof. intros A H. eapply Forall_forall in A; [|exact H]. discriminate. Qed.

(** A field of 4301 digits is refused; 4300 digits, leading zeros included,
    are read. *)
Lemma formatted_time_to_seconds_digit_limit :
  formatted_time_to_seconds (repeat "1"%char 4301 ++ lit ":2:3") = Raise ValueError
  /\ formatted_time_to_seconds (repeat "0"%char 4299 ++ lit "1:2:3") = Ok 3723.
Proof.
  unfold formatted_time_to_seconds. split.
  - change (lit ":2:3") with ([":"%char] ++ lit "2" ++ [":"%char] ++ lit "3").
    change (lit ":") with [":"%char].
    rewrite split_three;
      [|apply all_digits_no_colon, all_digits_repeat; reflexivity
       |apply all_digits_no_colon; repeat constructor
       |apply all_digits_no_colon; repeat constructor].
    cbn [map_result].
    rewrite py_int_too_many_digits; [reflexivity | now apply all_digits_repeat|].
    rewrite repeat_length. apply Nat.lt_succ_diag_r.
  - change (lit "1:2:3") with (lit "1" ++ [":"%char] ++ lit "2" ++ [":"%char] ++ lit "3").
    rewrite app_assoc. change (lit ":") with [":"%char].
    assert (A : all_digits (repeat "0"%char 4299 ++ lit "1"))
      by (apply Forall_app; split; [now apply all_digits_repeat | repeat constructor]).
    rewrite split_three;
      [|now apply all_digits_no_colon
       |apply all_digits_no_colon; repeat constructor
       |apply all_digits_no_colon; repeat constructor].
    cbn [map_result].
    rewrite py_int_all_digits; [|exact A| |].
    + rewrite digits_value_zeros. reflexivity.
    + intros E. apply app_eq_nil in E as [_ E]. discriminate.
    + rewrite length_app, repeat_length. apply Nat.le_refl.
Qed.

(** C9: no range validation: any three integer literals joined by colons
    are accepted, whatever their values, and give hours*3600 + minutes*60 +
    seconds; so some accepted inputs do not survive the way back: 00:99:00
    gives 5940, which is rendered 01:39:00.  A literal is what [int]
    accepts: FS..US around the digits, or more than 4300 digits, are
    refused with [ValueError]. *)
Theorem formatted_time_to_seconds_unvalidated :
  (forall (a b c : str) (hours minutes seconds : Z),
     py_int a = Ok hours -> py_int b = Ok minutes -> py_int c = Ok seconds ->
     formatted_time_to_seconds (a ++ lit ":" ++ b ++ lit ":" ++ c)
     = Ok (hours * 3600 + minutes * 60 + seconds))
  /\ formatted_time_to_seconds (lit "00:99:00") = Ok 5940
  /\ formatted_time_to_seconds (lit "-1:75:-30") = Ok 870
  /\ seconds_to_formatted_time 5940 = Ok (lit "01:39:00")
  /\ seconds_to_formatted_time 5940 <> Ok (lit "00:99:00")
  /\ formatted_time_to_seconds ("031"%char :: lit "1:2:3") = Raise ValueError
  /\ formatted_time_to_seconds ("160"%char :: lit "1:2:3") = Ok 3723
  /\ formatted_time_to_seconds (repeat "1"%char 4301 ++ lit ":2:3") = Raise ValueError
  /\ formatted_time_to_seconds (repeat "0"%char 4299 ++ lit "1:2:3") = Ok 3723.
Proof.
  split; [|do 6 (split; [by_evaluation|]);
           exact formatted_time_to_seconds_digit_limit].
  intros a b c hours minutes seconds Ha Hb Hc.
  unfold formatted_time_to_seconds. change (lit ":") with [":"%char].
  rewrite split_three by (eapply py_int_no_colon; eauto).
  simpl. now rewrite Ha, Hb, Hc.
Qed.

Lemma formatted_time_to_seconds_unvalidated_witness :
  formatted_time_to_seconds (lit "7" ++ lit ":" ++ lit "99" ++ lit ":" ++ lit "-5")
  = Ok (7 * 3600 + 99 * 60 + -5).
Proof.
  apply (proj1 formatted_time_to_seconds_unvalidated); reflexivity.
Defined.

(** ** The text-block parser *)

Lemma by_nonempty : lit " by " <> [].
Proof. discriminate. Qed.

Lemma bar_nonempty : lit " | " <> [].
Proof. discriminate. Qed.

Lemma newline_nonempty : newline <> [].
Proof. discriminate. Qed.

Lemma index_list_some {A : Type} (xs : list A) (i : nat) (x : A) :
  nth_error xs i = Some x -> index_list xs i = Ok x.
Proof. unfold index_list. now intros ->. Qed.

Lemma index_list_none {A : Type} (xs : list A) (i : nat) :
  nth_error xs i = None -> index_list xs i = Raise IndexError.
Proof. unfold index_list. now intros ->. Qed.

(** The outcome of the parser, by the second elements of its two splits. *)
Lemma parse_cases (text : str) :
  match nth_error (split (lit " by ") (header text)) 1 with
  | None => parse_text_block_into_song text = Raise IndexError
  | Some info =>
      match nth_error (split (lit " | ") info) 1 with
      | None => parse_text_block_into_song text = Raise IndexError
      | Some link =>
          parse_text_block_into_song text =
          Ok {| song_name := strip (hd [] (split (lit " by ") (header text)));
                artist_name := strip (hd [] (split (lit " | ") info));
                artist_link := strip link;
                licenses := map strip (slice (split newline (strip text)) 1 4) |}
      end
  end.
Proof.
  unfold parse_text_block_into_song. cbv zeta.
  rewrite (index_list_0 newline newline_nonempty).
  cbn [bind]. fold (header text).
  rewrite (index_list_0 (lit " by ") by_nonempty).
  cbn [bind].
  destruct (nth_error (split (lit " by ") (header text)) 1) as [info|] eqn:E1.
  - rewrite (index_list_some _ _ _ E1). cbn [bind].
    rewrite (index_list_0 (lit " | ") bar_nonempty).
    cbn [bind].
    destruct (nth_error (split (lit " | ") info) 1) as [link|] eqn:E2.
    + now rewrite (index_list_some _ _ _ E2).
    + now rewrite (index_list_none _ _ E2).
  - now rewrite (index_list_none _ _ E1).
Qed.

(** X1: when the parser fails, as the code has it.  It raises exactly when
    the header (line 0 of the trimmed block) lacks [" by "], or the text
    between the first [" by "] and the next one (or the end of the line)
    lacks [" | "]; the exception is [IndexError], and otherwise a complete
    record is returned. *)
Theorem parse_fails_exactly :
  (forall text : str,
     parse_text_block_into_song text = Raise IndexError <->
     (~ occurs (lit " by ") (header text) \/
      exists p, second_piece (lit " by ") (header text) p /\
                ~ occurs (lit " | ") p))
  /\ (forall text : str,
        parse_text_block_into_song text = Raise IndexError \/
        exists r, parse_text_block_into_song text = Ok r)
  /\ parse_text_block_into_song (lit "Malformed Line Without Separator")
     = Raise IndexError.
Proof.
  split; [|split; [|by_evaluation]]; intros text; pose proof (parse_cases text) as C.
  - destruct (nth_error (split (lit " by ") (header text)) 1) as [info|] eqn:E1.
    + apply (split_second _ by_nonempty) in E1 as S1.
      destruct (nth_error (split (lit " | ") info) 1) as [link|] eqn:E2.
      * rewrite C. split; [discriminate|].
        intros [N|(p & Hp & N)].
        -- apply (split_second_none _ by_nonempty) in N. congruence.
        -- apply (split_second _ by_nonempty) in Hp.
           assert (p = info) by congruence. subst p.
           apply (split_second_none _ bar_nonempty) in N. congruence.
      * split; [|intros _; exact C]. intros _. right. exists info.
        split; [assumption|]. now apply (split_second_none _ bar_nonempty).
    + split; [|intros _; exact C]. intros _. left.
      now apply (split_second_none _ by_nonempty).
  - destruct (nth_error (split (lit " by ") (header text)) 1) as [info|]; [|now left].
    destruct (nth_error (split (lit " | ") info) 1) as [link|]; [|now left].
    right. eauto.
Qed.

(** C2: the code against the specification on two headers in the format the
    docstring gives, [Song Name by Artist | Artist Link].  The
    specification splits once at the first [" by "] and once at the first
    [" | "] of the remainder; the code splits at every occurrence and keeps
    the first two pieces.  On [Stand by Me by Ben | x] the specification
    gives the song [Stand], the artist [Me by Ben] and the link [x], the
    code raises [IndexError]; on [A by B | C | D] the specification gives
    the link [C | D], the code [C]. *)
Lemma parse_header_not_split_once :
  parse_text_block_into_song (lit "Stand by Me by Ben | x") = Raise IndexError
  /\ parse_song_block_once (lit "Stand by Me by Ben | x")
     = Ok {| song_name := lit "Stand"; artist_name := lit "Me by Ben";
             artist_link := lit "x"; licenses := [] |}
  /\ parse_text_block_into_song (lit "A by B | C | D")
     = Ok {| song_name := lit "A"; artist_name := lit "B";
             artist_link := lit "C"; licenses := [] |}
  /\ parse_song_block_once (lit "A by B | C | D")
     = Ok {| song_name := lit "A"; artist_name := lit "B";
             artist_link := lit "C | D"; licenses := [] |}.
Proof. by_evaluation. Qed.

(** C3: a header in which both separators occur, and on which the parser
    fails all the same.  In [Side by Side by Duo | http://example.com/duo]
    the text after the first [" by "] contains [" | "], so the
    specification has the block parsed; the code looks for [" | "] in the second piece of the
    split at every [" by "], which is [Side], and raises [IndexError]. *)
Lemma parse_fails_with_both_separators :
  header (lit "Side by Side by Duo | http://example.com/duo")
  = lit "Side by Side by Duo | http://example.com/duo"
  /\ cut (lit " by ") (lit "Side by Side by Duo | http://example.com/duo")
     = Some (lit "Side", lit "Side by Duo | http://example.com/duo")
  /\ cut (lit " | ") (lit "Side by Duo | http://example.com/duo")
     = Some (lit "Side by Duo", lit "http://example.com/duo")
  /\ split (lit " by ") (lit "Side by Side by Duo | http://example.com/duo")
     = [lit "Side"; lit "Side"; lit "Duo | http://example.com/duo"]
  /\ parse_song_block_once (lit "Side by Side by Duo | http://example.com/duo")
     = Ok {| song_name := lit "Side"; artist_name := lit "Side by Duo";
             artist_link := lit "http://example.com/duo"; licenses := [] |}
  /\ parse_text_block_into_song (lit "Side by Side by Duo | http://example.com/duo")
     = Raise IndexError.
Proof. by_evaluation. Qed.

Lemma head_piece_whole (sep s : str) : ~ occurs sep s -> head_piece sep s s.
Proof. intros H. now left. Qed.

(** X2: the header fields, as the code has them: every [split] cuts at
    every occurrence.  [song_name] is the text of the header (line 0 of the
    trimmed block) before the first [" by "]; [artist_name] and
    [artist_link] are read in the text between that [" by "] and the next
    one (or the end of the line): the artist up to the first [" | "] there,
    the link from it up to the next [" | "] (or the end of that text); each
    is trimmed.  When neither separator occurs again the result is that of
    splitting once on each. *)
Theorem parse_header_every_occurrence :
  (forall text song rest info artist rest' link : str,
     first_cut (lit " by ") (header text) song rest ->
     head_piece (lit " by ") rest info ->
     first_cut (lit " | ") info artist rest' ->
     head_piece (lit " | ") rest' link ->
     exists r, parse_text_block_into_song text = Ok r
               /\ song_name r = strip song
               /\ artist_name r = strip artist
               /\ artist_link r = strip link)
  /\ (forall text song rest artist link : str,
        first_cut (lit " by ") (header text) song rest ->
        ~ occurs (lit " by ") rest ->
        first_cut (lit " | ") rest artist link ->
        ~ occurs (lit " | ") link ->
        parse_text_block_into_song text = parse_song_block_once text
        /\ exists r, parse_text_block_into_song text = Ok r
                     /\ song_name r = strip song
                     /\ artist_name r = strip artist
                     /\ artist_link r = strip link).
Proof.
  assert (G : forall text song rest info artist rest' link : str,
     first_cut (lit " by ") (header text) song rest ->
     head_piece (lit " by ") rest info ->
     first_cut (lit " | ") info artist rest' ->
     head_piece (lit " | ") rest' link ->
     parse_text_block_into_song text =
     Ok {| song_name := strip song; artist_name := strip artist;
           artist_link := strip link;
           licenses := map strip (slice (split newline (strip text)) 1 4) |}).
  { intros text song rest info artist rest' link H1 H2 H3 H4.
    pose proof (parse_cases text) as C.
    assert (S1 : second_piece (lit " by ") (header text) info) by (exists song, rest; auto).
    apply (split_second _ by_nonempty) in S1. rewrite S1 in C.
    assert (S2 : second_piece (lit " | ") info link) by (exists artist, rest'; auto).
    apply (split_second _ bar_nonempty) in S2. rewrite S2 in C.
    rewrite C. f_equal.
    rewrite (split_cut _ by_nonempty _ _ _ H1), (split_cut _ bar_nonempty _ _ _ H3).
    reflexivity. }
  split.
  - intros text song rest info artist rest' link H1 H2 H3 H4.
    eexists. split; [eapply G; eauto|]. auto.
  - intros text song rest artist link H1 N1 H3 N2.
    pose proof (G text song rest rest artist link link H1
                  (head_piece_whole _ _ N1) H3 (head_piece_whole _ _ N2)) as E.
    split; [|eexists; split; [exact E|auto]].
    rewrite E. unfold parse_song_block_once.
    apply cut_iff in H1, H3. now rewrite H1, H3.
Qed.

Lemma parse_header_every_occurrence_witness :
  exists r, parse_text_block_into_song (lit "A by B | C | D by E") = Ok r
            /\ song_name r = strip (lit "A")
            /\ artist_name r = strip (lit "B")
            /\ artist_link r = strip (lit "C").
Proof.
  apply (proj1 parse_header_every_occurrence _ (lit "A") (lit "B | C | D by E")
           (lit "B | C | D") (lit "B") (lit "C | D") (lit "C"));
    try (apply cut_iff; reflexivity);
    right; eexists; apply cut_iff; reflexivity.
Defined.

(** ** Licenses *)

Lemma parse_licenses (text : str) (r : SongMetadata) :
  parse_text_block_into_song text = Ok r ->
  licenses r = map strip (slice (split newline (strip text)) 1 4).
Proof.
  intros H. pose proof (parse_cases text) as C.
  destruct (nth_error (split (lit " by ") (header text)) 1) as [info|]; [|congruence].
  destruct (nth_error (split (lit " | ") info) 1) as [link|]; [|congruence].
  rewrite C in H. now injection H as <-.
Qed.

Lemma parse_strip (text text' : str) :
  strip text = strip text' ->
  parse_text_block_into_song text = parse_text_block_into_song text'.
Proof. unfold parse_text_block_into_song. now intros ->. Qed.

Lemma strip_all_space (w : str) : all_space w -> strip w = [].
Proof. intros H. unfold strip. now rewrite lstrip_all_space. Qed.

Lemma nth_error_slice_1_4 {A : Type} (xs : list A) (i : nat) :
  (i < 3)%nat -> nth_error (slice xs 1 4) i = nth_error xs (S i).
Proof.
  intros H. unfold slice. simpl Nat.sub.
  rewrite nth_error_firstn.
  replace (i <? 3)%nat with true by (symmetry; apply Nat.ltb_lt; lia).
  now rewrite nth_error_skipn.
Qed.

Lemma length_slice_1_4 {A : Type} (xs : list A) :
  length (slice xs 1 4) = Nat.min 3 (length xs - 1).
Proof. unfold slice. simpl Nat.sub. now rewrite length_firstn, length_skipn. Qed.

(** A pasted block that ends with blank lines: they are lines 2 and 3 of
    the block as pasted, and give no license entry. *)
Lemma licenses_drop_trailing_blank_lines :
  split newline (block ["A by B | C"; "L1"; ""; ""]%string)
  = [lit "A by B | C"; lit "L1"; []; []; []]
  /\ map strip (slice (split newline (block ["A by B | C"; "L1"; ""; ""]%string)) 1 4)
     = [lit "L1"; []; []]
  /\ parse_text_block_into_song (block ["A by B | C"; "L1"; ""; ""]%string)
     = Ok {| song_name := lit "A"; artist_name := lit "B"; artist_link := lit "C";
             licenses := [lit "L1"] |}.
Proof. by_evaluation. Qed.

(** C4, as the code has it: the licenses are the trimmed lines 1 to 3 of
    the trimmed block, in order, so there are between zero and three of
    them and fewer lines give fewer entries; a blank line at one of these
    positions gives an empty entry; whitespace at the end of the pasted
    block, blank lines included, is removed before the lines are taken and
    gives no entry. *)
Theorem licenses_of_trimmed_block (text : str) (r : SongMetadata) :
  parse_text_block_into_song text = Ok r ->
  let lines := split newline (strip text) in
  licenses r = map strip (slice lines 1 4)
  /\ length (licenses r) = Nat.min 3 (length lines - 1)
  /\ (forall (i : nat) (line : str),
        (i < 3)%nat -> nth_error lines (S i) = Some line ->
        nth_error (licenses r) i = Some (strip line)
        /\ (all_space line -> nth_error (licenses r) i = Some []))
  /\ (forall w : str, all_space w ->
        parse_text_block_into_song (text ++ w) = Ok r).
Proof.
  intros H lines. pose proof (parse_licenses text r H) as L. fold lines in L.
  split; [exact L|]. split; [|split].
  - now rewrite L, length_map, length_slice_1_4.
  - intros i line Hi Hl.
    assert (E : nth_error (licenses r) i = Some (strip line)).
    { rewrite L, nth_error_map, nth_error_slice_1_4 by assumption. now rewrite Hl. }
    split; [exact E|]. intros W. now rewrite E, strip_all_space.
  - intros w W. rewrite <- H. apply parse_strip. now apply strip_app_space.
Qed.

Lemma licenses_of_trimmed_block_witness :
  licenses {| song_name := lit "A"; artist_name := lit "B"; artist_link := lit "C";
              licenses := [lit "L1"; []; lit "L3"] |}
  = map strip
      (slice (split newline
                (strip (block ["A by B | C"; " L1 "; ""; "L3"; "L4"; ""]%string))) 1 4).
Proof.
  refine (proj1 (licenses_of_trimmed_block
                   (block ["A by B | C"; " L1 "; ""; "L3"; "L4"; ""]%string) _ _)).
  vm_compute. reflexivity.
Defined.

(** ** Unique file names *)

Lemma py_str_nonneg (n : Z) : 0 <= n -> py_str n = digits n.
Proof.
  intros H. unfold py_str.
  now replace (n <? 0) with false by (symmetry; apply Z.ltb_ge; lia).
Qed.

Lemma py_str_inj (a b : Z) : 0 <= a -> 0 <= b -> py_str a = py_str b -> a = b.
Proof.
  intros Ha Hb. rewrite !py_str_nonneg by assumption. intros E.
  rewrite <- (digits_value_digits a Ha), <- (digits_value_digits b Hb).
  now rewrite E.
Qed.

Lemma numbered_inj (base ext : str) (a b : Z) :
  0 <= a -> 0 <= b -> numbered base ext a = numbered base ext b -> a = b.
Proof.
  intros Ha Hb E. unfold numbered in E.
  apply app_inv_head, app_inv_head in E.
  apply app_inv_tail in E. now apply py_str_inj.
Qed.

Lemma splitext_app (p : str) : fst (splitext p) ++ snd (splitext p) = p.
Proof.
  unfold splitext, _splitext.
  destruct (_ && _); simpl; [apply firstn_skipn | apply app_nil_r].
Qed.

Section Loop.

Variable path_exists : str -> bool.
Variables base ext : str.

Lemma unique_loop_free (fuel : nat) (p : str) (c : Z) :
  path_exists p = false -> unique_loop path_exists (S fuel) base ext p c = Some p.
Proof. intros H. simpl. now rewrite H. Qed.

Lemma unique_loop_taken (fuel : nat) (p : str) (c : Z) :
  path_exists p = true ->
  unique_loop path_exists (S fuel) base ext p c
  = unique_loop path_exists fuel base ext (numbered base ext c) (c + 1).
Proof. intros H. simpl. now rewrite H. Qed.

(** The loop stops at the first free candidate. *)
Lemma unique_loop_found (d : nat) :
  forall (p : str) (c : Z) (fuel : nat),
    path_exists p = true ->
    (forall j, 0 <= j < Z.of_nat d -> path_exists (numbered base ext (c + j)) = true) ->
    path_exists (numbered base ext (c + Z.of_nat d)) = false ->
    (S d < fuel)%nat ->
    unique_loop path_exists fuel base ext p c = Some (numbered base ext (c + Z.of_nat d)).
Proof.
  induction d as [|d IH]; intros p c fuel Hp Hall Hfree Hfuel.
  - destruct fuel as [|[|fuel]]; try lia.
    rewrite unique_loop_taken by assumption.
    replace (c + Z.of_nat 0) with c in * by lia.
    now apply unique_loop_free.
  - destruct fuel as [|fuel]; [lia|].
    rewrite unique_loop_taken by assumption.
    replace (c + Z.of_nat (S d)) with (c + 1 + Z.of_nat d) in * by lia.
    apply IH; try assumption; try lia.
    + replace (numbered base ext c) with (numbered base ext (c + 0)) by (f_equal; lia).
      apply Hall. lia.
    + intros j Hj. replace (c + 1 + j) with (c + (j + 1)) by lia. apply Hall. lia.
Qed.

(** Either some candidate among the first [n + 1] is free, and then there
    is a first one, or all of them exist. *)
Lemma first_free_or_all (c : Z) (n : nat) :
  (exists d : nat, (d <= n)%nat /\
     path_exists (numbered base ext (c + Z.of_nat d)) = false /\
     forall j, 0 <= j < Z.of_nat d -> path_exists (numbered base ext (c + j)) = true)
  \/ (forall j, 0 <= j <= Z.of_nat n -> path_exists (numbered base ext (c + j)) = true).
Proof.
  induction n as [|n [(d & Hd & Hf & Ha)|Hall]].
  - destruct (path_exists (numbered base ext (c + Z.of_nat 0))) eqn:E.
    + right. intros j Hj. now replace j with (Z.of_nat 0) by lia.
    + left. exists O. split; [lia|]. split; [exact E|]. intros j Hj. lia.
  - left. exists d. split; [lia|]. auto.
  - destruct (path_exists (numbered base ext (c + Z.of_nat (S n)))) eqn:E.
    + right. intros j Hj.
      destruct (Z.eq_dec j (Z.of_nat (S n))) as [->|N]; [exact E|].
      apply Hall. lia.
    + left. exists (S n). split; [lia|]. split; [exact E|].
      intros j Hj. apply Hall. lia.
Qed.

(** With finitely many existing paths some candidate is free. *)
Lemma first_free (c : Z) :
  0 <= c -> finitely_many path_exists ->
  exists d : nat,
    path_exists (numbered base ext (c + Z.of_nat d)) = false /\
    forall j, 0 <= j < Z.of_nat d -> path_exists (numbered base ext (c + j)) = true.
Proof.
  intros Hc [l Hl].
  destruct (first_free_or_all c (length l)) as [(d & _ & Hf & Ha)|Hall]; [eauto|].
  exfalso.
  set (cands := map (fun j : nat => numbered base ext (c + Z.of_nat j))
                    (seq 0 (S (length l)))).
  assert (ND : NoDup cands).
  { apply Injective_map_NoDup_in; [|apply seq_NoDup].
    intros x y _ _ E. apply numbered_inj in E; lia. }
  assert (I : incl cands l).
  { intros p Hp. apply in_map_iff in Hp as (j & <- & Hj).
    apply in_seq in Hj. apply Hl, Hall. lia. }
  pose proof (NoDup_incl_length ND I) as L.
  unfold cands in L. rewrite length_map, length_seq in L. lia.
Qed.

End Loop.

Lemma holds_In (paths : list string) (p : str) :
  holds paths p = true -> In p (map lit paths).
Proof.
  unfold holds. intros H. apply existsb_exists in H as (x & Hx & E).
  unfold str_eqb in E. destruct (list_eq_dec ascii_dec (lit x) p); [|discriminate].
  subst p. now apply in_map.
Qed.

Lemma holds_finite (paths : list string) : finitely_many (holds paths).
Proof. exists (map lit paths). apply holds_In. Qed.

(** C10: when only finitely many paths exist, the loop ends for every
    candidate path, and the path returned does not exist. *)
Theorem get_unique_file_name_terminates (path_exists : str -> bool) :
  finitely_many path_exists ->
  forall file_path : str,
  exists (fuel : nat) (unique_path : str),
    (forall fuel' : nat, (fuel <= fuel')%nat ->
       get_unique_file_name path_exists fuel' file_path = Some unique_path)
    /\ path_exists unique_path = false.
Proof.
  intros F file_path. unfold get_unique_file_name.
  destruct (splitext file_path) as [base ext].
  destruct (path_exists file_path) eqn:E.
  - destruct (first_free path_exists base ext 1 ltac:(lia) F) as (d & Hf & Ha).
    exists (S (S d)), (numbered base ext (1 + Z.of_nat d)).
    split; [|exact Hf]. intros fuel' Hfuel.
    apply unique_loop_found; auto; lia.
  - exists 1%nat, file_path. split; [|exact E].
    intros [|fuel'] Hfuel; [lia|]. now apply unique_loop_free.
Qed.

Lemma get_unique_file_name_terminates_witness :
  exists (fuel : nat) (unique_path : str),
    (forall fuel' : nat, (fuel <= fuel')%nat ->
       get_unique_file_name (holds ["a.mp3"; "a (1).mp3"]%string) fuel' (lit "a.mp3")
       = Some unique_path)
    /\ holds ["a.mp3"; "a (1).mp3"]%string unique_path = false.
Proof.
  apply (get_unique_file_name_terminates (holds ["a.mp3"; "a (1).mp3"]%string)).
  apply holds_finite.
Defined.

(** A name that starts with its only dot: the code keeps the whole name as
    base, splitting at the last dot would leave an empty base. *)
Lemma unique_name_of_dotfile :
  holds [".bashrc"]%string (lit ".bashrc") = true
  /\ split_at_last_dot (lit ".bashrc") = ([], lit ".bashrc")
  /\ numbered [] (lit ".bashrc") 1 = lit " (1).bashrc"
  /\ holds [".bashrc"]%string (lit " (1).bashrc") = false
  /\ get_unique_file_name (holds [".bashrc"]%string) 2 (lit ".bashrc")
     = Some (lit ".bashrc (1)")
  /\ get_unique_file_name (holds [".bashrc"]%string) 2 (lit ".bashrc")
     <> Some (lit " (1).bashrc").
Proof. by_evaluation. Qed.

(** C8, as the code has it: a candidate that does not exist is returned
    unchanged; otherwise the result is [base (n)extension] for the smallest
    counter [n >= 1] whose path does not exist, where base and extension
    are those of [os.path.splitext]: the split at the last dot of the file
    name, unless only dots precede that dot in the name, in which case the
    extension is empty.  With [a.mp3] and [a (1).mp3] present the result
    for [a.mp3] is [a (2).mp3]. *)
Theorem get_unique_file_name_smallest :
  (forall (path_exists : str -> bool) (file_path : str),
     path_exists file_path = false ->
     forall fuel : nat, (1 <= fuel)%nat ->
       get_unique_file_name path_exists fuel file_path = Some file_path)
  /\ (forall (path_exists : str -> bool) (file_path : str) (n : Z),
        let base := fst (splitext file_path) in
        let ext := snd (splitext file_path) in
        path_exists file_path = true ->
        1 <= n ->
        (forall k, 1 <= k < n -> path_exists (numbered base ext k) = true) ->
        path_exists (numbered base ext n) = false ->
        forall fuel : nat, (Z.to_nat n < fuel)%nat ->
          get_unique_file_name path_exists fuel file_path
          = Some (numbered base ext n))
  /\ (forall file_path : str,
        fst (splitext file_path) ++ snd (splitext file_path) = file_path
        /\ splitext file_path =
           if existsb (fun c => negb (Ascii.eqb c "."))
                (slice file_path (Z.to_nat (rfind "/" file_path + 1))
                   (Z.to_nat (rfind "." file_path)))
           then split_at_last_dot file_path
           else (file_path, []))
  /\ get_unique_file_name (holds ["a.mp3"; "a (1).mp3"]%string) 3 (lit "a.mp3")
     = Some (lit "a (2).mp3").
Proof.
  split; [|split; [|split; [|reflexivity]]].
  - intros path_exists file_path H [|fuel] Hf; [lia|].
    unfold get_unique_file_name. destruct (splitext file_path).
    now apply unique_loop_free.
  - intros path_exists file_path n base ext He Hn Hall Hfree fuel Hfuel.
    unfold get_unique_file_name. subst base ext.
    destruct (splitext file_path) as [base ext]. simpl in *.
    replace n with (1 + Z.of_nat (Z.to_nat (n - 1))) in * by lia.
    apply unique_loop_found; auto; try lia.
    intros j Hj. apply Hall. lia.
  - intros file_path. split; [apply splitext_app|].
    unfold splitext, _splitext, split_at_last_dot.
    destruct (rfind "/" file_path <? rfind "." file_path); simpl.
    + reflexivity.
    + now destruct (existsb _ _).
Qed.

Lemma get_unique_file_name_smallest_witness :
  get_unique_file_name (holds ["a.mp3"; "a (1).mp3"]%string) 5 (lit "a.mp3")
  = Some (numbered (lit "a") (lit ".mp3") 2).
Proof.
  apply (proj1 (proj2 get_unique_file_name_smallest)
           (holds ["a.mp3"; "a (1).mp3"]%string) (lit "a.mp3") 2).
  - reflexivity.
  - lia.
  - intros k Hk. replace k with 1 by lia. reflexivity.
  - reflexivity.
  - simpl. lia.
Defined.

(** ** Rounding *)

Lemma quanta_pos : 0 < quanta.
Proof. unfold quanta. apply Z.pow_pos_nonneg; lia. Qed.

Lemma round_half_even_exact (q b : Z) : 0 < b -> round_half_even (q * b) b = q.
Proof.
  intros H. unfold round_half_even.
  rewrite Z.div_mul, Z.mod_mul by lia.
  now replace (2 * 0 <? b) with true by (symmetry; apply Z.ltb_lt; lia).
Qed.

Lemma round_half_even_scale (n d c : Z) :
  0 < d -> 0 < c -> round_half_even (n * c) (d * c) = round_half_even n d.
Proof.
  intros Hd Hc. unfold round_half_even.
  rewrite Z.div_mul_cancel_r by lia.
  rewrite Z.mul_mod_distr_r by lia.
  assert (E1 : (2 * (n mod d * c) <? d * c) = (2 * (n mod d) <? d)).
  { destruct (2 * (n mod d) <? d) eqn:E.
    - apply Z.ltb_lt in E. apply Z.ltb_lt. nia.
    - apply Z.ltb_ge in E. apply Z.ltb_ge. nia. }
  assert (E2 : (d * c <? 2 * (n mod d * c)) = (d <? 2 * (n mod d))).
  { destruct (d <? 2 * (n mod d)) eqn:E.
    - apply Z.ltb_lt in E. apply Z.ltb_lt. nia.
    - apply Z.ltb_ge in E. apply Z.ltb_ge. nia. }
  now rewrite E1, E2.
Qed.

Lemma round_half_even_bounds (n d : Z) :
  0 < d -> n / d <= round_half_even n d <= n / d + 1.
Proof.
  intros H. unfold round_half_even.
  destruct (2 * (n mod d) <? d); [lia|].
  destruct (d <? 2 * (n mod d)); [lia|].
  destruct (Z.even (n / d)); lia.
Qed.

Lemma round_half_even_near (n d : Z) :
  0 < d -> 2 * Z.abs (round_half_even n d * d - n) <= d.
Proof.
  intros H. unfold round_half_even.
  pose proof (Z.div_mod n d ltac:(lia)) as D.
  pose proof (Z.mod_pos_bound n d H) as M.
  destruct (Z.ltb_spec (2 * (n mod d)) d); [lia|].
  destruct (Z.ltb_spec d (2 * (n mod d))); [lia|].
  destruct (Z.even (n / d)); lia.
Qed.

Lemma representable_from_opp (u N : Z) :
  representable_from u N -> representable_from u (- N).
Proof.
  intros (m & v & -> & Hu & Hv & Hm). exists (- m), v.
  repeat split; [lia | lia | lia | now rewrite Z.abs_opp].
Qed.

Lemma representable_from_weaken (u u' N : Z) :
  u' <= u -> representable_from u N -> representable_from u' N.
Proof.
  intros H (m & v & -> & Hu & Hv & Hm). exists m, v. repeat split; lia.
Qed.

Lemma representable_from_mul_pow2 (u N k : Z) :
  0 <= k -> representable_from u N -> representable_from (u + k) (N * 2 ^ k).
Proof.
  intros Hk (m & v & -> & Hu & Hv & Hm). exists m, (v + k).
  repeat split; try lia. rewrite Z.pow_add_r by lia. lia.
Qed.

(** Rounding leaves a number with at most 53 significant bits as it is. *)
Lemma round_quanta_exact (n d m v : Z) :
  0 < d -> 0 < m < 2 ^ 53 -> 0 <= v ->
  n * quanta = m * 2 ^ v * d ->
  round_quanta n d = m * 2 ^ v.
Proof.
  intros Hd Hm Hv E. unfold round_quanta. cbv zeta.
  rewrite E, Z.div_mul by lia.
  assert (P : 0 < 2 ^ v) by (apply Z.pow_pos_nonneg; lia).
  assert (L : Z.log2 (m * 2 ^ v) = Z.log2 m + v)
    by (rewrite Z.log2_mul_pow2; lia).
  assert (L52 : Z.log2 m <= 52).
  { assert (Z.log2 m < 53); [|lia]. apply Z.log2_lt_pow2; lia. }
  rewrite L.
  set (u := Z.max (Z.log2 m + v - 52) 0).
  assert (Hu : 0 <= u <= v) by (unfold u; lia).
  assert (Pu : 0 < 2 ^ u) by (apply Z.pow_pos_nonneg; lia).
  replace (m * 2 ^ v * d) with (m * 2 ^ (v - u) * (d * 2 ^ u)).
  - rewrite round_half_even_exact by nia.
    rewrite <- Z.mul_assoc, <- Z.pow_add_r by lia. do 2 f_equal. lia.
  - replace v with ((v - u) + u) at 2 by lia. rewrite Z.pow_add_r by lia. ring.
Qed.

Lemma round_pos_exact (n d m v : Z) :
  0 < d -> 0 < m < 2 ^ 53 -> 0 <= v ->
  n * quanta = m * 2 ^ v * d ->
  round_pos n d =
  if m * 2 ^ v <? 2 ^ 1024 * quanta then Finite (m * 2 ^ v) else Inf false.
Proof.
  intros Hd Hm Hv E. unfold round_pos. cbv zeta.
  now rewrite (round_quanta_exact n d m v).
Qed.

(** The same for either sign, with the overflow to an infinity. *)
Lemma round_ratio_exact_or_inf (n d N : Z) :
  0 < d -> representable N -> n * quanta = N * d ->
  round_ratio n d =
  if Z.abs N <? 2 ^ 1024 * quanta then Finite N else Inf (N <? 0).
Proof.
  intros Hd (m & v & -> & _ & Hv & Hm) E. unfold round_ratio.
  assert (P : 0 < 2 ^ v) by (apply Z.pow_pos_nonneg; lia).
  pose proof quanta_pos as Q.
  destruct (Z.eqb_spec n 0) as [->|Hn].
  - assert (E0 : m * 2 ^ v = 0) by nia. rewrite E0. simpl.
    now replace (0 <? 2 ^ 1024 * quanta) with true by (symmetry; apply Z.ltb_lt; lia).
  - destruct (Z.ltb_spec n 0) as [Hneg|Hpos].
    + assert (Hm0 : m < 0) by nia.
      rewrite (round_pos_exact (- n) d (- m) v) by lia.
      rewrite Z.abs_neq by nia.
      replace (- m * 2 ^ v) with (- (m * 2 ^ v)) by lia.
      replace (m * 2 ^ v <? 0) with true by (symmetry; apply Z.ltb_lt; nia).
      destruct (_ <? _); simpl; [f_equal; lia | reflexivity].
    + assert (Hm0 : 0 < m) by nia.
      rewrite (round_pos_exact n d m v) by lia.
      rewrite Z.abs_eq by nia.
      replace (m * 2 ^ v <? 0) with false by (symmetry; apply Z.ltb_ge; nia).
      reflexivity.
Qed.

Lemma round_ratio_exact (n d N : Z) :
  0 < d -> representable N -> Z.abs N < 2 ^ 1024 * quanta ->
  n * quanta = N * d ->
  round_ratio n d = Finite N.
Proof.
  intros Hd R Hfin E. rewrite (round_ratio_exact_or_inf n d N) by assumption.
  now replace (Z.abs N <? 2 ^ 1024 * quanta) with true
    by (symmetry; apply Z.ltb_lt; lia).
Qed.

(** What rounding returns: a multiple of the spacing [2^u] with at most 53
    significant bits, next to the exact quotient. *)
Lemma round_quanta_shape (n d : Z) :
  0 < n -> 0 < d ->
  exists q u,
    round_quanta n d = q * 2 ^ u /\ 0 <= u
    /\ Z.log2 (n * quanta / d) - 52 <= u <= Z.log2 (n * quanta / d)
    /\ 0 <= q <= 2 ^ 53
    /\ n * quanta / d / 2 ^ u <= q <= n * quanta / d / 2 ^ u + 1.
Proof.
  intros Hn Hd. unfold round_quanta. cbv zeta.
  set (a := n * quanta). set (u := Z.max (Z.log2 (a / d) - 52) 0).
  exists (round_half_even a (d * 2 ^ u)), u.
  pose proof quanta_pos as Q.
  assert (Ha : 0 < a) by (unfold a; nia).
  assert (Hu : 0 <= u) by (unfold u; lia).
  assert (Pu : 0 < 2 ^ u) by (apply Z.pow_pos_nonneg; lia).
  assert (Hq : 0 <= a / d) by (apply Z.div_pos; lia).
  pose proof (Z.log2_nonneg (a / d)) as L0.
  pose proof (round_half_even_bounds a (d * 2 ^ u) ltac:(nia)) as B.
  rewrite <- Z.div_div in B by lia.
  assert (U : a / d / 2 ^ u < 2 ^ 53).
  { apply Z.div_lt_upper_bound; [lia|].
    destruct (Z.eq_dec (a / d) 0) as [->|N0]; [nia|].
    pose proof (Z.log2_spec (a / d) ltac:(lia)) as [_ S].
    assert (2 ^ Z.succ (Z.log2 (a / d)) <= 2 ^ (u + 53))
      by (apply Z.pow_le_mono_r; unfold u; lia).
    rewrite Z.pow_add_r in * by lia. lia. }
  assert (0 <= a / d / 2 ^ u) by (apply Z.div_pos; lia).
  repeat split; try lia; unfold u; lia.
Qed.

(** The rounded number is within half a spacing of the exact one. *)
Lemma round_quanta_near (n d : Z) :
  0 < n -> 0 < d ->
  let u := Z.max (Z.log2 (n * quanta / d) - 52) 0 in
  (2 ^ u | round_quanta n d)
  /\ 2 * Z.abs (round_quanta n d * d - n * quanta) <= d * 2 ^ u.
Proof.
  intros Hn Hd u. unfold round_quanta. cbv zeta. fold u.
  pose proof quanta_pos as Q.
  assert (Hu : 0 <= u) by (unfold u; lia).
  assert (Pu : 0 < 2 ^ u) by (apply Z.pow_pos_nonneg; lia).
  split; [now exists (round_half_even (n * quanta) (d * 2 ^ u))|].
  pose proof (round_half_even_near (n * quanta) (d * 2 ^ u) ltac:(nia)) as B.
  replace (round_half_even (n * quanta) (d * 2 ^ u) * 2 ^ u * d)
    with (round_half_even (n * quanta) (d * 2 ^ u) * (d * 2 ^ u)) by ring.
  exact B.
Qed.

Lemma round_quanta_representable (n d : Z) :
  0 < n -> 0 < d ->
  0 <= round_quanta n d
  /\ representable_from (Z.log2 (n * quanta / d) - 52) (round_quanta n d).
Proof.
  intros Hn Hd.
  destruct (round_quanta_shape n d Hn Hd) as (q & u & -> & Hu & Lu & Hq & _).
  assert (Pu : 0 < 2 ^ u) by (apply Z.pow_pos_nonneg; lia).
  split; [nia|].
  destruct (Z.eq_dec q (2 ^ 53)) as [->|Nq].
  - exists (2 ^ 52), (u + 1). rewrite Z.pow_add_r by lia.
    repeat split; try lia.
  - exists q, u. repeat split; lia.
Qed.

(** Rounding does not go below a power of two that the quotient reaches. *)
Lemma round_quanta_lower (n d p : Z) :
  0 < n -> 0 < d -> 0 <= p -> 2 ^ p * d <= n * quanta ->
  2 ^ p <= round_quanta n d.
Proof.
  intros Hn Hd Hp Hge.
  destruct (round_quanta_shape n d Hn Hd) as (q & u & -> & Hu & Lu & Hq & Hlow & _).
  set (a := n * quanta) in *.
  assert (Pp : 0 < 2 ^ p) by (apply Z.pow_pos_nonneg; lia).
  assert (Pu : 0 < 2 ^ u) by (apply Z.pow_pos_nonneg; lia).
  assert (G : 2 ^ p <= a / d) by (apply Z.div_le_lower_bound; lia).
  pose proof (Z.log2_spec (a / d) ltac:(lia)) as [S _].
  assert (Lp : p <= Z.log2 (a / d)).
  { rewrite <- (Z.log2_pow2 p Hp). apply Z.log2_le_mono. lia. }
  set (L := Z.log2 (a / d)) in *.
  assert (E : 2 ^ L = 2 ^ (L - u) * 2 ^ u).
  { rewrite <- Z.pow_add_r by lia. f_equal. lia. }
  assert (2 ^ (L - u) <= a / d / 2 ^ u) by (apply Z.div_le_lower_bound; lia).
  assert (2 ^ p <= 2 ^ L) by (apply Z.pow_le_mono_r; lia).
  nia.
Qed.

(** Rounding does not go above a power of two that bounds the quotient. *)
Lemma round_quanta_upper (n d p : Z) :
  0 < n -> 0 < d -> 0 <= p -> n * quanta < 2 ^ p * d ->
  round_quanta n d <= 2 ^ p.
Proof.
  intros Hn Hd Hp Hlt.
  destruct (round_quanta_shape n d Hn Hd) as (q & u & -> & Hu & Lu & Hq & _ & Hup).
  set (a := n * quanta) in *.
  assert (Pp : 0 < 2 ^ p) by (apply Z.pow_pos_nonneg; lia).
  assert (Pu : 0 < 2 ^ u) by (apply Z.pow_pos_nonneg; lia).
  assert (G : a / d < 2 ^ p) by (apply Z.div_lt_upper_bound; lia).
  assert (Hq0 : 0 <= a / d) by (apply Z.div_pos; unfold a; pose proof quanta_pos; nia).
  assert (Lu' : u <= p).
  { destruct (Z.eq_dec (a / d) 0) as [E0|N0].
    - rewrite E0 in Lu. simpl in Lu. lia.
    - assert (Z.log2 (a / d) < p) by (apply Z.log2_lt_pow2; lia). lia. }
  assert (E : 2 ^ p = 2 ^ (p - u) * 2 ^ u).
  { rewrite <- Z.pow_add_r by lia. f_equal. lia. }
  assert (a / d / 2 ^ u < 2 ^ (p - u)) by (apply Z.div_lt_upper_bound; lia).
  nia.
Qed.

Lemma float_max : 2 ^ 1024 * quanta = 2 ^ 2098.
Proof. unfold quanta. now rewrite <- Z.pow_add_r by lia. Qed.

Lemma quanta_1024 : quanta = 2 ^ 1064 * 1024.
Proof. unfold quanta. change 1024 with (2 ^ 10). now rewrite <- Z.pow_add_r by lia. Qed.

(** Near the top of the range the spacing of the floats is [2^2045] quanta,
    that is [2^981] in units of 1024. *)
Lemma round_quanta_top (b : Z) :
  2 ^ 1033 <= b < 2 ^ 1034 ->
  round_quanta b 1024 = round_half_even b (2 ^ 981) * 2 ^ 2045.
Proof.
  intros Hb. unfold round_quanta. cbv zeta.
  assert (Q1 : b * quanta / 1024 = b * 2 ^ 1064).
  { rewrite quanta_1024, Z.mul_assoc. apply Z.div_mul. lia. }
  rewrite Q1, Z.log2_mul_pow2 by lia.
  assert (L : Z.log2 b = 1033) by (apply Z.log2_unique; [lia | exact Hb]).
  rewrite L. change (Z.max (1064 + 1033 - 52) 0) with 2045.
  f_equal.
  replace (1024 * 2 ^ 2045) with (2 ^ 981 * quanta).
  - apply round_half_even_scale; [reflexivity | apply quanta_pos].
  - unfold quanta. change 1024 with (2 ^ 10).
    rewrite <- !Z.pow_add_r by lia. reflexivity.
Qed.

Lemma round_quanta_below_limit (b : Z) :
  2 ^ 1033 <= b < size_limit -> round_quanta b 1024 < 2 ^ 2098.
Proof.
  unfold size_limit. intros Hb.
  rewrite round_quanta_top by lia.
  assert (H : round_half_even b (2 ^ 981) <= 2 ^ 53 - 1).
  { unfold round_half_even.
    pose proof (Z.div_mod b (2 ^ 981) ltac:(lia)) as D.
    pose proof (Z.mod_pos_bound b (2 ^ 981) ltac:(lia)) as M.
    assert (E : 2 ^ 1034 = 2 ^ 53 * 2 ^ 981) by (rewrite <- Z.pow_add_r by lia; reflexivity).
    assert (E' : 2 ^ 981 = 2 * 2 ^ 980) by (rewrite <- Z.pow_succ_r by lia; reflexivity).
    assert (Q : b / 2 ^ 981 <= 2 ^ 53 - 1).
    { assert (b / 2 ^ 981 < 2 ^ 53); [|lia]. apply Z.div_lt_upper_bound; lia. }
    destruct (Z.ltb_spec (2 * (b mod 2 ^ 981)) (2 ^ 981)) as [_|Hr]; [exact Q|].
    assert (b / 2 ^ 981 <= 2 ^ 53 - 2) by nia.
    destruct (_ <? _); [lia|]. destruct (Z.even _); lia. }
  assert (E2 : 2 ^ 2098 = 2 ^ 53 * 2 ^ 2045) by (rewrite <- Z.pow_add_r by lia; reflexivity).
  assert (0 < 2 ^ 2045) by (apply Z.pow_pos_nonneg; lia).
  nia.
Qed.

Lemma round_quanta_at_limit (b : Z) :
  size_limit <= b -> 2 ^ 2098 <= round_quanta b 1024.
Proof.
  unfold size_limit. intros Hb.
  destruct (Z.lt_ge_cases b (2 ^ 1034)) as [Hlt|Hge].
  - assert (E : 2 ^ 1034 = 2 ^ 53 * 2 ^ 981) by (rewrite <- Z.pow_add_r by lia; reflexivity).
    assert (E' : 2 ^ 981 = 2 * 2 ^ 980) by (rewrite <- Z.pow_succ_r by lia; reflexivity).
    assert (E3 : 2 ^ 1034 = 2 * 2 ^ 1033) by (rewrite <- Z.pow_succ_r by lia; reflexivity).
    assert (0 < 2 ^ 980) by (apply Z.pow_pos_nonneg; lia).
    assert (2 ^ 53 * 2 ^ 980 <= 2 ^ 1033) by (rewrite <- Z.pow_add_r by lia; reflexivity).
    rewrite round_quanta_top by nia.
    assert (R : round_half_even b (2 ^ 981) = 2 ^ 53).
    { unfold round_half_even.
      pose proof (Z.div_mod b (2 ^ 981) ltac:(lia)) as D.
      pose proof (Z.mod_pos_bound b (2 ^ 981) ltac:(lia)) as M.
      assert (Q : b / 2 ^ 981 = 2 ^ 53 - 1).
      { assert (b / 2 ^ 981 < 2 ^ 53) by (apply Z.div_lt_upper_bound; lia).
        assert (2 ^ 53 - 1 <= b / 2 ^ 981) by (apply Z.div_le_lower_bound; lia).
        lia. }
      rewrite Q.
      destruct (Z.ltb_spec (2 * (b mod 2 ^ 981)) (2 ^ 981)) as [Hr|_]; [nia|].
      destruct (_ <? _); [lia|]. reflexivity. }
    rewrite R, <- Z.pow_add_r by lia. reflexivity.
  - apply round_quanta_lower; try lia.
    rewrite quanta_1024.
    assert (E : 2 ^ 2098 = 2 ^ 1034 * 2 ^ 1064) by (rewrite <- Z.pow_add_r by lia; reflexivity).
    assert (0 < 2 ^ 1064) by (apply Z.pow_pos_nonneg; lia).
    nia.
Qed.

(** ** File sizes *)

Lemma round_ratio_finite (n d : Z) :
  0 < n -> round_quanta n d < 2 ^ 2098 ->
  round_ratio n d = Finite (round_quanta n d).
Proof.
  intros Hn Hlt. unfold round_ratio.
  replace (n =? 0) with false by (symmetry; apply Z.eqb_neq; lia).
  replace (n <? 0) with false by (symmetry; apply Z.ltb_ge; lia).
  unfold round_pos. cbv zeta. rewrite float_max.
  now replace (round_quanta n d <? 2 ^ 2098) with true
    by (symmetry; apply Z.ltb_lt; lia).
Qed.

Lemma round_ratio_infinite (n d : Z) :
  0 < n -> 2 ^ 2098 <= round_quanta n d -> round_ratio n d = Inf false.
Proof.
  intros Hn Hge. unfold round_ratio.
  replace (n =? 0) with false by (symmetry; apply Z.eqb_neq; lia).
  replace (n <? 0) with false by (symmetry; apply Z.ltb_ge; lia).
  unfold round_pos. cbv zeta. rewrite float_max.
  now replace (round_quanta n d <? 2 ^ 2098) with false
    by (symmetry; apply Z.ltb_ge; lia).
Qed.

Lemma round_quanta_1024_finite (b : Z) :
  1024 <= b < size_limit -> round_quanta b 1024 < 2 ^ 2098.
Proof.
  intros Hb. destruct (Z.lt_ge_cases b (2 ^ 1033)) as [Hs|Hl].
  - assert (Hlt : b * quanta < 2 ^ 2097 * 1024).
    { rewrite quanta_1024.
      assert (2 ^ 2097 = 2 ^ 1033 * 2 ^ 1064)
        by (rewrite <- !Z.pow_add_r by lia; reflexivity).
      assert (0 < 2 ^ 1064) by (apply Z.pow_pos_nonneg; lia).
      nia. }
    pose proof (round_quanta_upper b 1024 2097 ltac:(lia) ltac:(lia) ltac:(lia) Hlt).
    assert (2 ^ 2097 < 2 ^ 2098) by (apply Z.pow_lt_mono_r; lia). lia.
  - apply round_quanta_below_limit. lia.
Qed.

(** Dividing a float by 1024 is exact as long as its lowest bit stays above
    one quantum. *)
Lemma float_truediv_1024 (u N : Z) :
  10 <= u -> representable_from u N -> Z.abs N < 2 ^ 1024 * quanta ->
  exists N', N = N' * 1024
             /\ float_truediv (Finite N) 1024 = Finite N'
             /\ representable_from (u - 10) N'.
Proof.
  intros Hu (m & v & -> & Huv & Hv & Hm) Hfin.
  assert (E : m * 2 ^ v = m * 2 ^ (v - 10) * 1024).
  { change 1024 with (2 ^ 10). rewrite <- Z.mul_assoc, <- Z.pow_add_r by lia.
    do 2 f_equal. lia. }
  assert (R : representable_from (u - 10) (m * 2 ^ (v - 10)))
    by (exists m, (v - 10); repeat split; lia).
  exists (m * 2 ^ (v - 10)). split; [exact E|]. split; [|exact R].
  unfold float_truediv. apply round_ratio_exact.
  - pose proof quanta_pos. lia.
  - eapply representable_from_weaken; [|exact R]. lia.
  - lia.
  - rewrite E. ring.
Qed.

(** The first division changes the byte count by at most one part in
    [2^53]. *)
Lemma round_quanta_1024_near (b : Z) :
  1024 <= b ->
  exists b', round_quanta b 1024 * 1024 = b' * quanta
             /\ 2 ^ 53 * Z.abs (b' - b) <= b.
Proof.
  intros Hb. pose proof quanta_pos as Q.
  destruct (Z.lt_ge_cases b (2 ^ 53)) as [Hs|Hl].
  - exists b. split; [|rewrite Z.sub_diag; simpl; lia].
    rewrite (round_quanta_exact b 1024 b 1064); try lia.
    + rewrite quanta_1024. ring.
    + rewrite quanta_1024. ring.
  - pose proof (round_quanta_near b 1024 ltac:(lia) ltac:(lia)) as Near.
    assert (Q1 : b * quanta / 1024 = b * 2 ^ 1064).
    { rewrite quanta_1024, Z.mul_assoc. apply Z.div_mul. lia. }
    rewrite Q1, Z.log2_mul_pow2 in Near by lia.
    assert (L53 : 53 <= Z.log2 b).
    { change 53 with (Z.log2 (2 ^ 53)). apply Z.log2_le_mono. lia. }
    pose proof (Z.log2_spec b ltac:(lia)) as [Lb _].
    set (L := Z.log2 b) in *.
    replace (Z.max (1064 + L - 52) 0) with (L + 1012) in Near by lia.
    cbv zeta in Near. destruct Near as [[q Eq] Near].
    set (u := L + 1012) in *.
    assert (P : 2 ^ u = 2 ^ (L - 52) * 2 ^ 1064)
      by (rewrite <- Z.pow_add_r by lia; f_equal; lia).
    assert (P64 : 0 < 2 ^ 1064) by (apply Z.pow_pos_nonneg; lia).
    assert (PL : 2 ^ L = 2 ^ 53 * 2 ^ (L - 53))
      by (rewrite <- Z.pow_add_r by lia; f_equal; lia).
    assert (PL' : 2 ^ (L - 52) = 2 * 2 ^ (L - 53))
      by (rewrite <- Z.pow_succ_r by lia; f_equal; lia).
    assert (P53 : 0 < 2 ^ (L - 53)) by (apply Z.pow_pos_nonneg; lia).
    exists (q * 2 ^ (L - 52)). split.
    + rewrite Eq, P, quanta_1024. ring.
    + rewrite Eq, P, quanta_1024 in Near.
      replace (q * (2 ^ (L - 52) * 2 ^ 1064) * 1024 - b * (2 ^ 1064 * 1024))
        with ((q * 2 ^ (L - 52) - b) * (2 ^ 1064 * 1024)) in Near by ring.
      rewrite Z.abs_mul, (Z.abs_eq (2 ^ 1064 * 1024)) in Near by lia.
      assert (2 * Z.abs (q * 2 ^ (L - 52) - b) <= 2 ^ (L - 52)) by nia.
      nia.
Qed.

(** The first division, of the [int] by 1024. *)
Lemma int_truediv_1024 (b : Z) :
  1024 <= b < size_limit ->
  exists N, int_truediv b 1024 = Ok (Finite N)
            /\ representable_from 30 N
            /\ 0 <= N < 2 ^ 1024 * quanta
            /\ (b < 2 ^ 53 -> N * 1024 = b * quanta)
            /\ (2 ^ 53 <= b -> 2 ^ 1117 <= N)
            /\ (exists b', N * 1024 = b' * quanta /\ 2 ^ 53 * Z.abs (b' - b) <= b).
Proof.
  intros Hb. pose proof quanta_pos as Q. unfold int_truediv.
  pose proof (round_quanta_1024_finite b Hb) as Hfin.
  rewrite (round_ratio_finite b 1024) by lia.
  exists (round_quanta b 1024). split; [reflexivity|].
  destruct (round_quanta_representable b 1024 ltac:(lia) ltac:(lia)) as [N0 R].
  assert (Q1 : b * quanta / 1024 = b * 2 ^ 1064).
  { rewrite quanta_1024, Z.mul_assoc. apply Z.div_mul. lia. }
  rewrite Q1 in R.
  assert (L : Z.log2 (b * 2 ^ 1064) = Z.log2 b + 1064)
    by (rewrite Z.log2_mul_pow2; lia).
  rewrite L in R.
  assert (L10 : 10 <= Z.log2 b).
  { change 10 with (Z.log2 (2 ^ 10)). apply Z.log2_le_mono. simpl. lia. }
  split; [eapply representable_from_weaken; [|exact R]; lia|].
  split; [rewrite float_max; lia|].
  split; [|split; [|apply round_quanta_1024_near; lia]].
  - intros H53.
    assert (X : round_ratio b 1024 = Finite (b * 2 ^ 1064)).
    { apply round_ratio_exact.
      - lia.
      - exists b, 1064. repeat split; lia.
      - rewrite float_max, Z.abs_eq by nia.
        assert (2 ^ 2098 = 2 ^ 1034 * 2 ^ 1064)
          by (rewrite <- Z.pow_add_r by lia; reflexivity).
        assert (0 < 2 ^ 1064) by (apply Z.pow_pos_nonneg; lia).
        assert (2 ^ 53 < 2 ^ 1034) by (apply Z.pow_lt_mono_r; lia).
        nia.
      - rewrite quanta_1024. ring. }
    rewrite (round_ratio_finite b 1024) in X by lia.
    assert (X' : round_quanta b 1024 = b * 2 ^ 1064) by congruence.
    rewrite X', quanta_1024. ring.
  - intros H53. apply round_quanta_lower; try lia.
    rewrite quanta_1024.
    assert (2 ^ 1117 = 2 ^ 53 * 2 ^ 1064)
      by (rewrite <- Z.pow_add_r by lia; reflexivity).
    assert (0 < 2 ^ 1064) by (apply Z.pow_pos_nonneg; lia).
    nia.
Qed.

Lemma int_truediv_1024_overflow (b : Z) :
  size_limit <= b -> int_truediv b 1024 = Raise OverflowError.
Proof.
  intros Hb. unfold int_truediv.
  assert (0 < size_limit) by reflexivity.
  now rewrite round_ratio_infinite by (try apply round_quanta_at_limit; lia).
Qed.

Lemma size_loop_eq (fuel : nat) (v : num) (j : nat) :
  size_loop fuel v j =
  if num_ge v 1024 && (j <? length units - 1)%nat then
    match fuel with
    | O => None
    | S fuel' =>
        match num_truediv v 1024 with
        | Ok v' => size_loop fuel' v' (j + 1)
        | Raise e => Some (Raise e)
        end
    end
  else Some (Ok (v, j)).
Proof. destruct fuel; reflexivity. Qed.

(** The loop on a float, [r] units before the last one. *)
Lemma size_loop_float (r : nat) :
  forall (j fuel : nat) (N : Z),
    (j + r = 4)%nat -> (r <= fuel)%nat ->
    representable_from (10 * Z.of_nat r) N -> 0 <= N < 2 ^ 1024 * quanta ->
    exists (k : nat) (N' : Z),
      size_loop fuel (Float (Finite N)) j = Some (Ok (Float (Finite N'), k))
      /\ (j <= k <= 4)%nat
      /\ N = N' * 1024 ^ Z.of_nat (k - j)
      /\ ((k < 4)%nat -> N' < 1024 * quanta)
      /\ ((j < k)%nat -> quanta <= N')
      /\ 0 <= N'.
Proof.
  pose proof quanta_pos as Q.
  induction r as [|r IH]; intros j fuel N Hj Hf R HN; rewrite size_loop_eq.
  - replace (j <? length units - 1)%nat with false
      by (symmetry; apply Nat.ltb_ge; simpl; lia).
    rewrite andb_false_r. exists j, N.
    replace (j - j)%nat with O by lia. repeat split; try lia.
  - replace (j <? length units - 1)%nat with true
      by (symmetry; apply Nat.ltb_lt; simpl; lia).
    rewrite andb_true_r. cbn [num_ge float_ge].
    destruct (Z.leb_spec (1024 * quanta) N) as [Hge|Hlt].
    + destruct fuel as [|fuel]; [lia|].
      destruct (float_truediv_1024 (10 * Z.of_nat (S r)) N) as (N1 & E & T & R1);
        [lia | exact R | lia |].
      cbn [num_truediv]. rewrite T.
      replace (10 * Z.of_nat (S r) - 10) with (10 * Z.of_nat r) in R1 by lia.
      destruct (IH (j + 1)%nat fuel N1 ltac:(lia) ltac:(lia) R1 ltac:(lia))
        as (k & N' & Hl & Hk & EN & Hstop & Hprev & H0).
      exists k, N'. split; [exact Hl|]. split; [lia|]. split; [|split; [exact Hstop|split]].
      * rewrite E, EN. replace (k - j)%nat with (S (k - (j + 1)))%nat by lia.
        rewrite Nat2Z.inj_succ, Z.pow_succ_r by lia. ring.
      * intros _. destruct (Nat.eq_dec k (j + 1)) as [->|Hne]; [|apply Hprev; lia].
        replace (j + 1 - (j + 1))%nat with O in EN by lia.
        change (1024 ^ Z.of_nat 0) with 1 in EN. lia.
      * exact H0.
    + exists j, N. replace (j - j)%nat with O by lia.
      repeat split; try lia.
Qed.

Lemma float_of_int_small (b : Z) :
  Z.abs b < 2 ^ 53 -> float_of_int b = Ok (Finite (b * quanta)).
Proof.
  intros H. unfold float_of_int, int_truediv.
  rewrite (round_ratio_exact b 1 (b * quanta)); [reflexivity | lia | | | ring].
  - exists b, 1074. unfold quanta. repeat split; lia.
  - rewrite Z.abs_mul, (Z.abs_eq quanta) by (pose proof quanta_pos; lia).
    pose proof quanta_pos.
    assert (2 ^ 53 < 2 ^ 1024) by (apply Z.pow_lt_mono_r; lia). nia.
Qed.

(** What the loop leaves for an [int]: the unit index [k] and a number that
    is rendered as [N] quanta. *)
Lemma size_loop_int (b : Z) :
  0 <= b < size_limit ->
  exists (k : nat) (v : num) (N : Z),
    size_loop (length units) (Int b) 0 = Some (Ok (v, k))
    /\ (k <= 4)%nat
    /\ ((k < 4)%nat -> b < 1024 ^ (Z.of_nat k + 1))
    /\ ((0 < k)%nat -> 1024 ^ Z.of_nat k <= b)
    /\ num_format_2f v = Ok (format_2f (Finite N))
    /\ 0 <= N
    /\ (exists b', N * 1024 ^ Z.of_nat k = b' * quanta
                   /\ 2 ^ 53 * Z.abs (b' - b) <= b).
Proof.
  intros Hb. pose proof quanta_pos as Q. rewrite size_loop_eq.
  cbn [num_ge]. change (0 <? length units - 1)%nat with true. rewrite andb_true_r.
  destruct (Z.leb_spec 1024 b) as [Hge|Hlt].
  - change (length units) with 5%nat. cbv iota.
    destruct (int_truediv_1024 b ltac:(lia))
      as (N1 & T & R & HN & Hex & Hbig & b' & Eb' & Hnear).
    cbn [num_truediv]. rewrite T. cbn [bind].
    destruct (size_loop_float 3 1 4 N1 ltac:(lia) ltac:(lia) R HN)
      as (k & N' & Hl & Hk & EN & Hstop & Hprev & H0).
    change (0 + 1)%nat with 1%nat. exists k, (Float (Finite N')), N'.
    split; [exact Hl|]. split; [lia|].
    assert (P : 0 < 1024 ^ Z.of_nat (k - 1)) by (apply Z.pow_pos_nonneg; lia).
    assert (Ek : 1024 ^ Z.of_nat k = 1024 ^ Z.of_nat (k - 1) * 1024).
    { replace k with (S (k - 1)) at 1 by lia.
      rewrite Nat2Z.inj_succ, Z.pow_succ_r by lia. ring. }
    assert (Big : 2 ^ 53 <= b -> k = 4%nat).
    { intros H53. specialize (Hbig H53).
      destruct (Nat.eq_dec k 4) as [|Hne]; [assumption|exfalso].
      specialize (Hstop ltac:(lia)).
      assert (1024 ^ Z.of_nat (k - 1) <= 1024 ^ 2)
        by (apply Z.pow_le_mono_r; lia).
      assert (N1 < 1024 * quanta * 1024 ^ 2) by nia.
      assert (1024 * quanta * 1024 ^ 2 = 2 ^ 1104)
        by (unfold quanta; change 1024 with (2 ^ 10);
            rewrite <- Z.pow_mul_r, <- !Z.pow_add_r by lia; reflexivity).
      assert (2 ^ 1104 < 2 ^ 1117) by (apply Z.pow_lt_mono_r; lia).
      lia. }
    split; [|split; [|split; [reflexivity|split; [exact H0|]]]].
    + intros Hk4. destruct (Z.lt_ge_cases b (2 ^ 53)) as [Hs|Hl']; [|apply Big in Hl'; lia].
      specialize (Hex Hs). specialize (Hstop Hk4).
      rewrite Z.pow_add_r, Ek by lia. change (1024 ^ 1) with 1024. nia.
    + intros _. destruct (Z.lt_ge_cases b (2 ^ 53)) as [Hs|Hl'].
      * specialize (Hex Hs).
        destruct (Nat.eq_dec k 1) as [->|Hne]; [change (1024 ^ Z.of_nat 1) with 1024; lia|].
        specialize (Hprev ltac:(lia)). rewrite Ek. nia.
      * assert (1024 ^ Z.of_nat k <= 1024 ^ 4) by (apply Z.pow_le_mono_r; lia).
        assert (1024 ^ 4 <= 2 ^ 53) by (simpl; lia). lia.
    + exists b'. split; [|exact Hnear]. rewrite Ek. nia.
  - exists O, (Int b), (b * quanta).
    split; [reflexivity|]. split; [lia|]. split; [intros _; simpl; lia|].
    split; [lia|]. split.
    + cbn [num_format_2f]. rewrite float_of_int_small; [reflexivity|].
      rewrite Z.abs_eq by lia. assert (1024 < 2 ^ 53) by (simpl; lia). lia.
    + split; [nia|]. exists b. split; [change (1024 ^ Z.of_nat 0) with 1; lia|].
      rewrite Z.sub_diag. simpl. lia.
Qed.

Lemma format_2f_nonneg (N : Z) :
  0 <= N ->
  format_2f (Finite N) =
  let h := round_half_even (N * 100) quanta in
  digits (h / 100) ++ lit "." ++ zfill 2 (digits (h mod 100)).
Proof.
  intros H. unfold format_2f. rewrite Z.abs_eq by assumption.
  now replace (N <? 0) with false by (symmetry; apply Z.ltb_ge; lia).
Qed.

Lemma units_nth (k : nat) : (k <= 4)%nat -> exists unit, nth_error units k = Some unit.
Proof.
  intros H. do 5 (destruct k as [|k]; [simpl; eauto|]). lia.
Qed.

(** A byte count whose quotient by 1024 is beyond the floats. *)
Lemma bytes_to_formatted_size_overflow :
  bytes_to_formatted_size (2 ^ 1100) = Some (Raise OverflowError).
Proof. vm_compute. reflexivity. Qed.

(** C6, as the code has it: for every non-negative byte count below
    [size_limit] = 2^1034 - 2^980 the unit is the one reached by dividing
    by 1024 while the value is at least 1024 and the last unit is not
    reached: its index [k] has [1024^k <= b] unless [k = 0] and
    [b < 1024^(k+1)] unless [k = 4]; the text is the number, in hundredths
    [h], written with exactly two decimal digits, one space and the unit
    symbol; the number is [b' / 1024^k] rounded to the nearest hundredth,
    with [b'] the byte count as the first division rounds it, within one
    part in [2^53] of [b] and equal to it up to [2^53].  From [size_limit]
    on, the first division raises [OverflowError].  0 gives [0.00 B], 1536
    gives [1.50 KB] and [1024^4] gives [1.00 TB]. *)
Theorem bytes_to_formatted_size_units :
  (forall b : Z, 0 <= b < size_limit ->
     exists (k : nat) (h b' : Z) (unit : str),
       bytes_to_formatted_size b =
         Some (Ok ((digits (h / 100) ++ lit "." ++ zfill 2 (digits (h mod 100)))
                   ++ lit " " ++ unit))
       /\ nth_error units k = Some unit
       /\ ((k < 4)%nat -> b < 1024 ^ (Z.of_nat k + 1))
       /\ ((0 < k)%nat -> 1024 ^ Z.of_nat k <= b)
       /\ 0 <= h
       /\ length (zfill 2 (digits (h mod 100))) = 2%nat
       /\ h = round_half_even (100 * b') (1024 ^ Z.of_nat k)
       /\ 2 ^ 53 * Z.abs (b' - b) <= b
       /\ (b < 2 ^ 53 -> b' = b))
  /\ (forall b : Z, size_limit <= b ->
        bytes_to_formatted_size b = Some (Raise OverflowError))
  /\ bytes_to_formatted_size 0 = Some (Ok (lit "0.00 B"))
  /\ bytes_to_formatted_size 1536 = Some (Ok (lit "1.50 KB"))
  /\ bytes_to_formatted_size (1024 ^ 4) = Some (Ok (lit "1.00 TB")).
Proof.
  split; [|split; [|by_evaluation]].
  - intros b Hb. pose proof quanta_pos as Q.
    destruct (size_loop_int b Hb)
      as (k & v & N & Hl & Hk & Hlt & Hge & Hf & HN & b' & Hex & Hnear).
    destruct (units_nth k Hk) as [unit Hu].
    set (h := round_half_even (N * 100) quanta).
    assert (Hh : 0 <= h).
    { pose proof (round_half_even_bounds (N * 100) quanta Q) as [B _].
      assert (0 <= N * 100 / quanta) by (apply Z.div_pos; lia). unfold h. lia. }
    exists k, h, b', unit.
    split; [|split; [exact Hu|split; [exact Hlt|split; [exact Hge|split; [exact Hh|
      split; [|split; [|split; [exact Hnear|]]]]]]]].
    + unfold bytes_to_formatted_size, bytes_to_formatted_size_fuel.
      rewrite Hl. cbn [bind fst snd]. rewrite Hf. cbn [bind].
      rewrite (index_list_some _ _ _ Hu). cbn [bind].
      now rewrite format_2f_nonneg by assumption.
    + apply zfill_length_small. apply Z.mod_pos_bound. lia.
    + unfold h.
      assert (P : 0 < 1024 ^ Z.of_nat k) by (apply Z.pow_pos_nonneg; lia).
      rewrite <- (round_half_even_scale (N * 100) quanta (1024 ^ Z.of_nat k)) by lia.
      replace (N * 100 * 1024 ^ Z.of_nat k) with (100 * b' * quanta) by lia.
      rewrite (Z.mul_comm quanta). apply round_half_even_scale; lia.
    + intros Hs. lia.
  - intros b Hb. assert (0 < size_limit) by reflexivity.
    unfold bytes_to_formatted_size, bytes_to_formatted_size_fuel.
    change (length units) with 5%nat. rewrite size_loop_eq.
    cbn [num_ge]. replace (1024 <=? b) with true
      by (symmetry; apply Z.leb_le; assert (1024 <= size_limit) by (vm_compute; discriminate); lia).
    change (0 <? length units - 1)%nat with true. cbn [andb num_truediv].
    now rewrite int_truediv_1024_overflow.
Qed.

Lemma bytes_to_formatted_size_units_witness :
  exists (k : nat) (h b' : Z) (unit : str),
    bytes_to_formatted_size 123456789 =
      Some (Ok ((digits (h / 100) ++ lit "." ++ zfill 2 (digits (h mod 100)))
                ++ lit " " ++ unit))
    /\ nth_error units k = Some unit
    /\ ((k < 4)%nat -> 123456789 < 1024 ^ (Z.of_nat k + 1))
    /\ ((0 < k)%nat -> 1024 ^ Z.of_nat k <= 123456789)
    /\ 0 <= h
    /\ length (zfill 2 (digits (h mod 100))) = 2%nat
    /\ h = round_half_even (100 * b') (1024 ^ Z.of_nat k)
    /\ 2 ^ 53 * Z.abs (b' - 123456789) <= 123456789
    /\ (123456789 < 2 ^ 53 -> b' = 123456789).
Proof.
  apply (proj1 bytes_to_formatted_size_units 123456789).
  split; [lia | reflexivity].
Defined.

(** ** Parsing a size *)

Lemma split_ws_from_word (w cur rest : str) :
  Forall (fun c => isspace c = false) w ->
  split_ws_from cur (w ++ rest) = split_ws_from (rev w ++ cur) rest.
Proof.
  intros H. revert cur. induction H as [|c w Hc _ IH]; intros cur; [reflexivity|].
  simpl. rewrite Hc, IH. now rewrite <- app_assoc.
Qed.

Lemma split_ws_from_space (w rest : str) :
  all_space w -> split_ws_from [] (w ++ rest) = split_ws_from [] rest.
Proof. induction 1 as [|c w Hc _ IH]; [reflexivity|]. simpl. now rewrite Hc. Qed.

Lemma rev_nonempty {A : Type} (l : list A) : l <> [] -> rev l <> [].
Proof.
  intros N E. apply N. rewrite <- (rev_involutive l), E. reflexivity.
Qed.

Lemma split_ws_from_flush (cur : str) :
  cur <> [] -> split_ws_from cur [] = [rev cur].
Proof. destruct cur; [congruence | reflexivity]. Qed.

Lemma split_ws_from_flush_space (cur rest : str) (c : ascii) :
  cur <> [] -> isspace c = true ->
  split_ws_from cur (c :: rest) = rev cur :: split_ws_from [] rest.
Proof. intros N H. simpl. rewrite H. destruct cur; [congruence | reflexivity]. Qed.

(** Two words with whitespace between them are the two tokens. *)
Lemma split_ws_two (a sep b : str) :
  Forall (fun c => isspace c = false) a -> a <> [] ->
  Forall (fun c => isspace c = false) b -> b <> [] ->
  all_space sep -> sep <> [] ->
  split_ws (a ++ sep ++ b) = [a; b].
Proof.
  intros Ha Na Hb Nb Hs Ns. unfold split_ws.
  rewrite split_ws_from_word, app_nil_r by assumption.
  destruct sep as [|c sep]; [congruence|]. inversion Hs as [|? ? Hc Hs']; subst.
  simpl app. rewrite split_ws_from_flush_space;
    [|now apply rev_nonempty|assumption].
  rewrite rev_involutive. f_equal.
  rewrite split_ws_from_space by assumption.
  rewrite <- (app_nil_r b) at 1.
  rewrite split_ws_from_word, app_nil_r by assumption.
  rewrite split_ws_from_flush by now apply rev_nonempty.
  now rewrite rev_involutive.
Qed.

Lemma list_index_units (unit : str) (k : nat) :
  list_index unit units = Ok k ->
  (k <= 4)%nat /\ unit <> [] /\ Forall (fun c => isspace c = false) unit.
Proof.
  unfold units. simpl. unfold str_eqb.
  repeat (destruct (list_eq_dec ascii_dec unit _) as [->|_];
          [intros [= <-]; repeat split; try lia; try discriminate;
           repeat constructor|]).
  discriminate.
Qed.

Lemma round_ratio_representable (n d N : Z) :
  0 < d -> round_ratio n d = Finite N -> representable N.
Proof.
  intros Hd. unfold round_ratio, round_pos. cbv zeta.
  destruct (Z.eqb_spec n 0) as [->|Hn].
  - intros [= <-]. exists 0, 0. repeat split; lia.
  - destruct (Z.ltb_spec n 0) as [Hneg|Hpos].
    + destruct (round_quanta_representable (- n) d ltac:(lia) Hd) as [_ R].
      destruct (_ <? _); [|discriminate]. simpl. intros [= <-].
      apply representable_from_opp.
      destruct R as (m & v & E & _ & Hv & Hm). exists m, v. repeat split; lia.
    + destruct (round_quanta_representable n d ltac:(lia) Hd) as [_ R].
      destruct (_ <? _); [|discriminate]. intros [= <-].
      destruct R as (m & v & E & _ & Hv & Hm). exists m, v. repeat split; lia.
Qed.

Lemma fneg_finite (x : float) (N : Z) : fneg x = Finite N -> x = Finite (- N).
Proof. destruct x; simpl; try discriminate. intros [= <-]. f_equal. lia. Qed.

(** The float of a literal has at most 53 significant bits. *)
Lemma py_float_representable (s : str) (N : Z) :
  py_float s = Ok (Finite N) -> representable N.
Proof.
  unfold py_float. destruct (signed (literal_strip s)) as [neg body].
  destruct (_ || _); [discriminate|].
  destruct (str_eqb _ _); [discriminate|].
  destruct (decimal_literal body) as [[M E]|]; [|discriminate].
  assert (G : forall n d, 0 < d ->
    Ok (if neg then fneg (round_ratio n d) else round_ratio n d) = Ok (Finite N) ->
    representable N).
  { intros n d Hd [= H]. destruct neg.
    - apply fneg_finite in H. apply round_ratio_representable in H; [|assumption].
      apply representable_from_opp in H. now rewrite Z.opp_involutive in H.
    - now apply round_ratio_representable in H. }
  destruct (Z.leb_spec 0 E); cbv beta iota.
  - apply (G (M * 10 ^ E) 1). lia.
  - apply (G M (10 ^ (- E))). apply Z.pow_pos_nonneg; lia.
Qed.

Lemma py_float_nonempty (N : Z) : py_float [] <> Ok (Finite N).
Proof. discriminate. Qed.

(** Multiplying a float by a power of 1024 is exact, up to the overflow
    to an infinity. *)
Lemma float_mul_1024 (N : Z) (k : nat) :
  representable N ->
  float_mul (Finite N) (1024 ^ Z.of_nat k) =
  if Z.abs N * 1024 ^ Z.of_nat k <? 2 ^ 1024 * quanta
  then Finite (N * 1024 ^ Z.of_nat k)
  else Inf (N * 1024 ^ Z.of_nat k <? 0).
Proof.
  intros R. unfold float_mul.
  assert (E : 1024 ^ Z.of_nat k = 2 ^ (10 * Z.of_nat k))
    by (change 1024 with (2 ^ 10); now rewrite <- Z.pow_mul_r by lia).
  assert (P : 0 < 1024 ^ Z.of_nat k) by (apply Z.pow_pos_nonneg; lia).
  rewrite (round_ratio_exact_or_inf _ _ (N * 1024 ^ Z.of_nat k)).
  - now rewrite Z.abs_mul, (Z.abs_eq (1024 ^ _)) by lia.
  - apply quanta_pos.
  - rewrite E. eapply representable_from_weaken;
      [|apply representable_from_mul_pow2; [|exact R]]; lia.
  - reflexivity.
Qed.

(** The code truncates where the specification rounds: 1.75 is a float,
    the nearest integer is 2, the result is 1. *)
Lemma formatted_size_to_bytes_not_rounded :
  py_float (lit "1.75") = Ok (Finite (7 * quanta / 4))
  /\ 7 * quanta / 4 * 4 = 7 * quanta
  /\ round_half_even (7 * 1024 ^ 0) 4 = 2
  /\ formatted_size_to_bytes (lit "1.75 B") = Ok 1
  /\ formatted_size_to_bytes (lit "1.75 B") <> Ok (round_half_even (7 * 1024 ^ 0) 4).
Proof. by_evaluation. Qed.

(** C5, as the code has it: for a size string made of a magnitude and a
    unit of index [k] in [B, KB, MB, GB, TB], separated by whitespace, the
    result is the product of the float of the magnitude ([N] quanta) by
    [1024^k], truncated toward zero; the product itself is exact.  A product
    too large for a float raises [OverflowError].  [2.50 MB] gives 2621440
    and [1.75 B] gives 1. *)
Theorem formatted_size_to_bytes_truncates :
  (forall (size sep unit : str) (N : Z) (k : nat),
     Forall (fun c => isspace c = false) size ->
     all_space sep -> sep <> [] ->
     py_float size = Ok (Finite N) ->
     list_index unit units = Ok k ->
     (Z.abs N * 1024 ^ Z.of_nat k < 2 ^ 1024 * quanta ->
      formatted_size_to_bytes (size ++ sep ++ unit)
      = Ok (Z.quot (N * 1024 ^ Z.of_nat k) quanta))
     /\ (2 ^ 1024 * quanta <= Z.abs N * 1024 ^ Z.of_nat k ->
         formatted_size_to_bytes (size ++ sep ++ unit) = Raise OverflowError))
  /\ formatted_size_to_bytes (lit "2.50 MB") = Ok 2621440
  /\ formatted_size_to_bytes (lit "1.75 B") = Ok 1
  /\ formatted_size_to_bytes (lit "-1.75 KB") = Ok (-1792)
  /\ formatted_size_to_bytes (lit "0.9 KB") = Ok 921.
Proof.
  split; [|by_evaluation].
  intros size sep unit N k Hsize Hsep Nsep Hf Hu.
  destruct (list_index_units unit k Hu) as (Hk & Nu & Su).
  assert (Nsize : size <> []) by (intros ->; now apply py_float_nonempty in Hf).
  pose proof (py_float_representable size N Hf) as R.
  unfold formatted_size_to_bytes.
  rewrite split_ws_two by assumption.
  rewrite Hf. cbn [bind]. rewrite Hu. cbn [bind].
  rewrite float_mul_1024 by assumption.
  split; intros Hfin.
  - now replace (_ <? _) with true by (symmetry; apply Z.ltb_lt; lia).
  - now replace (Z.abs N * 1024 ^ Z.of_nat k <? 2 ^ 1024 * quanta) with false
      by (symmetry; apply Z.ltb_ge; lia).
Qed.

Lemma formatted_size_to_bytes_truncates_witness :
  formatted_size_to_bytes (lit "2.50" ++ lit " " ++ lit "MB")
  = Ok (Z.quot (5 * 2 ^ 1073 * 1024 ^ Z.of_nat 2) quanta).
Proof.
  apply (proj1 formatted_size_to_bytes_truncates
           (lit "2.50") (lit " ") (lit "MB") (5 * 2 ^ 1073) 2%nat).
  - repeat constructor.
  - repeat constructor.
  - discriminate.
  - vm_compute. reflexivity.
  - reflexivity.
  - vm_compute. reflexivity.
Defined.

(** * More of the code

    Properties of the functions above that the statements so far leave
    out, and of [get_audio_files], [select_random_files],
    [read_text_blocks], [write_first_lines_to_file] and the fields that
    [process_data] computes. *)

(** ** Joining the pieces of a split *)

Lemma split_fuel_nonempty (fuel : nat) (sep s : str) : split_fuel fuel sep s <> [].
Proof. destruct fuel; simpl; [discriminate|]. destruct (cut sep s) as [[a b]|]; discriminate. Qed.

Lemma join_cons (sep p : str) (rest : list str) :
  rest <> [] -> join sep (p :: rest) = p ++ sep ++ join sep rest.
Proof. destruct rest; [congruence | reflexivity]. Qed.

Lemma join_split_fuel (fuel : nat) (sep s : str) :
  join sep (split_fuel fuel sep s) = s.
Proof.
  revert s. induction fuel as [|fuel IH]; intros s; [reflexivity|].
  simpl split_fuel. destruct (cut sep s) as [[a b]|] eqn:C; [|reflexivity].
  rewrite join_cons by apply split_fuel_nonempty.
  rewrite IH. apply cut_sound in C. destruct C as [-> _]. reflexivity.
Qed.

Lemma join_split (sep s : str) : join sep (split sep s) = s.
Proof. apply join_split_fuel. Qed.

Lemma first_cut_no_sep (sep s a b : str) :
  sep <> [] -> first_cut sep s a b -> ~ occurs sep a.
Proof.
  intros Hs [E M] (x & y & Ea). subst a.
  specialize (M x (y ++ sep ++ b)). rewrite E, <- !app_assoc in M.
  specialize (M eq_refl). rewrite !length_app in M.
  destruct sep; [congruence | simpl in M; lia].
Qed.

Lemma split_fuel_no_sep (sep : str) (fuel : nat) :
  sep <> [] -> forall s, (length s < fuel)%nat ->
  Forall (fun p => ~ occurs sep p) (split_fuel fuel sep s).
Proof.
  intros Hs. induction fuel as [|fuel IH]; intros s L; [lia|].
  simpl. destruct (cut sep s) as [[a b]|] eqn:C.
  - apply cut_sound in C. constructor.
    + eapply first_cut_no_sep; eauto.
    + apply IH. apply (first_cut_shorter sep Hs) in C. lia.
  - constructor; [now apply cut_none | constructor].
Qed.

Lemma split_no_sep (sep s : str) :
  sep <> [] -> Forall (fun p => ~ occurs sep p) (split sep s).
Proof. intros Hs. apply split_fuel_no_sep; [assumption | lia]. Qed.

Lemma occurs_char (c : ascii) (s : str) : occurs [c] s <-> In c s.
Proof.
  split.
  - intros (a & b & ->). apply in_or_app. right. now left.
  - intros H. apply in_split in H as (a & b & ->). now exists a, b.
Qed.

(** ** Durations *)

Lemma zfill_1_digits (n : Z) : zfill 1 (digits n) = digits n.
Proof.
  apply zfill_wide. pose proof (digits_nonempty n).
  destruct (digits n); [congruence | simpl; lia].
Qed.

Lemma py_int_minus_digits (k : Z) :
  0 <= k < digit_limit -> py_int ("-"%char :: digits k) = Ok (- k).
Proof.
  intros H. unfold py_int.
  rewrite literal_strip_id.
  - cbn [signed]. rewrite parse_all_digits;
      [|apply digits_all_digits | left; apply digits_nonempty].
    rewrite filter_all_digits by apply digits_all_digits.
    replace (max_str_digits <? length (digits k))%nat with false.
    + now rewrite digits_value_digits by lia.
    + symmetry. apply Nat.ltb_ge.
      apply digits_length_le; [unfold max_str_digits; lia | exact H].
  - constructor; [reflexivity|]. apply all_digits_no_space, digits_all_digits.
Qed.

(** [int] reads back every rendered field, of either sign. *)
Lemma py_int_pad_02 (n : Z) : Z.abs n < digit_limit -> py_int (pad_02 n) = Ok n.
Proof.
  intros H. destruct (Z.lt_ge_cases n 0) as [Hn|Hn].
  - unfold pad_02. replace (n <? 0) with true by (symmetry; apply Z.ltb_lt; lia).
    rewrite zfill_1_digits, py_int_minus_digits by lia. f_equal. lia.
  - apply py_int_field. lia.
Qed.

Lemma pad_02_colon_free (n : Z) : ~ In ":"%char (pad_02 n).
Proof.
  unfold pad_02. destruct (n <? 0).
  - intros [E|H]; [discriminate|].
    revert H. apply all_digits_no_colon, all_digits_zfill, digits_all_digits.
  - apply all_digits_no_colon, all_digits_zfill, digits_all_digits.
Qed.

Lemma seconds_fields_limit (s : Z) :
  Z.abs ((s mod 3600) / 60) < digit_limit /\ Z.abs (s mod 60) < digit_limit.
Proof.
  pose proof digit_limit_100 as L.
  assert (0 <= (s mod 3600) / 60 < 60 /\ 0 <= s mod 60 < 60)
    by (Z.to_euclidean_division_equations; lia).
  lia.
Qed.

(** The text of a duration whose hours are within the digit limit. *)
Lemma seconds_to_formatted_time_within (s : Z) :
  Z.abs (s / 3600) < digit_limit ->
  seconds_to_formatted_time s =
  Ok (pad_02 (s / 3600) ++ lit ":" ++ pad_02 ((s mod 3600) / 60)
      ++ lit ":" ++ pad_02 (s mod 60)).
Proof.
  intros H. destruct (seconds_fields_limit s) as [Hm Hs].
  unfold seconds_to_formatted_time. cbv zeta.
  now rewrite !format_02_small by assumption.
Qed.

Lemma seconds_to_formatted_time_beyond (s : Z) :
  digit_limit <= Z.abs (s / 3600) -> seconds_to_formatted_time s = Raise ValueError.
Proof.
  intros H. unfold seconds_to_formatted_time. cbv zeta.
  now rewrite format_02_large.
Qed.

Lemma duration_text_read_back (hours minutes seconds : Z) :
  Z.abs hours < digit_limit -> 0 <= minutes < 60 -> 0 <= seconds < 60 ->
  formatted_time_to_seconds
    (pad_02 hours ++ lit ":" ++ pad_02 minutes ++ lit ":" ++ pad_02 seconds)
  = Ok (hours * 3600 + minutes * 60 + seconds).
Proof.
  intros Hh Hm Hs. pose proof digit_limit_100 as L.
  unfold formatted_time_to_seconds. change (lit ":") with [":"%char].
  rewrite split_three by apply pad_02_colon_free.
  simpl. now rewrite !py_int_pad_02 by lia.
Qed.

(** X3: durations of either sign.  For every [int] number of seconds whose
    hours (seconds div 3600, rounded down) have at most 4300 digits, the
    duration is formatted and reading the text gives the number back;
    beyond that limit formatting raises [ValueError]; and two numbers that
    are formatted to the same text are equal. *)
Theorem duration_round_trip_any_sign :
  (forall s : Z, Z.abs (s / 3600) < digit_limit ->
     exists text, seconds_to_formatted_time s = Ok text
                  /\ formatted_time_to_seconds text = Ok s)
  /\ (forall s : Z, digit_limit <= Z.abs (s / 3600) ->
        seconds_to_formatted_time s = Raise ValueError)
  /\ (forall (s t : Z) (text : str),
        seconds_to_formatted_time s = Ok text ->
        seconds_to_formatted_time t = Ok text -> s = t).
Proof.
  assert (R : forall s : Z, Z.abs (s / 3600) < digit_limit ->
     exists text, seconds_to_formatted_time s = Ok text
                  /\ formatted_time_to_seconds text = Ok s).
  { intros s H. eexists. split; [now apply seconds_to_formatted_time_within|].
    rewrite duration_text_read_back; [|assumption| |];
      [f_equal|..]; Z.to_euclidean_division_equations; lia. }
  assert (B : forall (s : Z) (text : str),
             seconds_to_formatted_time s = Ok text ->
             formatted_time_to_seconds text = Ok s).
  { intros s text E. destruct (Z.lt_ge_cases (Z.abs (s / 3600)) digit_limit) as [H|H].
    - destruct (R s H) as (text' & E' & P). congruence.
    - rewrite seconds_to_formatted_time_beyond in E by assumption. discriminate. }
  split; [exact R|]. split; [exact seconds_to_formatted_time_beyond|].
  intros s t text Es Et. apply B in Es, Et. congruence.
Qed.

Lemma duration_round_trip_any_sign_witness :
  exists text, seconds_to_formatted_time (-3661) = Ok text
               /\ formatted_time_to_seconds text = Ok (-3661).
Proof.
  apply (proj1 duration_round_trip_any_sign (-3661)).
  pose proof digit_limit_100. change (Z.abs (-3661 / 3600)) with 2. lia.
Defined.

(** X4: the way back, on texts in canonical form.  A text made of an hours
    field within the digit limit, and minutes and seconds fields between 0
    and 59, each written as [seconds_to_formatted_time] writes it, is read
    as hours*3600 + minutes*60 + seconds, and formatting that number gives
    the text again. *)
Theorem canonical_duration_text_round_trip (hours minutes seconds : Z) :
  Z.abs hours < digit_limit -> 0 <= minutes < 60 -> 0 <= seconds < 60 ->
  let text := pad_02 hours ++ lit ":" ++ pad_02 minutes
              ++ lit ":" ++ pad_02 seconds in
  formatted_time_to_seconds text = Ok (hours * 3600 + minutes * 60 + seconds)
  /\ seconds_to_formatted_time (hours * 3600 + minutes * 60 + seconds) = Ok text.
Proof.
  intros Hh Hm Hs text. split; [now apply duration_text_read_back|].
  set (t := hours * 3600 + minutes * 60 + seconds).
  assert (E : t / 3600 = hours /\ t mod 3600 / 60 = minutes /\ t mod 60 = seconds).
  { unfold t. Z.to_euclidean_division_equations. lia. }
  rewrite seconds_to_formatted_time_within by (destruct E as (-> & _); assumption).
  destruct E as (-> & -> & ->). reflexivity.
Qed.

Lemma canonical_duration_text_round_trip_witness :
  formatted_time_to_seconds
    (pad_02 (-2) ++ lit ":" ++ pad_02 7 ++ lit ":" ++ pad_02 59)
  = Ok (-2 * 3600 + 7 * 60 + 59)
  /\ seconds_to_formatted_time (-2 * 3600 + 7 * 60 + 59)
     = Ok (pad_02 (-2) ++ lit ":" ++ pad_02 7 ++ lit ":" ++ pad_02 59).
Proof.
  apply (canonical_duration_text_round_trip (-2) 7 59);
    [pose proof digit_limit_100; simpl Z.abs; lia | lia | lia].
Defined.

Lemma py_int_error (p : str) (e : exn) : py_int p = Raise e -> e = ValueError.
Proof.
  unfold py_int. destruct (signed (literal_strip p)) as [neg body].
  destruct (parse_digits 0 false body); [|now intros [= <-]].
  destruct (_ <? _)%nat; [now intros [= <-] | discriminate].
Qed.

Lemma map_result_py_int_error (pieces : list str) (e : exn) :
  map_result py_int pieces = Raise e -> e = ValueError.
Proof.
  revert e. induction pieces as [|p rest IH]; intros e; simpl; [discriminate|].
  destruct (py_int p) eqn:P; simpl.
  - destruct (map_result py_int rest) eqn:M; simpl; [discriminate|].
    intros [= <-]. now apply IH.
  - intros [= <-]. now apply py_int_error in P.
Qed.

Lemma map_result_three (a b c : str) (h m s : Z) :
  map_result py_int [a; b; c] = Ok [h; m; s] ->
  py_int a = Ok h /\ py_int b = Ok m /\ py_int c = Ok s.
Proof.
  simpl. destruct (py_int a); simpl; [|discriminate].
  destruct (py_int b); simpl; [|discriminate].
  destruct (py_int c); simpl; [|discriminate].
  intros [= -> -> ->]. auto.
Qed.

Lemma map_result_length {A B : Type} (f : A -> result B) (xs : list A) (ys : list B) :
  map_result f xs = Ok ys -> length ys = length xs.
Proof.
  revert ys. induction xs as [|x xs IH]; intros ys; simpl.
  - now intros [= <-].
  - destruct (f x); simpl; [|discriminate].
    destruct (map_result f xs); simpl; [|discriminate].
    intros [= <-]. simpl. f_equal. now apply IH.
Qed.

(** X5: the outcomes of [formatted_time_to_seconds].  It either raises
    [ValueError], or its input is made of exactly three colon-free fields
    joined by colons, each accepted by [int], and the result is
    hours*3600 + minutes*60 + seconds: no other exception, no other
    result. *)
Theorem formatted_time_to_seconds_outcomes (formatted_time : str) :
  formatted_time_to_seconds formatted_time = Raise ValueError
  \/ exists (a b c : str) (hours minutes seconds : Z),
       formatted_time = a ++ lit ":" ++ b ++ lit ":" ++ c
       /\ ~ In ":"%char a /\ ~ In ":"%char b /\ ~ In ":"%char c
       /\ py_int a = Ok hours /\ py_int b = Ok minutes /\ py_int c = Ok seconds
       /\ formatted_time_to_seconds formatted_time
          = Ok (hours * 3600 + minutes * 60 + seconds).
Proof.
  unfold formatted_time_to_seconds.
  pose proof (join_split (lit ":") formatted_time) as J.
  pose proof (split_no_sep (lit ":") formatted_time ltac:(discriminate)) as F.
  destruct (map_result py_int (split (lit ":") formatted_time)) as [fields|e] eqn:M.
  - pose proof (map_result_length _ _ _ M) as L. simpl.
    destruct fields as [|h [|m [|s [|x fields]]]]; auto.
    destruct (split (lit ":") formatted_time) as [|a [|b [|c [|y pieces]]]];
      try discriminate.
    right. exists a, b, c, h, m, s.
    apply map_result_three in M. destruct M as (Ha & Hb & Hc).
    inversion F as [|? ? Fa F1]; subst. inversion F1 as [|? ? Fb F2]; subst.
    inversion F2 as [|? ? Fc _]; subst.
    change (lit ":") with [":"%char] in *.
    rewrite occurs_char in Fa, Fb, Fc.
    repeat split; auto.
  - left. simpl. f_equal. eapply map_result_py_int_error; eauto.
Qed.

(** ** More on trimming *)

Lemma lstrip_starts (s : str) :
  lstrip s = [] \/ exists c t, lstrip s = c :: t /\ isspace c = false.
Proof.
  induction s as [|c t IH]; simpl; [now left|].
  destruct (isspace c) eqn:W; [exact IH | right; eauto].
Qed.

Lemma lstrip_nil_all_space (s : str) : lstrip s = [] -> all_space s.
Proof.
  intros H. destruct (lstrip_decomp s) as (l & E & A).
  rewrite H, app_nil_r in E. now subst.
Qed.

Lemma rstrip_nil_all_space (s : str) : rstrip s = [] -> all_space s.
Proof.
  unfold rstrip. intros H.
  assert (E : lstrip (rev s) = []).
  { rewrite <- (rev_involutive (lstrip (rev s))), H. reflexivity. }
  apply lstrip_nil_all_space, all_space_rev in E. now rewrite rev_involutive in E.
Qed.

(** The mirror image of [lstrip_app]. *)
Lemma rstrip_app (a b : str) :
  rstrip (a ++ b) = match rstrip b with [] => rstrip a | _ => a ++ rstrip b end.
Proof.
  unfold rstrip. rewrite rev_app_distr, lstrip_app.
  destruct (lstrip (rev b)) as [|c t] eqn:E; [reflexivity|].
  assert (N : rev (c :: t) <> []) by (simpl; intros H; now apply app_eq_nil in H as [_ H]).
  destruct (rev (c :: t)) as [|x r] eqn:R; [congruence|].
  now rewrite rev_app_distr, rev_involutive, R.
Qed.

Lemma rstrip_ends (s : str) :
  rstrip s = [] \/ exists t c, rstrip s = t ++ [c] /\ isspace c = false.
Proof.
  unfold rstrip. destruct (lstrip_starts (rev s)) as [->|(c & t & -> & W)];
    [now left|]. right. exists (rev t), c. now split.
Qed.

Lemma strip_starts (s : str) :
  strip s = [] \/ exists c t, strip s = c :: t /\ isspace c = false.
Proof.
  unfold strip. destruct (lstrip_starts s) as [->|(c & t & E & W)]; [now left|].
  rewrite E. destruct (rstrip_decomp (c :: t)) as (r & Er & _).
  destruct (rstrip (c :: t)) as [|x y]; [now left|].
  right. exists x, y. split; [reflexivity|]. simpl in Er. now injection Er as ->.
Qed.

Lemma strip_ends (s : str) :
  strip s = [] \/ exists t c, strip s = t ++ [c] /\ isspace c = false.
Proof. apply rstrip_ends. Qed.

(** Trimming twice is trimming once. *)
Lemma strip_trimmed (s : str) : trimmed (strip s).
Proof.
  unfold trimmed.
  destruct (strip_starts s) as [E|(c & t & E & W)]; [now rewrite E|].
  destruct (strip_ends s) as [E'|(t' & c' & E' & W')]; [congruence|].
  unfold strip at 1. rewrite E at 1. rewrite (lstrip_head _ _ W), <- E.
  rewrite E' at 1. rewrite (rstrip_last _ _ W'). now rewrite <- E'.
Qed.

Lemma In_strip (c : ascii) (s : str) : In c (strip s) -> In c s.
Proof.
  intros H. destruct (strip_decomp s) as (l & r & E & _).
  rewrite E. apply in_or_app. right. apply in_or_app. now left.
Qed.

Lemma occurs_inside (sep l p r : str) : occurs sep p -> occurs sep (l ++ p ++ r).
Proof.
  intros (a & b & ->). exists (l ++ a), (b ++ r). now rewrite <- !app_assoc.
Qed.

Lemma occurs_strip (sep s : str) : occurs sep (strip s) -> occurs sep s.
Proof.
  intros H. destruct (strip_decomp s) as (l & r & E & _).
  rewrite E. now apply occurs_inside.
Qed.

(** ** Text blocks *)

Lemma blank_line_nonempty : blank_line <> [].
Proof. discriminate. Qed.

(** X6: [read_text_blocks] loses nothing.  There is always at least one
    block, joining the blocks with blank lines (two line breaks) gives the
    content of the file back, and no block contains a blank line. *)
Theorem read_text_blocks_keeps_the_text (content : str) :
  read_text_blocks content <> []
  /\ join blank_line (read_text_blocks content) = content
  /\ Forall (fun block => ~ occurs blank_line block) (read_text_blocks content).
Proof.
  unfold read_text_blocks. split; [apply split_fuel_nonempty|].
  split; [apply join_split | apply split_no_sep, blank_line_nonempty].
Qed.

Lemma first_cut_pair (c : ascii) (a b : str) :
  ~ occurs [c; c] a -> (forall t, a <> t ++ [c]) ->
  first_cut [c; c] (a ++ [c; c] ++ b) a b.
Proof.
  intros N E. split; [reflexivity|].
  induction a as [|x a IH]; intros a' b' H; simpl; [lia|].
  destruct a' as [|x' a']; simpl in H.
  - exfalso. injection H as -> H.
    destruct a as [|y a]; [now apply (E [])|].
    simpl in H. injection H as -> _. apply N. now exists [], a.
  - injection H as _ H. simpl.
    assert (L : (length a <= length a')%nat); [|lia].
    eapply IH; [| |exact H].
    + intros (u & v & ->). apply N. now exists (x :: u), v.
    + intros t ->. now apply (E (x :: t)).
Qed.

(** X7: blocks joined by blank lines are read back.  For a non-empty list
    of blocks, none of which contains two line breaks in a row, and none of
    which but the last ends with a line break, reading the blocks joined by
    two line breaks gives the list again. *)
Theorem read_text_blocks_of_join (blocks : list str) :
  blocks <> [] ->
  Forall (fun block => ~ occurs blank_line block) blocks ->
  Forall (fun block => forall t, block <> t ++ newline) (removelast blocks) ->
  read_text_blocks (join blank_line blocks) = blocks.
Proof.
  unfold read_text_blocks. intros N F E.
  induction blocks as [|block rest IH]; [congruence|].
  destruct rest as [|next rest].
  - simpl. inversion F; subst. now apply split_none; [apply blank_line_nonempty|].
  - rewrite join_cons by discriminate.
    inversion F as [|? ? Fb Fr]; subst.
    change (removelast (block :: next :: rest))
      with (block :: removelast (next :: rest)) in E.
    inversion E as [|? ? Eb Er]; subst.
    rewrite (split_cut blank_line blank_line_nonempty _ block (join blank_line (next :: rest))).
    + f_equal. apply IH; [discriminate | assumption | assumption].
    + apply (first_cut_pair "010"%char); assumption.
Qed.

Lemma read_text_blocks_of_join_witness :
  read_text_blocks (join blank_line [lit "A by B | C"; newline ++ lit "D by E | F"; []])
  = [lit "A by B | C"; newline ++ lit "D by E | F"; []].
Proof.
  apply read_text_blocks_of_join.
  - discriminate.
  - repeat constructor; intros (a & b & H);
      repeat (destruct a as [|? a]; try discriminate H).
  - simpl. constructor; [|constructor; [|constructor]]; intros t H;
      apply (f_equal (@rev ascii)) in H; rewrite rev_app_distr in H;
      vm_compute in H; discriminate H.
Defined.

(** ** First lines *)

(** The first line of a text. *)
Lemma first_line_no_newline (text : str) :
  ~ In "010"%char (hd [] (split newline text)).
Proof.
  pose proof (split_no_sep newline text newline_nonempty) as F.
  destruct (split newline text) as [|l rest]; [intros []|].
  inversion F as [|? ? Fl _]; subst. simpl.
  change newline with ["010"%char] in Fl. now rewrite occurs_char in Fl.
Qed.

Lemma split_lines_written (lines : list str) :
  Forall (fun l => ~ In "010"%char l) lines ->
  split newline (concat (map (fun l => l ++ newline) lines)) = lines ++ [[]].
Proof.
  induction 1 as [|l lines Hl _ IH]; [reflexivity|].
  simpl. rewrite <- app_assoc.
  rewrite (split_cut newline newline_nonempty _ l
             (concat (map (fun l => l ++ newline) lines))).
  - now rewrite IH.
  - now apply first_cut_char.
Qed.

(** The lines [write_first_lines_to_file] writes. *)
Lemma write_first_lines_eq (text_blocks : list str) :
  write_first_lines_to_file text_blocks =
  concat (map (fun l => l ++ newline)
            (filter (fun l => negb (str_eqb l []))
               (map (fun b => strip (hd [] (split newline b))) text_blocks))).
Proof.
  induction text_blocks as [|b rest IH]; [reflexivity|].
  simpl. destruct (strip (hd [] (split newline b))) as [|c t]; simpl.
  - exact IH.
  - now rewrite IH.
Qed.

(** X8: what [write_first_lines_to_file] writes.  The output is a sequence
    of lines, each ended by a line break: the trimmed first lines of the
    blocks, in order, without the empty ones.  So there are at most as many
    lines as blocks, and every line is non-empty, trimmed and free of line
    breaks. *)
Theorem write_first_lines_to_file_lines (text_blocks : list str) :
  exists lines : list str,
    split newline (write_first_lines_to_file text_blocks) = lines ++ [[]]
    /\ lines = filter (fun l => negb (str_eqb l []))
                 (map (fun b => strip (hd [] (split newline b))) text_blocks)
    /\ (length lines <= length text_blocks)%nat
    /\ Forall (fun l => l <> [] /\ trimmed l /\ ~ In "010"%char l) lines.
Proof.
  eexists. split; [|split; [reflexivity|split]].
  - rewrite write_first_lines_eq. apply split_lines_written.
    apply Forall_forall. intros l Hl. apply filter_In in Hl as [Hl _].
    apply in_map_iff in Hl as (b & <- & _).
    intros H. apply In_strip in H. now apply first_line_no_newline in H.
  - rewrite <- (length_map (fun b => strip (hd [] (split newline b))) text_blocks).
    apply filter_length_le.
  - apply Forall_forall. intros l Hl. apply filter_In in Hl as [Hl Ne].
    apply in_map_iff in Hl as (b & <- & _). split; [|split].
    + intros E. rewrite E in Ne. discriminate.
    + apply strip_trimmed.
    + intros H. apply In_strip in H. now apply first_line_no_newline in H.
Qed.

Lemma head_piece_hd (sep s : str) :
  sep <> [] -> head_piece sep s (hd [] (split sep s)).
Proof. intros Hs. now destruct (split_head sep Hs s) as (p & rest & -> & H). Qed.

Lemma hd_split_no_sep (sep s : str) :
  sep <> [] -> ~ occurs sep s -> hd [] (split sep s) = s.
Proof. intros Hs N. now rewrite split_none. Qed.

Lemma hd_split_cut (c : ascii) (a b : str) :
  ~ In c a -> hd [] (split [c] (a ++ [c] ++ b)) = a.
Proof.
  intros N. rewrite (split_cut [c] ltac:(discriminate) _ a b); [reflexivity|].
  now apply first_cut_char.
Qed.

Lemma all_space_app (a b : str) : all_space a -> all_space b -> all_space (a ++ b).
Proof. intros A B. apply Forall_app. now split. Qed.

Lemma strip_space_app (w s : str) : all_space w -> strip (w ++ s) = strip s.
Proof. intros W. unfold strip. now rewrite lstrip_space_app. Qed.

(** X9: the line written for a block is the header the parser reads.  When
    the first line of a block is not blank, its trimmed text, which
    [write_first_lines_to_file] writes, is the trimmed header that
    [parse_text_block_into_song] splits. *)
Theorem first_line_is_header (text : str) :
  strip (hd [] (split newline text)) <> [] ->
  strip (hd [] (split newline text)) = strip (header text).
Proof.
  intros NE. unfold header.
  destruct (head_piece_hd newline text newline_nonempty) as [[N E]|[rest [E _]]].
  - rewrite E in *. rewrite hd_split_no_sep; [|apply newline_nonempty|].
    + symmetry. apply strip_trimmed.
    + intros H. apply N. now apply occurs_strip.
  - set (l0 := hd [] (split newline text)) in *.
    pose proof (first_line_no_newline text) as NL. fold l0 in NL.
    destruct (strip_decomp l0) as (w & w' & El & W & W').
    destruct (strip_starts l0) as [E0|(c & t & Ec & Wc)]; [congruence|].
    assert (NLm : ~ In "010"%char (strip l0)) by (intros H; now apply In_strip in H).
    assert (Hm : trimmed (strip l0)) by apply strip_trimmed.
    set (m := strip l0) in *.
    assert (S : strip text = rstrip (m ++ w' ++ newline ++ rest)).
    { unfold strip. rewrite E, El, <- !app_assoc.
      rewrite lstrip_space_app by assumption.
      now rewrite Ec, <- app_comm_cons, (lstrip_head _ _ Wc). }
    rewrite S, rstrip_app.
    destruct (rstrip (w' ++ newline ++ rest)) as [|x y] eqn:R.
    + (* only whitespace after the first line *)
      replace (rstrip m) with m.
      * rewrite hd_split_no_sep; [symmetry; exact Hm | apply newline_nonempty|].
        change newline with ["010"%char]. now rewrite occurs_char.
      * unfold trimmed, strip in Hm. rewrite Ec, (lstrip_head _ _ Wc), <- Ec in Hm.
        now symmetry.
    + rewrite <- R. rewrite rstrip_app in R |- *.
      destruct (rstrip (newline ++ rest)) as [|x' y'] eqn:R'.
      * exfalso.
        assert (Z0 : rstrip w' = [])
          by (rewrite <- (app_nil_l w'); now rewrite rstrip_app_space).
        rewrite Z0 in R. discriminate.
      * rewrite rstrip_app in R'.
        destruct (rstrip rest) as [|x'' y''] eqn:R''.
        -- exfalso. simpl in R'. unfold rstrip in R'. simpl in R'. discriminate.
        -- rewrite <- R'.
           replace (m ++ w' ++ newline ++ x'' :: y'')
             with ((m ++ w') ++ ["010"%char] ++ x'' :: y'')
             by now rewrite <- app_assoc.
           change (split newline) with (split ["010"%char]).
           rewrite hd_split_cut.
           ++ rewrite strip_app_space by assumption. symmetry. exact Hm.
           ++ intros H. apply NL. rewrite El. apply in_or_app. now right.
Qed.

Lemma first_line_is_header_witness :
  strip (hd [] (split newline (lit "  Tune by Ann | x " ++ newline ++ lit "L1")))
  = strip (header (lit "  Tune by Ann | x " ++ newline ++ lit "L1")).
Proof.
  apply (first_line_is_header (lit "  Tune by Ann | x " ++ newline ++ lit "L1")).
  vm_compute. discriminate.
Defined.

(** ** The parsed fields *)

Lemma join_substring (sep p : str) (pieces : list str) :
  In p pieces -> exists l r, join sep pieces = l ++ p ++ r.
Proof.
  induction pieces as [|q rest IH]; [intros []|].
  destruct rest as [|q' rest].
  - intros [->|[]]. exists [], []. simpl. now rewrite app_nil_r.
  - intros [->|H].
    + exists [], (sep ++ join sep (q' :: rest)). now rewrite join_cons by discriminate.
    + destruct (IH H) as (l & r & E). exists (q ++ sep ++ l), r.
      rewrite join_cons by discriminate. rewrite E. now rewrite <- !app_assoc.
Qed.

(** Every piece of a split is a part of the text. *)
Lemma split_substring (sep s p : str) :
  In p (split sep s) -> exists l r, s = l ++ p ++ r.
Proof.
  intros H. destruct (join_substring sep p _ H) as (l & r & E).
  rewrite join_split in E. eauto.
Qed.

Lemma hd_split_In (sep s : str) : In (hd [] (split sep s)) (split sep s).
Proof.
  pose proof (split_fuel_nonempty (S (length s)) sep s) as N. unfold split.
  destruct (split_fuel (S (length s)) sep s); [congruence | now left].
Qed.

Lemma piece_no_char (sep s p : str) (c : ascii) :
  In p (split sep s) -> ~ In c s -> ~ In c p.
Proof.
  intros H N Hc. apply N. destruct (split_substring _ _ _ H) as (l & r & ->).
  apply in_or_app. right. apply in_or_app. now left.
Qed.

Lemma piece_no_occurs (sep sep' s p : str) :
  In p (split sep s) -> ~ occurs sep' s -> ~ occurs sep' p.
Proof.
  intros H N Ho. apply N. destruct (split_substring _ _ _ H) as (l & r & ->).
  now apply occurs_inside.
Qed.

Lemma piece_no_sep (sep s p : str) :
  sep <> [] -> In p (split sep s) -> ~ occurs sep p.
Proof.
  intros Hs H. pose proof (split_no_sep sep s Hs) as F.
  now apply (proj1 (Forall_forall _ _) F).
Qed.

Lemma header_no_newline (text : str) : ~ In "010"%char (header text).
Proof. apply first_line_no_newline. Qed.

(** The header is empty or starts with a character that is not whitespace. *)
Lemma header_starts (text : str) :
  header text = [] \/ exists c t, header text = c :: t /\ isspace c = false.
Proof.
  unfold header.
  destruct (strip_starts text) as [E|(c & t & E & W)]; [rewrite E; now left|].
  destruct (head_piece_hd newline (strip text) newline_nonempty) as [[_ ->]|[rest [H _]]].
  - right. eauto.
  - destruct (hd [] (split newline (strip text))) as [|x y]; [now left|].
    right. exists x, y. split; [reflexivity|].
    rewrite E in H. simpl in H. now injection H as ->.
Qed.

Lemma strip_nonempty (c : ascii) (t : str) : isspace c = false -> strip (c :: t) <> [].
Proof.
  intros W E. unfold strip in E. rewrite (lstrip_head _ _ W) in E.
  apply rstrip_nil_all_space in E. inversion E; congruence.
Qed.

(** X10: whitespace around a block never matters to the parser: with any
    whitespace before and after it, a block is parsed to the same result, or
    fails in the same way. *)
Theorem parse_ignores_surrounding_whitespace (before text after : str) :
  all_space before -> all_space after ->
  parse_text_block_into_song (before ++ text ++ after)
  = parse_text_block_into_song text.
Proof.
  intros B A. apply parse_strip.
  now rewrite strip_space_app, strip_app_space.
Qed.

Lemma parse_ignores_surrounding_whitespace_witness :
  parse_text_block_into_song
    ((newline ++ lit "  ") ++ lit "A by B | C" ++ (lit " " ++ newline ++ newline))
  = parse_text_block_into_song (lit "A by B | C").
Proof.
  apply parse_ignores_surrounding_whitespace; repeat constructor.
Defined.

Lemma In_firstn {A : Type} (n : nat) (x : A) (l : list A) : In x (firstn n l) -> In x l.
Proof. intros H. rewrite <- (firstn_skipn n l). apply in_or_app. now left. Qed.

Lemma In_skipn {A : Type} (n : nat) (x : A) (l : list A) : In x (skipn n l) -> In x l.
Proof. intros H. rewrite <- (firstn_skipn n l). apply in_or_app. now right. Qed.

(** X11: the fields of a parsed song.  Whenever the parser succeeds, the
    song name is not empty; the three header fields are trimmed, hold no
    line break and no [" by "]; the artist name and link hold no [" | "];
    there are at most three licenses, each trimmed and free of line
    breaks. *)
Theorem parsed_fields_are_clean (text : str) (r : SongMetadata) :
  parse_text_block_into_song text = Ok r ->
  song_name r <> []
  /\ (trimmed (song_name r) /\ trimmed (artist_name r) /\ trimmed (artist_link r))
  /\ (~ In "010"%char (song_name r) /\ ~ In "010"%char (artist_name r)
      /\ ~ In "010"%char (artist_link r))
  /\ (~ occurs (lit " by ") (song_name r) /\ ~ occurs (lit " by ") (artist_name r)
      /\ ~ occurs (lit " by ") (artist_link r))
  /\ (~ occurs (lit " | ") (artist_name r) /\ ~ occurs (lit " | ") (artist_link r))
  /\ (length (licenses r) <= 3)%nat
  /\ Forall (fun l => trimmed l /\ ~ In "010"%char l) (licenses r).
Proof.
  intros H. pose proof (parse_cases text) as C.
  destruct (nth_error (split (lit " by ") (header text)) 1) as [info|] eqn:E1;
    [|congruence].
  destruct (nth_error (split (lit " | ") info) 1) as [link|] eqn:E2; [|congruence].
  rewrite C in H.
  match type of H with Ok ?x = _ => assert (Er : r = x) by congruence end.
  subst r. clear H. cbn [song_name artist_name artist_link licenses].
  pose proof (header_no_newline text) as NL.
  pose proof (hd_split_In (lit " by ") (header text)) as I0.
  pose proof (nth_error_In _ _ E1) as I1.
  pose proof (hd_split_In (lit " | ") info) as J0.
  pose proof (nth_error_In _ _ E2) as J1.
  set (name := hd [] (split (lit " by ") (header text))) in *.
  set (artist := hd [] (split (lit " | ") info)) in *.
  assert (NLinfo : ~ In "010"%char info) by (eapply piece_no_char; eauto).
  assert (Binfo : ~ occurs (lit " by ") info)
    by (eapply piece_no_sep; [apply by_nonempty | eauto]).
  split; [|split; [|split; [|split; [|split; [|split]]]]].
  - apply (split_second _ by_nonempty) in E1.
    destruct E1 as (a & rest & Hc & _).
    unfold name. rewrite (split_cut _ by_nonempty _ _ _ Hc). simpl.
    destruct Hc as [Eh _].
    destruct (header_starts text) as [E0|(c & t & E0 & W)].
    + rewrite E0 in Eh. destruct a; discriminate.
    + rewrite E0 in Eh. destruct a as [|x a].
      * simpl in Eh. injection Eh as -> _. discriminate.
      * simpl in Eh. injection Eh as <- _. now apply strip_nonempty.
  - repeat split; apply strip_trimmed.
  - repeat split; intros Hc; apply In_strip in Hc; revert Hc.
    + eapply piece_no_char; eauto.
    + eapply piece_no_char; eauto.
    + eapply piece_no_char; eauto.
  - repeat split; intros Hc; apply occurs_strip in Hc; revert Hc.
    + eapply piece_no_sep; [apply by_nonempty | eauto].
    + eapply piece_no_occurs; eauto.
    + eapply piece_no_occurs; eauto.
  - split; intros Hc; apply occurs_strip in Hc; revert Hc;
      (eapply piece_no_sep; [apply bar_nonempty | eauto]).
  - rewrite length_map, length_slice_1_4. lia.
  - apply Forall_forall. intros l Hl. apply in_map_iff in Hl as (x & <- & Hx).
    split; [apply strip_trimmed|].
    intros Hc. apply In_strip in Hc.
    unfold slice in Hx. apply In_firstn, In_skipn in Hx.
    pose proof (split_no_sep newline (strip text) newline_nonempty) as F.
    apply (proj1 (Forall_forall _ _) F) in Hx.
    apply Hx. change newline with ["010"%char]. now apply occurs_char.
Qed.

Lemma parsed_fields_are_clean_witness :
  song_name {| song_name := lit "Ocean Waves"; artist_name := lit "Jane Doe";
               artist_link := lit "x"; licenses := [lit "CC0"] |} <> [].
Proof.
  refine (proj1 (parsed_fields_are_clean
                   (block [" Ocean Waves  by Jane Doe | x "; " CC0 "]%string) _ _)).
  vm_compute. reflexivity.
Defined.

(** ** Audio files *)

Lemma endswith_app (s suffix : str) :
  endswith s suffix = true <-> exists stem, s = stem ++ suffix.
Proof.
  unfold endswith. rewrite startswith_app. split.
  - intros [b E]. exists (rev b).
    rewrite <- (rev_involutive s), E, rev_app_distr. now rewrite rev_involutive.
  - intros [stem ->]. exists (rev stem). now rewrite rev_app_distr.
Qed.

Lemma audio_name (f : str) :
  endswith_any f [lit ".mp3"; lit ".wav"] = true <->
  exists stem, f = stem ++ lit ".mp3" \/ f = stem ++ lit ".wav".
Proof.
  unfold endswith_any. simpl. rewrite orb_false_r, orb_true_iff, !endswith_app.
  split.
  - intros [[stem E]|[stem E]]; exists stem; auto.
  - intros [stem [E|E]]; [left | right]; now exists stem.
Qed.

Lemma filter_twice {A : Type} (f : A -> bool) (l : list A) :
  filter f (filter f l) = filter f l.
Proof.
  induction l as [|x l IH]; [reflexivity|]. simpl.
  destruct (f x) eqn:E; simpl; [rewrite E|]; now rewrite ?IH.
Qed.

(** X12: the audio files of a directory listing.  [get_audio_files] keeps
    exactly the names of the listing that end with [.mp3] or [.wav], in
    order; [select_random_files] draws from the same names; filtering twice
    changes nothing; and the file name that [process_data] gives a song,
    its name followed by [.mp3], is kept when it is in the listing. *)
Theorem get_audio_files_selects (listing : list str) :
  (forall f, In f (get_audio_files listing) <->
             In f listing /\
             exists stem, f = stem ++ lit ".mp3" \/ f = stem ++ lit ".wav")
  /\ select_random_files_population listing = get_audio_files listing
  /\ get_audio_files (get_audio_files listing) = get_audio_files listing
  /\ (forall song_name,
        In (process_data_filename song_name) listing ->
        In (process_data_filename song_name) (get_audio_files listing)).
Proof.
  assert (M : forall f, In f (get_audio_files listing) <->
             In f listing /\
             exists stem, f = stem ++ lit ".mp3" \/ f = stem ++ lit ".wav").
  { intros f. unfold get_audio_files. now rewrite filter_In, audio_name. }
  split; [exact M|]. split; [|split].
  - unfold select_random_files_population, get_audio_files.
    apply filter_ext. intros f. unfold endswith_any. simpl.
    now rewrite orb_false_r.
  - apply filter_twice.
  - intros song_name H. apply M. split; [exact H|].
    exists song_name. now left.
Qed.

Lemma get_audio_files_selects_witness :
  In (process_data_filename (lit "Tune"))
     (get_audio_files [lit "notes.txt"; lit "Tune.mp3"; lit "b.wav"]).
Proof.
  apply (proj2 (proj2 (proj2 (get_audio_files_selects
                                [lit "notes.txt"; lit "Tune.mp3"; lit "b.wav"])))
           (lit "Tune")).
  right. left. reflexivity.
Defined.

(** ** Unique file names, once more *)

Lemma rfind_from_spec (c : ascii) (s : str) :
  forall i last,
    (rfind_from i last c s = last /\ ~ In c s)
    \/ exists a b, s = a ++ c :: b /\ ~ In c b
                   /\ rfind_from i last c s = i + Z.of_nat (length a).
Proof.
  induction s as [|x t IH]; intros i last; simpl; [left; auto|].
  destruct (IH (i + 1) (if Ascii.eqb x c then i else last))
    as [[E N]|(a & b & -> & N & E)].
  - destruct (Ascii.eqb x c) eqn:X.
    + apply Ascii.eqb_eq in X. subst x. right. exists [], t.
      split; [reflexivity|]. split; [exact N|]. rewrite E. simpl. lia.
    + left. split; [exact E|]. apply Ascii.eqb_neq in X.
      intros [H|H]; [congruence | auto].
  - right. exists (x :: a), b. split; [reflexivity|]. split; [exact N|].
    rewrite E. simpl length. lia.
Qed.

Lemma rfind_spec (c : ascii) (s : str) :
  (rfind c s = -1 /\ ~ In c s)
  \/ exists a b, s = a ++ c :: b /\ ~ In c b /\ rfind c s = Z.of_nat (length a).
Proof. apply (rfind_from_spec c s 0 (-1)). Qed.

(** What [splitext] returns: the extension is empty, or a dot followed by
    characters that are neither dots nor slashes. *)
Lemma splitext_spec (p : str) :
  fst (splitext p) ++ snd (splitext p) = p
  /\ (snd (splitext p) = []
      \/ exists e, snd (splitext p) = "."%char :: e
                   /\ ~ In "."%char e /\ ~ In "/"%char e).
Proof.
  split; [apply splitext_app|].
  unfold splitext, _splitext.
  destruct (rfind "/" p <? rfind "." p) eqn:L; simpl; [|now left].
  destruct (existsb _ _); simpl; [|now left].
  apply Z.ltb_lt in L. right.
  destruct (rfind_spec "." p) as [[E _]|(a & b & Ep & Nb & E)].
  - destruct (rfind_spec "/" p) as [[E' _]|(a' & b' & _ & _ & E')]; lia.
  - rewrite E, Nat2Z.id. exists b.
    rewrite Ep at 1. rewrite skipn_app, skipn_all, Nat.sub_diag. simpl.
    split; [reflexivity|]. split; [exact Nb|].
    destruct (rfind_spec "/" p) as [[_ N]|(a' & b' & Ep' & Nb' & E')].
    + intros H. apply N. rewrite Ep. apply in_or_app. right. now right.
    + intros H. apply Nb'.
      assert (La : (length a' < length a)%nat) by lia.
      rewrite Ep in Ep'. clear - Ep' La H.
      revert a' Ep' La. induction a as [|x a IH]; intros a' Ep' La; [simpl in La; lia|].
      destruct a' as [|x' a'].
      * simpl in Ep'. injection Ep' as _ <-. apply in_or_app. right. now right.
      * simpl in Ep'. injection Ep' as _ Ep'. apply (IH a' Ep'). simpl in La. lia.
Qed.

Lemma py_str_no_slash (n : Z) : 0 <= n -> ~ In "/"%char (py_str n).
Proof.
  intros H. rewrite py_str_nonneg by assumption. intros Hc.
  pose proof (digits_all_digits n) as A.
  eapply Forall_forall in A; [|exact Hc]. discriminate.
Qed.

Section LoopResult.

Variable path_exists : str -> bool.
Variables base ext : str.

(** What the loop returns, whenever it returns. *)
Lemma unique_loop_result (fuel : nat) :
  forall (p : str) (c : Z) (r : str),
    unique_loop path_exists fuel base ext p c = Some r ->
    path_exists r = false
    /\ (r = p \/ exists n, c <= n /\ r = numbered base ext n).
Proof.
  induction fuel as [|fuel IH]; intros p c r; simpl; [discriminate|].
  destruct (path_exists p) eqn:E.
  - intros H. apply IH in H as [F [->|(n & Hn & ->)]].
    + split; [exact F|]. right. exists c. split; [lia | reflexivity].
    + split; [exact F|]. right. exists n. split; [lia | reflexivity].
  - intros [= <-]. auto.
Qed.

End LoopResult.

(** X13: the shape of a unique path.  Whatever [get_unique_file_name]
    returns does not exist; it is the candidate with a counter text inserted
    between base and extension; the extension is empty or a dot followed by
    a text without dot or slash, and the counter text holds no slash, so the
    result lies in the directory of the candidate and keeps its extension;
    the counter text is empty exactly when the candidate itself is
    returned, and is not empty only if the candidate exists. *)
Theorem get_unique_file_name_result
  (path_exists : str -> bool) (fuel : nat) (file_path unique_path : str) :
  get_unique_file_name path_exists fuel file_path = Some unique_path ->
  let base := fst (splitext file_path) in
  let ext := snd (splitext file_path) in
  path_exists unique_path = false
  /\ (ext = [] \/ exists e, ext = "."%char :: e /\ ~ In "."%char e /\ ~ In "/"%char e)
  /\ exists counter_text : str,
       file_path = base ++ ext
       /\ unique_path = base ++ counter_text ++ ext
       /\ ~ In "/"%char counter_text
       /\ (counter_text = [] <-> unique_path = file_path)
       /\ (counter_text <> [] -> path_exists file_path = true).
Proof.
  intros H base ext.
  destruct (splitext_spec file_path) as [Ep Hext]. fold base ext in Ep, Hext.
  unfold get_unique_file_name in H.
  assert (S : splitext file_path = (base, ext)) by (unfold base, ext; now destruct (splitext file_path)).
  rewrite S in H.
  assert (T : path_exists file_path = true \/ unique_path = file_path).
  { destruct fuel as [|fuel]; [discriminate|]. simpl in H.
    destruct (path_exists file_path); [now left|]. right. congruence. }
  apply unique_loop_result in H as [F [->|(n & Hn & ->)]].
  - split; [exact F|]. split; [exact Hext|]. exists [].
    repeat split; auto; try (now symmetry); try (intros []); congruence.
  - split; [exact F|]. split; [exact Hext|].
    exists (lit " (" ++ py_str n ++ lit ")").
    split; [now symmetry|]. split; [unfold numbered; now rewrite <- !app_assoc|].
    split.
    + intros Hc. apply in_app_or in Hc as [Hc|Hc].
      * simpl in Hc. destruct Hc as [Hc|[Hc|[]]]; discriminate.
      * apply in_app_or in Hc as [Hc|Hc]; [now apply py_str_no_slash in Hc; lia|].
        simpl in Hc. destruct Hc as [Hc|[]]. discriminate.
    + split.
      * split; [discriminate|]. intros E. exfalso.
        rewrite <- Ep in E. unfold numbered in E.
        apply app_inv_head in E.
        apply (f_equal (@length ascii)) in E. rewrite !length_app in E.
        simpl in E. lia.
      * intros _. destruct T as [T|T]; [exact T|].
        exfalso. rewrite <- Ep in T. unfold numbered in T.
        apply app_inv_head in T.
        apply (f_equal (@length ascii)) in T. rewrite !length_app in T.
        simpl in T. lia.
Qed.

Lemma get_unique_file_name_result_witness :
  holds ["a.mp3"; "a (1).mp3"]%string (lit "a (2).mp3") = false.
Proof.
  refine (proj1 (get_unique_file_name_result
                   (holds ["a.mp3"; "a (1).mp3"]%string) 5 (lit "a.mp3")
                   (lit "a (2).mp3") _)).
  vm_compute. reflexivity.
Defined.

(** ** File sizes, once more *)

Lemma exact_below_limit : 2 ^ 53 < size_limit.
Proof. reflexivity. Qed.

(** The text for a byte count that a float holds exactly. *)
Lemma bytes_to_formatted_size_exact (b : Z) :
  0 <= b < 2 ^ 53 ->
  exists (k : nat) (unit : str),
    nth_error units k = Some unit
    /\ ((k < 4)%nat -> b < 1024 ^ (Z.of_nat k + 1))
    /\ ((0 < k)%nat -> 1024 ^ Z.of_nat k <= b)
    /\ bytes_to_formatted_size b =
       Some (Ok (hundredths_text (round_half_even (100 * b) (1024 ^ Z.of_nat k))
                 ++ lit " " ++ unit)).
Proof.
  intros Hb. pose proof quanta_pos as Q. pose proof exact_below_limit as Lim.
  destruct (size_loop_int b ltac:(lia))
    as (k & v & N & Hl & Hk & Hlt & Hge & Hf & HN & b' & Hex & Hnear).
  assert (b' = b) by lia. subst b'.
  destruct (units_nth k Hk) as [unit Hu].
  exists k, unit. split; [exact Hu|]. split; [exact Hlt|]. split; [exact Hge|].
  unfold bytes_to_formatted_size, bytes_to_formatted_size_fuel.
  rewrite Hl. cbn [bind fst snd]. rewrite Hf. cbn [bind].
  rewrite (index_list_some _ _ _ Hu). cbn [bind].
  rewrite format_2f_nonneg by assumption. cbv zeta. unfold hundredths_text.
  assert (P : 0 < 1024 ^ Z.of_nat k) by (apply Z.pow_pos_nonneg; lia).
  replace (round_half_even (N * 100) quanta)
    with (round_half_even (100 * b) (1024 ^ Z.of_nat k)); [reflexivity|].
  rewrite <- (round_half_even_scale (N * 100) quanta (1024 ^ Z.of_nat k)) by lia.
  replace (N * 100 * 1024 ^ Z.of_nat k) with (100 * b * quanta) by lia.
  rewrite (Z.mul_comm quanta). symmetry. apply round_half_even_scale; lia.
Qed.

(** X14: the number shown with a scaled unit.  For a byte count from 1024
    up to [2^53] (excluded) the unit is not [B] and the number shown is at
    least 1.00; below [TB] it is at most 1024.00, and 1024.00 is reached:
    1048575 bytes are shown as [1024.00 KB]. *)
Theorem scaled_size_between_1_and_1024 :
  (forall b : Z, 1024 <= b < 2 ^ 53 ->
     exists (k : nat) (h : Z) (unit : str),
       bytes_to_formatted_size b = Some (Ok (hundredths_text h ++ lit " " ++ unit))
       /\ nth_error units k = Some unit
       /\ (0 < k)%nat
       /\ 100 <= h
       /\ ((k < 4)%nat -> h <= 102400))
  /\ bytes_to_formatted_size (1024 * 1024 - 1) = Some (Ok (lit "1024.00 KB")).
Proof.
  split; [|by_evaluation].
  intros b Hb.
  destruct (bytes_to_formatted_size_exact b ltac:(lia)) as (k & unit & Hu & Hlt & Hge & T).
  assert (Hk : (0 < k)%nat).
  { destruct k; [|lia]. specialize (Hlt ltac:(lia)). simpl in Hlt. lia. }
  specialize (Hge Hk).
  exists k, (round_half_even (100 * b) (1024 ^ Z.of_nat k)), unit.
  split; [exact T|]. split; [exact Hu|]. split; [exact Hk|].
  assert (P : 0 < 1024 ^ Z.of_nat k) by (apply Z.pow_pos_nonneg; lia).
  pose proof (round_half_even_bounds (100 * b) (1024 ^ Z.of_nat k) P) as [Lo Hi].
  split.
  - assert (100 <= 100 * b / 1024 ^ Z.of_nat k)
      by (apply Z.div_le_lower_bound; lia). lia.
  - intros K4. specialize (Hlt K4).
    rewrite Z.pow_add_r in Hlt by lia. change (1024 ^ 1) with 1024 in Hlt.
    assert (100 * b / 1024 ^ Z.of_nat k < 102400)
      by (apply Z.div_lt_upper_bound; lia). lia.
Qed.

Lemma scaled_size_between_1_and_1024_witness :
  exists (k : nat) (h : Z) (unit : str),
    bytes_to_formatted_size 5000000 = Some (Ok (hundredths_text h ++ lit " " ++ unit))
    /\ nth_error units k = Some unit
    /\ (0 < k)%nat
    /\ 100 <= h
    /\ ((k < 4)%nat -> h <= 102400).
Proof.
  apply (proj1 scaled_size_between_1_and_1024 5000000). split; [lia | reflexivity].
Defined.

Lemma digits_0 : digits 0 = lit "0".
Proof. reflexivity. Qed.

(** X15: counts that are not scaled.  A byte count below 1024, negative
    ones included (down to [-2^53], excluded), is never divided: the text is
    the count itself, with [.00] and the unit [B]. *)
Theorem unscaled_size_text (b : Z) :
  - 2 ^ 53 < b < 1024 ->
  bytes_to_formatted_size b
  = Some (Ok (sign_text b ++ digits (Z.abs b) ++ lit ".00 B")).
Proof.
  intros Hb. pose proof quanta_pos as Q.
  unfold bytes_to_formatted_size, bytes_to_formatted_size_fuel.
  rewrite size_loop_eq. cbn [num_ge].
  replace (1024 <=? b) with false by (symmetry; apply Z.leb_gt; lia).
  cbn [andb bind fst snd num_format_2f].
  rewrite float_of_int_small by lia. cbn [bind].
  change (index_list units 0) with (Ok (lit "B")). cbn [bind].
  unfold format_2f, sign_text.
  replace (Z.abs (b * quanta) * 100) with (Z.abs b * 100 * quanta)
    by (rewrite Z.abs_mul, (Z.abs_eq quanta) by lia; ring).
  rewrite round_half_even_exact by lia.
  rewrite Z.div_mul, Z.mod_mul by lia. rewrite digits_0.
  replace (b * quanta <? 0) with (b <? 0).
  - rewrite <- !app_assoc. reflexivity.
  - destruct (Z.ltb_spec b 0); symmetry; [apply Z.ltb_lt | apply Z.ltb_ge]; nia.
Qed.

Lemma unscaled_size_text_witness :
  bytes_to_formatted_size (-5000)
  = Some (Ok (sign_text (-5000) ++ digits (Z.abs (-5000)) ++ lit ".00 B")).
Proof. apply (unscaled_size_text (-5000)). split; reflexivity. Defined.

(** ** Reading back a number with two decimals *)

Lemma break_at_none (p : ascii -> bool) (s : str) :
  Forall (fun c => p c = false) s -> break_at p s = (s, None).
Proof.
  induction 1 as [|c s Hc _ IH]; [reflexivity|]. simpl. now rewrite Hc, IH.
Qed.

Lemma break_at_app (p : ascii -> bool) (a r : str) (c : ascii) :
  Forall (fun c => p c = false) a -> p c = true ->
  break_at p (a ++ c :: r) = (a, Some (c :: r)).
Proof.
  intros H Hc. induction H as [|x a Hx _ IH]; simpl.
  - now rewrite Hc.
  - now rewrite Hx, IH.
Qed.

Lemma is_digit_plain (c : ascii) :
  is_digit c = true ->
  lower c = c /\ Ascii.eqb (lower c) "e" = false /\ Ascii.eqb c "." = false
  /\ c <> "i"%char /\ c <> "n"%char /\ c <> "-"%char /\ c <> "+"%char.
Proof.
  destruct c as [[] [] [] [] [] [] [] []]; try discriminate;
    intros _; repeat split; discriminate.
Qed.

Lemma filter_all {A : Type} (p : A -> bool) (l : list A) :
  Forall (fun c => p c = true) l -> filter p l = l.
Proof. induction 1 as [|c l Hc _ IH]; [reflexivity|]. simpl. now rewrite Hc, IH. Qed.

Lemma digit_part_padded (w : nat) (n : Z) :
  0 <= n ->
  digit_part (zfill w (digits n)) = Some (n, Z.of_nat (length (zfill w (digits n)))).
Proof.
  intros H. unfold digit_part.
  assert (A : all_digits (zfill w (digits n)))
    by apply all_digits_zfill, digits_all_digits.
  rewrite parse_all_digits; [|exact A|].
  - rewrite (filter_all _ _ A). unfold zfill at 1.
    now rewrite digits_value_zeros, digits_value_digits.
  - left. unfold zfill. intros E. apply app_eq_nil in E as [_ E].
    now apply digits_nonempty in E.
Qed.

Lemma zfill_0 (s : str) : zfill 0 s = s.
Proof. reflexivity. Qed.

Lemma opt_digit_part_cons (c : ascii) (t : str) :
  opt_digit_part (c :: t) = digit_part (c :: t).
Proof. reflexivity. Qed.

(** A whole part, a point and two decimals denote that many hundredths. *)
Lemma decimal_literal_hundredths (W F : Z) :
  0 <= W -> 0 <= F < 100 ->
  decimal_literal (digits W ++ lit "." ++ zfill 2 (digits F))
  = Some (W * 10 ^ 2 + F, - 2).
Proof.
  intros HW HF. unfold decimal_literal.
  pose proof (digits_all_digits W) as AW.
  assert (AF : all_digits (zfill 2 (digits F)))
    by apply all_digits_zfill, digits_all_digits.
  rewrite break_at_none.
  2:{ apply Forall_app. split; [|constructor; [reflexivity|]].
      - eapply Forall_impl; [|exact AW]. intros c Hc. now apply is_digit_plain.
      - eapply Forall_impl; [|exact AF]. intros c Hc. now apply is_digit_plain. }
  change (lit "." ++ zfill 2 (digits F)) with ("."%char :: zfill 2 (digits F)).
  rewrite break_at_app; [|eapply Forall_impl; [|exact AW];
                           intros c Hc; now apply is_digit_plain|reflexivity].
  pose proof (digit_part_padded 0 W HW) as PW. rewrite zfill_0 in PW.
  pose proof (digit_part_padded 2 F ltac:(lia)) as PF.
  rewrite zfill_length_small in PF by assumption.
  pose proof (digits_nonempty W) as NW.
  destruct (digits W) as [|c t]; [congruence|].
  assert (NF : zfill 2 (digits F) <> []).
  { intros E. apply (f_equal (@length ascii)) in E.
    rewrite zfill_length_small in E by assumption. discriminate. }
  destruct (zfill 2 (digits F)) as [|c' t']; [congruence|].
  rewrite !opt_digit_part_cons, PW, PF. reflexivity.
Qed.

Lemma hundredths_text_no_space (h : Z) :
  Forall (fun c => isspace c = false) (hundredths_text h).
Proof.
  unfold hundredths_text. apply Forall_app. split.
  - apply all_digits_no_space, digits_all_digits.
  - constructor; [reflexivity|].
    apply all_digits_no_space, all_digits_zfill, digits_all_digits.
Qed.

Lemma hundredths_text_nonempty (h : Z) : hundredths_text h <> [].
Proof.
  unfold hundredths_text. intros E. apply app_eq_nil in E as [E _].
  now apply digits_nonempty in E.
Qed.

Lemma py_float_hundredths (neg : bool) (h : Z) :
  0 <= h ->
  py_float ((if neg then lit "-" else []) ++ hundredths_text h)
  = Ok (if neg then fneg (round_ratio h 100) else round_ratio h 100).
Proof.
  intros H. unfold py_float.
  rewrite literal_strip_id
    by (apply Forall_app; split;
        [destruct neg; repeat constructor | apply hundredths_text_no_space]).
  assert (D : decimal_literal (hundredths_text h) = Some (h, - 2)).
  { unfold hundredths_text. rewrite decimal_literal_hundredths.
    - do 2 f_equal. change (10 ^ 2) with 100.
      Z.to_euclidean_division_equations; lia.
    - apply Z.div_pos; lia.
    - apply Z.mod_pos_bound; lia. }
  assert (S : exists c t, hundredths_text h = c :: t /\ is_digit c = true).
  { unfold hundredths_text. pose proof (digits_all_digits (h / 100)) as A.
    pose proof (digits_nonempty (h / 100)) as N.
    destruct (digits (h / 100)) as [|c t]; [congruence|].
    inversion A; subst. now exists c, (t ++ lit "." ++ zfill 2 (digits (h mod 100))). }
  destruct S as (c & t & E & Hc). rewrite E in *.
  destruct (is_digit_plain c Hc) as (Lc & _ & _ & Ni & Nn & Nm & Np).
  assert (Sg : signed ((if neg then lit "-" else []) ++ c :: t) = (neg, c :: t)).
  { destruct neg; [reflexivity|]. unfold signed. cbn [app].
    destruct c as [[] [] [] [] [] [] [] []]; try reflexivity; congruence. }
  rewrite Sg. cbn [map]. rewrite Lc.
  assert (Q : forall x r, c <> x -> str_eqb (c :: map lower t) (x :: r) = false).
  { intros x r Nx. unfold str_eqb. destruct (list_eq_dec _ _ _) as [Eq|]; [|reflexivity].
    congruence. }
  change (lit "inf") with ("i"%char :: lit "nf").
  change (lit "infinity") with ("i"%char :: lit "nfinity").
  change (lit "nan") with ("n"%char :: lit "an").
  rewrite !(Q "i"%char _ Ni), (Q "n"%char _ Nn). cbn [orb].
  rewrite D. reflexivity.
Qed.

(** The index of a unit in the list is the one it was taken from. *)
Lemma list_index_nth (k : nat) (unit : str) :
  nth_error units k = Some unit -> list_index unit units = Ok k.
Proof.
  intros H. unfold units in H.
  do 5 (destruct k as [|k]; [injection H as <-; reflexivity|]).
  destruct k; discriminate.
Qed.

Lemma nth_error_units (k : nat) (unit : str) :
  nth_error units k = Some unit ->
  (k <= 4)%nat /\ unit <> [] /\ Forall (fun c => isspace c = false) unit.
Proof. intros H. apply list_index_units. now apply list_index_nth. Qed.

(** A signed magnitude of [h] hundredths, whose float is [N] quanta, with a
    unit. *)
Lemma formatted_size_to_bytes_hundredths (neg : bool) (h N : Z) (k : nat) (unit : str) :
  0 <= h -> nth_error units k = Some unit ->
  round_ratio h 100 = Finite N ->
  Z.abs N * 1024 ^ Z.of_nat k < 2 ^ 1024 * quanta ->
  formatted_size_to_bytes
    (((if neg then lit "-" else []) ++ hundredths_text h) ++ lit " " ++ unit)
  = Ok (Z.quot ((if neg then - N else N) * 1024 ^ Z.of_nat k) quanta).
Proof.
  intros Hh Hu E Fin.
  destruct (nth_error_units k unit Hu) as (Hk & Nu & Su).
  assert (P : 1 <= 1024 ^ Z.of_nat k) by (apply Z.lt_pred_le, Z.pow_pos_nonneg; lia).
  pose proof (round_ratio_representable h 100 N ltac:(lia) E) as R.
  unfold formatted_size_to_bytes.
  rewrite split_ws_two;
    [|apply Forall_app; split;
      [destruct neg; repeat constructor | apply hundredths_text_no_space]
     |intros E0; apply app_eq_nil in E0 as [_ E0];
      now apply hundredths_text_nonempty in E0
     |assumption|assumption|repeat constructor|discriminate].
  rewrite py_float_hundredths by assumption. rewrite E.
  cbn [bind]. rewrite (list_index_nth k unit Hu). cbn [bind].
  destruct neg; cbn [fneg].
  - rewrite float_mul_1024 by now apply representable_from_opp.
    rewrite Z.abs_opp.
    now replace (_ <? _) with true by (symmetry; apply Z.ltb_lt; lia).
  - rewrite float_mul_1024 by assumption.
    now replace (_ <? _) with true by (symmetry; apply Z.ltb_lt; lia).
Qed.

(** The float nearest to a number of hundredths below [2^14]. *)
Lemma round_ratio_hundredths (h : Z) :
  100 <= h < 100 * 2 ^ 14 ->
  exists N, round_ratio h 100 = Finite N
            /\ 0 <= N
            /\ N * 2 ^ 40 < 2 ^ 1024 * quanta
            /\ Z.abs (N * 100 - h * quanta) * 2 ^ 40 <= 100 * quanta.
Proof.
  intros H. pose proof quanta_pos as Q.
  assert (Up : h * quanta < 2 ^ 1088 * 100).
  { replace (2 ^ 1088) with (2 ^ 14 * quanta)
      by (unfold quanta; now rewrite <- Z.pow_add_r by lia).
    rewrite (Z.mul_comm (2 ^ 14 * quanta)), Z.mul_assoc.
    apply Z.mul_lt_mono_pos_r; lia. }
  pose proof (round_quanta_upper h 100 1088 ltac:(lia) ltac:(lia) ltac:(lia) Up) as U.
  destruct (round_quanta_representable h 100 ltac:(lia) ltac:(lia)) as [Pos _].
  exists (round_quanta h 100). split; [|split; [lia|split]].
  - apply round_ratio_finite; [lia|].
    eapply Z.le_lt_trans; [exact U|]. apply Z.pow_lt_mono_r; lia.
  - apply Z.le_lt_trans with (2 ^ 1088 * 2 ^ 40).
    + apply Z.mul_le_mono_nonneg_r; [apply Z.pow_nonneg; lia | exact U].
    + unfold quanta. rewrite <- !Z.pow_add_r by lia. apply Z.pow_lt_mono_r; lia.
  - destruct (round_quanta_near h 100 ltac:(lia) ltac:(lia)) as [_ Near].
    cbv zeta in Near.
    assert (A : 0 < h * quanta / 100).
    { apply Z.div_str_pos. split; [lia|].
      apply Z.le_trans with (100 * quanta); [lia|].
      apply Z.mul_le_mono_nonneg_r; lia. }
    assert (B : h * quanta / 100 < 2 ^ 1088) by (apply Z.div_lt_upper_bound; lia).
    apply Z.log2_lt_pow2 in B; [|exact A].
    assert (Z.max (Z.log2 (h * quanta / 100) - 52) 0 <= 1035) by lia.
    assert (L : 2 ^ Z.max (Z.log2 (h * quanta / 100) - 52) 0 <= 2 ^ 1035)
      by (apply Z.pow_le_mono_r; lia).
    assert (T : 2 ^ 1035 * 2 ^ 40 = 2 * quanta)
      by (unfold quanta; rewrite <- Z.pow_add_r by lia;
          change (1035 + 40) with (1 + 1074); now rewrite Z.pow_add_r by lia).
    pose proof (Z.abs_nonneg (round_quanta h 100 * 100 - h * quanta)) as X0.
    assert (C0 : 0 <= 2 ^ 40) by (apply Z.pow_nonneg; lia).
    revert Near L T X0 C0.
    generalize (2 ^ Z.max (Z.log2 (h * quanta / 100) - 52) 0).
    generalize (Z.abs (round_quanta h 100 * 100 - h * quanta)).
    generalize (2 ^ 1035). generalize (2 ^ 40). generalize quanta.
    clear. intros q c a x u Near L T X0 C0.
    assert (x <= 50 * a) by lia.
    assert (x * c <= 50 * a * c) by (apply Z.mul_le_mono_nonneg_r; lia).
    lia.
Qed.

Lemma pow_1024_le (k : nat) : (k <= 4)%nat -> 1 <= 1024 ^ Z.of_nat k <= 2 ^ 40.
Proof.
  intros H. split; [apply Z.lt_pred_le, Z.pow_pos_nonneg; lia|].
  change (2 ^ 40) with (1024 ^ 4). apply Z.pow_le_mono_r; lia.
Qed.

Lemma hundredths_whole (n : Z) :
  0 <= n -> hundredths_text (100 * n) = digits n ++ lit ".00".
Proof.
  intros H. unfold hundredths_text.
  rewrite (Z.mul_comm 100), Z.div_mul, Z.mod_mul by lia. reflexivity.
Qed.

(** Counts whose text keeps the unit [B]. *)
Lemma unscaled_round_trip (b : Z) :
  - 2 ^ 53 < b < 1024 ->
  formatted_size_to_bytes (sign_text b ++ digits (Z.abs b) ++ lit ".00 B") = Ok b.
Proof.
  intros Hb. pose proof quanta_pos as Q.
  change (lit ".00 B") with (lit ".00" ++ lit " " ++ lit "B").
  rewrite (app_assoc (digits _)), <- hundredths_whole by lia.
  rewrite app_assoc. unfold sign_text.
  assert (R : round_ratio (100 * Z.abs b) 100 = Finite (Z.abs b * quanta)).
  { apply round_ratio_exact; [lia| | |lia].
    - exists (Z.abs b), 1074. repeat split; lia.
    - rewrite Z.abs_mul, Z.abs_idemp, (Z.abs_eq quanta) by lia.
      assert (2 ^ 53 < 2 ^ 1024) by (apply Z.pow_lt_mono_r; lia). nia. }
  rewrite (formatted_size_to_bytes_hundredths _ _ (Z.abs b * quanta) 0 (lit "B"));
    [|lia|reflexivity|exact R|].
  - f_equal. change (1024 ^ Z.of_nat 0) with 1. rewrite Z.mul_1_r.
    destruct (Z.ltb_spec b 0).
    + replace (- (Z.abs b * quanta)) with (b * quanta) by lia.
      apply Z.quot_mul; lia.
    + replace (Z.abs b * quanta) with (b * quanta) by lia.
      apply Z.quot_mul; lia.
  - change (1024 ^ Z.of_nat 0) with 1.
    rewrite Z.abs_mul, Z.abs_idemp, (Z.abs_eq quanta) by lia.
    assert (2 ^ 53 < 2 ^ 1024) by (apply Z.pow_lt_mono_r; lia). nia.
Qed.

(** Truncating a product that is close to [h * P / 100] bytes, itself the
    nearest number of hundredths of [P] bytes to [b]. *)
Lemma truncated_near (q P N h b : Z) :
  0 < q -> 1 <= P -> 0 <= N ->
  Z.abs (N * 100 - h * q) * P <= 100 * q ->
  2 * Z.abs (h * P - 100 * b) <= P ->
  200 * Z.abs (N * P / q - b) <= P + 400.
Proof.
  intros Q HP HN Hx Hy.
  pose proof (Z.div_mod (N * P) q ltac:(lia)) as DM.
  pose proof (Z.mod_pos_bound (N * P) q Q) as MB.
  set (r := N * P / q) in *. set (m := (N * P) mod q) in *.
  assert (X : Z.abs (100 * (N * P) - h * P * q) <= 100 * q).
  { replace (100 * (N * P) - h * P * q) with ((N * 100 - h * q) * P) by ring.
    now rewrite Z.abs_mul, (Z.abs_eq P) by lia. }
  assert (Y : Z.abs (2 * (h * P * q) - 200 * (b * q)) <= P * q).
  { replace (2 * (h * P * q) - 200 * (b * q)) with (2 * (h * P - 100 * b) * q) by ring.
    rewrite Z.abs_mul, (Z.abs_eq q), Z.abs_mul, (Z.abs_eq 2) by lia.
    apply Z.mul_le_mono_nonneg_r; lia. }
  assert (G : Z.abs (200 * (q * r) - 200 * (b * q)) <= P * q + 400 * q) by lia.
  apply (Z.mul_le_mono_pos_r _ _ q Q).
  replace (200 * Z.abs (r - b) * q) with (Z.abs (200 * (q * r) - 200 * (b * q))).
  - lia.
  - replace (200 * (q * r) - 200 * (b * q)) with (200 * (r - b) * q) by ring.
    now rewrite !Z.abs_mul, (Z.abs_eq q), (Z.abs_eq 200) by lia.
Qed.

(** A size that is a whole number of hundredths of the unit [1024^k]. *)
Lemma round_ratio_whole_hundredths (b c : Z) (k : nat) :
  0 <= b < 2 ^ 53 -> (k <= 4)%nat -> 100 * b = c * 1024 ^ Z.of_nat k ->
  exists N, round_ratio c 100 = Finite N /\ N * 1024 ^ Z.of_nat k = b * quanta.
Proof.
  intros Hb Hk Hc. pose proof quanta_pos as Q.
  assert (EP : 1024 ^ Z.of_nat k = 2 ^ (10 * Z.of_nat k))
    by (change 1024 with (2 ^ 10); now rewrite <- Z.pow_mul_r by lia).
  assert (Eq : quanta = 2 ^ (1074 - 10 * Z.of_nat k) * 1024 ^ Z.of_nat k)
    by (unfold quanta; rewrite EP, <- Z.pow_add_r by lia; f_equal; lia).
  assert (Le : 0 < 2 ^ (1074 - 10 * Z.of_nat k) <= quanta).
  { split; [apply Z.pow_pos_nonneg; lia|].
    unfold quanta. apply Z.pow_le_mono_r; lia. }
  exists (b * 2 ^ (1074 - 10 * Z.of_nat k)). split.
  - apply round_ratio_exact; [lia| | |].
    + exists b, (1074 - 10 * Z.of_nat k). repeat split; lia.
    + rewrite Z.abs_mul, (Z.abs_eq (2 ^ _)), (Z.abs_eq b) by lia.
      apply Z.le_lt_trans with (b * quanta).
      * apply Z.mul_le_mono_nonneg_l; lia.
      * apply Z.mul_lt_mono_pos_r; [exact Q|].
        assert (2 ^ 53 < 2 ^ 1024) by (apply Z.pow_lt_mono_r; lia). lia.
    + rewrite Eq at 1.
      replace (c * (2 ^ (1074 - 10 * Z.of_nat k) * 1024 ^ Z.of_nat k))
        with (c * 1024 ^ Z.of_nat k * 2 ^ (1074 - 10 * Z.of_nat k)) by ring.
      rewrite <- Hc. ring.
  - rewrite <- Z.mul_assoc, <- Eq. reflexivity.
Qed.

(** X16: a size formatted and read back.  For a byte count of magnitude
    below [2^53], [formatted_size_to_bytes] accepts the text that
    [bytes_to_formatted_size] gives; the count read back differs from the
    count by at most half a hundredth of the unit [1024^k] plus two bytes,
    and is the count itself when this is a whole number of hundredths of
    the unit, in particular below 1024. *)
Theorem size_round_trip (b : Z) :
  - 2 ^ 53 < b < 2 ^ 53 ->
  exists (k : nat) (text : str) (b' : Z),
    bytes_to_formatted_size b = Some (Ok text)
    /\ formatted_size_to_bytes text = Ok b'
    /\ (k <= 4)%nat
    /\ ((k < 4)%nat -> b < 1024 ^ (Z.of_nat k + 1))
    /\ ((0 < k)%nat -> 1024 ^ Z.of_nat k <= b)
    /\ 200 * Z.abs (b' - b) <= 1024 ^ Z.of_nat k + 400
    /\ ((1024 ^ Z.of_nat k | 100 * b) -> b' = b).
Proof.
  intros Hb. pose proof quanta_pos as Q.
  destruct (Z.lt_ge_cases b 1024) as [Small|Large].
  - exists 0%nat, (sign_text b ++ digits (Z.abs b) ++ lit ".00 B"), b.
    split; [apply unscaled_size_text; lia|].
    split; [apply unscaled_round_trip; lia|].
    change (1024 ^ Z.of_nat 0) with 1. change (1024 ^ (Z.of_nat 0 + 1)) with 1024.
    repeat split; try lia.
  - destruct (bytes_to_formatted_size_exact b ltac:(lia))
      as (k & unit & Hu & Hlt & Hge & T).
    destruct (nth_error_units k unit Hu) as (Hk & _ & _).
    assert (K : (0 < k)%nat).
    { destruct k; [|lia]. specialize (Hlt ltac:(lia)). simpl in Hlt. lia. }
    specialize (Hge K).
    destruct (pow_1024_le k Hk) as [P1 P40].
    assert (Hlt' : (k < 4)%nat -> b < 1024 * 1024 ^ Z.of_nat k).
    { intros K4. specialize (Hlt K4). rewrite Z.pow_add_r in Hlt by lia.
      change (1024 ^ 1) with 1024 in Hlt. lia. }
    set (P := 1024 ^ Z.of_nat k) in *.
    set (h := round_half_even (100 * b) P) in *.
    pose proof (round_half_even_bounds (100 * b) P ltac:(lia)) as [Lo Hi].
    pose proof (round_half_even_near (100 * b) P ltac:(lia)) as Near.
    fold h in Lo, Hi, Near.
    assert (H100 : 100 <= h).
    { assert (100 <= 100 * b / P) by (apply Z.div_le_lower_bound; lia). lia. }
    assert (Hup : h < 100 * 2 ^ 14).
    { assert (100 * b / P < 100 * 2 ^ 14 - 1); [|lia].
      apply Z.div_lt_upper_bound; [lia|].
      destruct (Nat.eq_dec k 4) as [->|].
      - subst P. change (1024 ^ Z.of_nat 4) with (2 ^ 40). lia.
      - specialize (Hlt' ltac:(lia)). change (100 * 2 ^ 14 - 1) with 1638399.
        clear - Hlt' P1. nia. }
    destruct (round_ratio_hundredths h ltac:(lia)) as (N & RN & N0 & N1 & Nnear).
    assert (NP : N * P <= N * 2 ^ 40) by (apply Z.mul_le_mono_nonneg_l; lia).
    assert (Fin : Z.abs N * P < 2 ^ 1024 * quanta) by (rewrite Z.abs_eq; lia).
    pose proof (formatted_size_to_bytes_hundredths false h N k unit
                  ltac:(lia) Hu RN Fin) as F.
    cbn [app] in F. fold P in F.
    exists k, (hundredths_text h ++ lit " " ++ unit), (Z.quot (N * P) quanta).
    split; [exact T|]. split; [exact F|]. split; [exact Hk|].
    split; [exact Hlt|]. split; [intros _; exact Hge|].
    rewrite Z.quot_div_nonneg by (try apply Z.mul_nonneg_nonneg; lia).
    split.
    + apply truncated_near with (h := h); [lia | lia | lia | | exact Near].
      apply Z.le_trans with (Z.abs (N * 100 - h * quanta) * 2 ^ 40); [|exact Nnear].
      apply Z.mul_le_mono_nonneg_l; [apply Z.abs_nonneg | lia].
    + intros [c Hc].
      assert (Eh : h = c).
      { unfold h. rewrite Hc. apply round_half_even_exact. lia. }
      destruct (round_ratio_whole_hundredths b c k ltac:(lia) Hk Hc) as (N' & RN' & EN).
      rewrite Eh, RN' in RN. injection RN as <-.
      fold P in EN. rewrite EN. apply Z.div_mul. lia.
Qed.

Lemma size_round_trip_witness :
  exists (k : nat) (text : str) (b' : Z),
    bytes_to_formatted_size 1536 = Some (Ok text)
    /\ formatted_size_to_bytes text = Ok b'
    /\ (k <= 4)%nat
    /\ ((k < 4)%nat -> 1536 < 1024 ^ (Z.of_nat k + 1))
    /\ ((0 < k)%nat -> 1024 ^ Z.of_nat k <= 1536)
    /\ 200 * Z.abs (b' - 1536) <= 1024 ^ Z.of_nat k + 400
    /\ ((1024 ^ Z.of_nat k | 100 * 1536) -> b' = 1536).
Proof. apply (size_round_trip 1536). split; reflexivity. Defined.

(** ** The size column of the song library *)

Lemma int_truediv_mebi (b : Z) :
  0 <= b < 2 ^ 53 ->
  int_truediv b (1024 * 1024) = Ok (Finite (b * 2 ^ 1054)).
Proof.
  intros H. pose proof quanta_pos as Q. unfold int_truediv.
  assert (E : quanta = 2 ^ 1054 * (1024 * 1024))
    by (unfold quanta; change (1024 * 1024) with (2 ^ 20);
        now rewrite <- Z.pow_add_r by lia).
  assert (P : 0 < 2 ^ 1054 <= quanta).
  { split; [apply Z.pow_pos_nonneg; lia|].
    unfold quanta. apply Z.pow_le_mono_r; lia. }
  rewrite (round_ratio_exact b (1024 * 1024) (b * 2 ^ 1054)); [reflexivity|lia| | |].
  - exists b, 1054. repeat split; lia.
  - rewrite Z.abs_mul, (Z.abs_eq (2 ^ 1054)), (Z.abs_eq b) by lia.
    apply Z.le_lt_trans with (b * quanta).
    + apply Z.mul_le_mono_nonneg_l; lia.
    + apply Z.mul_lt_mono_pos_r; [exact Q|].
      assert (2 ^ 53 < 2 ^ 1024) by (apply Z.pow_lt_mono_r; lia). lia.
  - rewrite E at 1. ring.
Qed.

Lemma process_data_file_size_eq (b : Z) :
  0 <= b < 2 ^ 53 ->
  process_data_file_size b
  = Ok (hundredths_text (round_half_even (100 * b) (1024 * 1024)) ++ lit " MB").
Proof.
  intros H. unfold process_data_file_size.
  rewrite int_truediv_mebi by assumption. cbn [bind].
  assert (P : 0 < 2 ^ 1054) by (apply Z.pow_pos_nonneg; lia).
  rewrite format_2f_nonneg by (apply Z.mul_nonneg_nonneg; lia).
  cbv zeta. unfold hundredths_text.
  replace (round_half_even (b * 2 ^ 1054 * 100) quanta)
    with (round_half_even (100 * b) (1024 * 1024)); [reflexivity|].
  rewrite <- (round_half_even_scale (100 * b) (1024 * 1024) (2 ^ 1054)) by lia.
  replace (100 * b * 2 ^ 1054) with (b * 2 ^ 1054 * 100) by ring.
  replace (1024 * 1024 * 2 ^ 1054) with quanta; [reflexivity|].
  unfold quanta. change (1024 * 1024) with (2 ^ 20).
  now rewrite <- Z.pow_add_r by lia.
Qed.

(** X17: the size that [process_data] records.  For a total size below
    [2^53] bytes the text is the size in units of [1024 * 1024] bytes,
    rounded to the nearest hundredth (ties to even), followed by [MB]; from
    [1024^2] up to [1024^3] bytes (excluded) it is the text of
    [bytes_to_formatted_size]; up to 5242 bytes it is [0.00 MB]. *)
Theorem process_data_file_size_text (total_size : Z) :
  0 <= total_size < 2 ^ 53 ->
  process_data_file_size total_size
  = Ok (hundredths_text (round_half_even (100 * total_size) (1024 * 1024))
        ++ lit " MB")
  /\ (1024 ^ 2 <= total_size < 1024 ^ 3 ->
      bytes_to_formatted_size total_size = Some (process_data_file_size total_size))
  /\ (total_size <= 5242 -> process_data_file_size total_size = Ok (lit "0.00 MB")).
Proof.
  intros H. pose proof (process_data_file_size_eq total_size H) as E.
  split; [exact E|]. split.
  - intros R. rewrite E.
    destruct (bytes_to_formatted_size_exact total_size H)
      as (k & unit & Hu & Hlt & Hge & T).
    rewrite T. do 2 f_equal.
    assert (K : k = 2%nat).
    { destruct k as [|[|[|[|[|k]]]]]; try reflexivity; try discriminate.
      - specialize (Hlt ltac:(lia)). change (1024 ^ (Z.of_nat 0 + 1)) with 1024 in Hlt.
        change (1024 ^ 2) with 1048576 in R. lia.
      - specialize (Hlt ltac:(lia)).
        change (1024 ^ (Z.of_nat 1 + 1)) with 1048576 in Hlt.
        change (1024 ^ 2) with 1048576 in R. lia.
      - specialize (Hge ltac:(lia)).
        change (1024 ^ Z.of_nat 3) with (1024 ^ 3) in Hge. lia.
      - specialize (Hge ltac:(lia)).
        assert (1024 ^ 3 <= 1024 ^ Z.of_nat 4) by (apply Z.pow_le_mono_r; lia). lia.
      - exfalso. clear - Hu. unfold units in Hu. simpl in Hu. destruct k; discriminate. }
    subst k. injection Hu as <-. reflexivity.
  - intros S. rewrite E.
    replace (round_half_even (100 * total_size) (1024 * 1024)) with 0; [reflexivity|].
    unfold round_half_even. change (1024 * 1024) with 1048576.
    rewrite Z.div_small, Z.mod_small by lia.
    now replace (2 * (100 * total_size) <? 1048576) with true
      by (symmetry; apply Z.ltb_lt; lia).
Qed.

Lemma process_data_file_size_text_witness :
  process_data_file_size 5000000
  = Ok (hundredths_text (round_half_even (100 * 5000000) (1024 * 1024)) ++ lit " MB").
Proof.
  refine (proj1 (process_data_file_size_text 5000000 _)). lia.
Defined.

(** ** Size strings that are refused *)

Lemma split_ws_word (w : str) :
  Forall (fun c => isspace c = false) w ->
  split_ws w = match w with [] => [] | _ => [w] end.
Proof.
  intros H. unfold split_ws. rewrite <- (app_nil_r w) at 1.
  rewrite split_ws_from_word, app_nil_r by assumption.
  destruct w as [|c t]; [reflexivity|].
  rewrite split_ws_from_flush by (apply rev_nonempty; discriminate).
  now rewrite rev_involutive.
Qed.

Lemma list_index_not_in (x : str) (xs : list str) :
  ~ In x xs -> list_index x xs = Raise ValueError.
Proof.
  induction xs as [|y ys IH]; intros N; [reflexivity|]. simpl.
  unfold str_eqb. destruct (list_eq_dec ascii_dec x y) as [->|_].
  - exfalso. apply N. now left.
  - rewrite IH; [reflexivity|]. intros H. apply N. now right.
Qed.

Lemma list_index_error (x : str) (xs : list str) (e : exn) :
  list_index x xs = Raise e -> e = ValueError.
Proof.
  revert e. induction xs as [|y ys IH]; intros e; simpl; [now intros [= <-]|].
  destruct (str_eqb x y); [discriminate|].
  destruct (list_index x ys); simpl; [discriminate|].
  intros [= <-]. now apply IH.
Qed.

Lemma py_float_error (s : str) (e : exn) : py_float s = Raise e -> e = ValueError.
Proof.
  unfold py_float. destruct (signed (literal_strip s)) as [neg body].
  destruct (_ || _); [discriminate|].
  destruct (str_eqb _ _); [discriminate|].
  destruct (decimal_literal body) as [[M E]|]; [|now intros [= <-]].
  destruct (0 <=? E); discriminate.
Qed.

Lemma int_of_float_error (x : float) (e : exn) :
  int_of_float x = Raise e -> e = ValueError \/ e = OverflowError.
Proof. destruct x; simpl; [discriminate| |]; intros [= <-]; auto. Qed.

(** X18: size strings that are refused.  A string without whitespace is
    refused with [ValueError], even one such as [10MB]; so is a magnitude
    followed by a word that is not one of [B], [KB], [MB], [GB], [TB],
    written exactly so; and [formatted_size_to_bytes] raises nothing but
    [ValueError] and [OverflowError]. *)
Theorem formatted_size_to_bytes_rejects :
  (forall formatted_size : str,
     Forall (fun c => isspace c = false) formatted_size ->
     formatted_size_to_bytes formatted_size = Raise ValueError)
  /\ (forall size sep unit : str,
        Forall (fun c => isspace c = false) size -> size <> [] ->
        Forall (fun c => isspace c = false) unit -> unit <> [] ->
        all_space sep -> sep <> [] ->
        ~ In unit units ->
        formatted_size_to_bytes (size ++ sep ++ unit) = Raise ValueError)
  /\ (forall (formatted_size : str) (e : exn),
        formatted_size_to_bytes formatted_size = Raise e ->
        e = ValueError \/ e = OverflowError)
  /\ formatted_size_to_bytes (lit "10MB") = Raise ValueError
  /\ formatted_size_to_bytes (lit "1.5 mb") = Raise ValueError
  /\ formatted_size_to_bytes (lit "1.5 MB extra") = Raise ValueError
  /\ formatted_size_to_bytes (lit "nan MB") = Raise ValueError
  /\ formatted_size_to_bytes (lit "inf B") = Raise OverflowError.
Proof.
  split; [|split; [|split; [|by_evaluation]]].
  - intros s H. unfold formatted_size_to_bytes. rewrite split_ws_word by assumption.
    destruct s; reflexivity.
  - intros size sep unit Hs Ns Hu Nu Hsep Nsep Nin.
    unfold formatted_size_to_bytes. rewrite split_ws_two by assumption.
    destruct (py_float size) as [x|e] eqn:F; cbn [bind].
    + now rewrite list_index_not_in.
    + apply py_float_error in F. now subst.
  - intros s e. unfold formatted_size_to_bytes.
    destruct (split_ws s) as [|size [|unit [|x l]]]; try (intros [= <-]; now left).
    destruct (py_float size) as [x|e'] eqn:F; cbn [bind].
    + destruct (list_index unit units) as [k|e'] eqn:L; cbn [bind].
      * apply int_of_float_error.
      * intros [= <-]. left. eapply list_index_error; eauto.
    + intros [= <-]. left. eapply py_float_error; eauto.
Qed.

Lemma formatted_size_to_bytes_rejects_witness :
  formatted_size_to_bytes (lit "2.5" ++ lit "  " ++ lit "MiB") = Raise ValueError.
Proof.
  apply (proj1 (proj2 formatted_size_to_bytes_rejects)
           (lit "2.5") (lit "  ") (lit "MiB"));
    try discriminate; try (repeat constructor).
  unfold units. simpl. intros [E|[E|[E|[E|[E|[]]]]]]; discriminate.
Defined.
